(** * A shallow embedding of the UCT Monte-Carlo tree search engine

    The development follows [common.py] (game states, [TreeNode],
    [SearchTree], [SearchNode], the sequential [uct] driver) and the
    variants built on it: leaf parallelisation, root parallelisation and
    the pickling search tree.

    Modelling conventions.
    - Python integers are [Z]; Python floats ([wins], [visits], game
      results) are exact rationals [Q], compared up to [Qeq].
    - Objects that are shared and mutated ([TreeNode]) live in a heap, a
      list indexed by address; a dictionary is an association list in
      insertion order (no statement below depends on the iteration order
      of a dictionary).
    - Exceptions are values of [error]; code that can raise returns a
      [result].  Loops and recursive calls take fuel; running out of fuel
      ([RecursionError]) stands for a computation that does not return.
    - [random.choice] reads a stream of naturals [rng]. *)

From Stdlib Require Import QArith Lqa Ascii.
From stdpp Require Import base tactics option list numbers strings pretty relations.

Set Default Proof Using "Type".
Set Warnings "-clear-no-such-hyp,-register-all".

Open Scope Z_scope.

(** ** Exceptions and the error monad *)

Inductive error : Set :=
  | AssertionError_game      (* an [assert] of a game state class *)
  | AssertionError_children  (* [assert self.child_nodes()] in [uct_select_child] *)
  | IndexError
  | ValueError
  | ZeroDivisionError
  | EOFError
  | IOError
  | PickleError
  | UnpicklingError
  | DanglingReference        (* an address outside the heap: no Python counterpart *)
  | RecursionError.          (* out of fuel *)

Inductive result (A : Type) : Type :=
  | Ok (a : A)
  | Err (e : error).
Arguments Ok {A} a.
Arguments Err {A} e.

Global Instance result_ret : MRet result := λ A a, Ok a.
Global Instance result_bind : MBind result := λ A B f m,
  match m with Ok a => f a | Err e => Err e end.

Definition of_option {A} (e : error) (o : option A) : result A :=
  match o with Some a => Ok a | None => Err e end.

Definition assert (e : error) (b : bool) : result unit :=
  if b then Ok tt else Err e.

(** Python's [range(a, b)]. *)
Definition range (a b : Z) : list Z := seqZ a (b - a).

(** [random.choice(seq)]: the next number of the stream picks the index. *)
Definition Rng := nat → nat.

Definition rng_next (rng : Rng) : Rng := λ i, rng (S i).

Definition choice {A} (rng : Rng) (l : list A) : result (A * Rng) :=
  match l !! (rng 0%nat `mod` length l)%nat with
  | Some x => Ok (x, rng_next rng)
  | None => Err IndexError
  end.

(** ** The game state interface ([class GameState]) *)

Class Game : Type := {
  State : Type;
  Move : Type;
  Move_eq_dec :: EqDecision Move;
  Key : Type;
  Key_eq_dec :: EqDecision Key;
  player_just_moved : State → Z;
  do_move : State → Move → result State;
  get_moves : State → list Move;
  get_result : State → Z → result Q;
  repr : State → Key;
}.

(** ** Nim ([class NimState]) *)

Module Nim.

Record NimState : Set := mkNim {
  pjm : Z;
  chips : Z;
}.

(** [NimState(chips)] *)
Definition init (c : Z) : NimState := {| pjm := 2; chips := c |}.

Definition clone (st : NimState) : NimState :=
  {| pjm := pjm st; chips := chips st |}.

(** Moves are integers, so [move == int(move)] holds of each. *)
Definition do_move (st : NimState) (move : Z) : result NimState :=
  _ ← assert AssertionError_game ((1 <=? move) && (move =? move));
  Ok {| pjm := 3 - pjm st; chips := chips st - move |}.

Definition get_moves (st : NimState) : list Z :=
  range 1 (Z.min 4 (chips st + 1)).

Definition get_result (st : NimState) (playerjm : Z) : result Q :=
  _ ← assert AssertionError_game (chips st =? 0);
  Ok (if pjm st =? playerjm then 1%Q else 0%Q).

Definition repr (st : NimState) : string :=
  "Chips:" +:+ pretty (chips st) +:+ " JustPlayed:" +:+ pretty (pjm st).

Global Instance game : Game :=
  Build_Game NimState Z _ string _ pjm do_move get_moves get_result repr.

End Nim.

(** ** Gobang ([class GobangState]) *)

Module Gobang.

Record GobangState : Set := mkGobang {
  pjm : Z;
  board : list (list Z);   (* 0 = empty, 1 = player 1, 2 = player 2 *)
  size : Z;
  inrow : Z;
  terminated : bool;
}.

(** [GobangState(size, inrow)] *)
Definition init (sz inr : Z) : GobangState :=
  {| pjm := 2;
     board := replicate (Z.to_nat sz) (replicate (Z.to_nat sz) 0);
     size := sz; inrow := inr; terminated := false |}.

Definition is_on_board (st : GobangState) (x y : Z) : bool :=
  (0 <=? x) && (x <? size st) && (0 <=? y) && (y <? size st).

(** [self.__board[x][y]] for non-negative indices. *)
Definition cell (b : list (list Z)) (x y : Z) : result Z :=
  of_option IndexError (b !! Z.to_nat x ≫= λ row, row !! Z.to_nat y).

(** [self.__board[x][y] = v] *)
Definition set_cell (b : list (list Z)) (x y v : Z) : result (list (list Z)) :=
  row ← of_option IndexError (b !! Z.to_nat x);
  _ ← assert IndexError (Z.to_nat y <? length row)%nat;
  Ok (<[Z.to_nat x := <[Z.to_nat y := v]> row]> b).

(** The [while] loop of [count_stones_in_direction], entered at the
    position [(x, y)] already advanced once. *)
Fixpoint count_loop (fuel : nat) (st : GobangState) (x y dx dy ret : Z) : result Z :=
  if is_on_board st x y then
    c ← cell (board st) x y;
    if c =? pjm st then
      match fuel with
      | O => Err RecursionError
      | S fuel' => count_loop fuel' st (x + dx) (y + dy) dx dy (ret + 1)
      end
    else Ok ret
  else Ok ret.

Definition count_stones_in_direction (st : GobangState) (x y dx dy : Z) : result Z :=
  count_loop (Z.to_nat (size st)) st (x + dx) (y + dy) dx dy 0.

Fixpoint check_directions (st : GobangState) (x y : Z) (dirs : list (Z * Z)) : result bool :=
  match dirs with
  | [] => Ok false
  | (dx, dy) :: dirs' =>
      a ← count_stones_in_direction st x y dx dy;
      b ← count_stones_in_direction st x y (- dx) (- dy);
      if inrow st <=? a + b + 1 then Ok true else check_directions st x y dirs'
  end.

Definition check_termination (st : GobangState) (x y : Z) : result bool :=
  c ← cell (board st) x y;
  _ ← assert AssertionError_game (c =? pjm st);
  check_directions st x y [(0, 1); (1, 1); (1, 0); (1, -1)].

Definition do_move (st : GobangState) (move : Z * Z) : result GobangState :=
  let '(x, y) := move in
  _ ← assert AssertionError_game (is_on_board st x y);
  c ← cell (board st) x y;
  _ ← assert AssertionError_game (c =? 0);
  let p := 3 - pjm st in
  b ← set_cell (board st) x y p;
  let st1 := {| pjm := p; board := b; size := size st; inrow := inrow st;
                terminated := terminated st |} in
  t ← check_termination st1 x y;
  Ok {| pjm := p; board := b; size := size st; inrow := inrow st; terminated := t |}.

(** [self.__positions[s]] *)
Definition positions (s : Z) : list (Z * Z) :=
  x ← range 0 s; y ← range 0 s; [(x, y)].

(** [[(x,y) for (x, y) in ps if self.__board[x][y] == 0]] *)
Fixpoint empty_cells (b : list (list Z)) (ps : list (Z * Z)) : result (list (Z * Z)) :=
  match ps with
  | [] => Ok []
  | (x, y) :: ps' =>
      c ← cell b x y;
      rest ← empty_cells b ps';
      Ok (if c =? 0 then (x, y) :: rest else rest)
  end.

Definition get_moves (st : GobangState) : result (list (Z * Z)) :=
  if negb (terminated st) then empty_cells (board st) (positions (size st))
  else Ok [].

Definition get_result (st : GobangState) (playerjm : Z) : result Q :=
  if terminated st then Ok (if pjm st =? playerjm then 1%Q else 0%Q)
  else Ok (1 # 2)%Q.

End Gobang.

(** ** Dictionaries and helpers of the Python runtime *)

Section Dict.
Context {K V : Type} `{EqDecision K}.

(** [d.get(k)] *)
Fixpoint dict_get (d : list (K * V)) (k : K) : option V :=
  match d with
  | [] => None
  | (k', v) :: d' => if decide (k = k') then Some v else dict_get d' k
  end.

(** [k in d] *)
Definition dict_mem (d : list (K * V)) (k : K) : bool :=
  bool_decide (is_Some (dict_get d k)).

(** [d[k] += v] on a [defaultdict] whose default is [z]. *)
Fixpoint dict_add (plus : V → V → V) (z : V) (d : list (K * V)) (k : K) (v : V)
    : list (K * V) :=
  match d with
  | [] => [(k, plus z v)]
  | (k', v') :: d' =>
      if decide (k = k') then (k', plus v' v) :: d'
      else (k', v') :: dict_add plus z d' k v
  end.
End Dict.

(** [l.remove(x)]: the first occurrence goes. *)
Fixpoint remove_first {A} `{EqDecision A} (x : A) (l : list A) : list A :=
  match l with
  | [] => []
  | y :: l' => if decide (x = y) then l' else y :: remove_first x l'
  end.

(** [k > best] on floats. *)
Definition Qgt_bool (k best : Q) : bool := negb (Qle_bool k best).

(** [max(l, key=key)]: the first item whose key no later item exceeds. *)
Section PyMax.
Context {A : Type} (key : A → result Q).

Fixpoint max_from (best : A) (kbest : Q) (l : list A) : result A :=
  match l with
  | [] => Ok best
  | y :: l' =>
      ky ← key y;
      if Qgt_bool ky kbest then max_from y ky l' else max_from best kbest l'
  end.

Definition py_max (l : list A) : result A :=
  match l with
  | [] => Err ValueError
  | x :: l' => kx ← key x; max_from x kx l'
  end.
End PyMax.

(** ** The search engine ([TreeNode], [SearchTree], [SearchNode], [uct]) *)

(** Addresses of the heap. *)
Abbreviation addr := nat (only parsing).

Inductive SearchTreeClass : Set :=
  | CommonSearchTree      (* [common.SearchTree] *)
  | NoCleanSearchTree.    (* the subclasses whose [clean_sub_tree] is [pass] *)

Section Engine.
Context `{G : Game}.

(** [explore pv cv] stands for [math.sqrt(2 * math.log(pv) / cv)]. *)
Variable explore : Q → Q → Q.

Record TreeNode : Type := mkTreeNode {
  wins : Q;
  visits : Q;
  state : State;
  child_nodes : list (Move * addr);
  untried_moves : list Move;
}.

(** [TreeNode.__init__]; states are values, so [state.clone()] is [st]. *)
Definition TreeNode_init (st : State) : TreeNode :=
  {| wins := 0; visits := 1; state := st; child_nodes := [];
     untried_moves := get_moves st |}.

Definition value (n : TreeNode) : Q := wins n / visits n.

Definition ucb (self parent : TreeNode) (constant : Q) : Q :=
  value self + constant * explore (visits parent) (visits self).

Definition update (n : TreeNode) (r : Q) : TreeNode :=
  {| wins := wins n + r; visits := visits n + 1; state := state n;
     child_nodes := child_nodes n; untried_moves := untried_moves n |}.

Definition add_child (n : TreeNode) (fm : Move) (c : addr) : TreeNode :=
  {| wins := wins n; visits := visits n; state := state n;
     child_nodes :=
       if dict_mem (child_nodes n) fm then child_nodes n
       else child_nodes n ++ [(fm, c)];
     untried_moves :=
       if bool_decide (fm ∈ untried_moves n) then remove_first fm (untried_moves n)
       else untried_moves n |}.

(** The objects of the process and one [SearchTree] over them. *)
Record Store : Type := mkStore {
  heap : list TreeNode;
  pool : list (Key * addr);
  tree_class : SearchTreeClass;
}.

(** [SearchTree()] *)
Definition SearchTree_init (c : SearchTreeClass) : Store :=
  {| heap := []; pool := []; tree_class := c |}.

Definition deref (h : list TreeNode) (a : addr) : result TreeNode :=
  of_option DanglingReference (h !! a).

Definition get_node (s : Store) (st : State) : Store * addr :=
  let key := repr st in
  match dict_get (pool s) key with
  | Some a => (s, a)
  | None =>
      let a := length (heap s) in
      ({| heap := heap s ++ [TreeNode_init st];
          pool := pool s ++ [(key, a)];
          tree_class := tree_class s |}, a)
  end.

(** [len(self.__pool)] *)
Definition size (s : Store) : nat := length (pool s).

(** [ignore_set.add(n)] *)
Definition set_add (a : addr) (s : list addr) : list addr :=
  if bool_decide (a ∈ s) then s else a :: s.

(** [for c in self.child_nodes().values(): c.traverse(fun)] *)
Fixpoint traverse_children (visit : addr → list addr → result (list addr))
    (cs : list (Move * addr)) (acc : list addr) : result (list addr) :=
  match cs with
  | [] => Ok acc
  | (_, c) :: cs' => acc1 ← visit c acc; traverse_children visit cs' acc1
  end.

(** [TreeNode.traverse] with [fun = ignore_set.add]; the fuel bounds the
    depth of the recursion. *)
Fixpoint traverse (fuel : nat) (h : list TreeNode) (a : addr) (acc : list addr)
    : result (list addr) :=
  match fuel with
  | O => Err RecursionError
  | S fuel' =>
      n ← deref h a;
      acc' ← traverse_children (traverse fuel' h) (child_nodes n) acc;
      Ok (set_add a acc')
  end.

(** [common.SearchTree.clean_sub_tree] *)
Definition common_clean_sub_tree (fuel : nat) (s : Store) (root_node ignored_node : addr)
    : result Store :=
  ignore_set ← traverse fuel (heap s) ignored_node [];
  Ok {| heap := heap s;
        pool := filter (λ kn, kn.2 ∈ ignore_set) (pool s);
        tree_class := tree_class s |}.

(** [tree.clean_sub_tree(...)], dispatched on the class of the tree. *)
Definition clean_sub_tree (fuel : nat) (s : Store) (root_node ignored_node : addr)
    : result Store :=
  match tree_class s with
  | CommonSearchTree => common_clean_sub_tree fuel s root_node ignored_node
  | NoCleanSearchTree => Ok s
  end.

#[local] Unset Elimination Schemes.
Inductive SearchNode : Type :=
  mkSearchNode (move : option Move) (parent_node : option SearchNode)
               (depth : nat) (tree_node : addr).
#[local] Set Elimination Schemes.

Definition move (n : SearchNode) : option Move :=
  let 'mkSearchNode m _ _ _ := n in m.
Definition parent_node (n : SearchNode) : option SearchNode :=
  let 'mkSearchNode _ p _ _ := n in p.
Definition depth (n : SearchNode) : nat :=
  let 'mkSearchNode _ _ d _ := n in d.
Definition tree_node (n : SearchNode) : addr :=
  let 'mkSearchNode _ _ _ a := n in a.

(** [SearchNode(move, parent, tree_node)] *)
Definition SearchNode_init (m : option Move) (parent : option SearchNode) (a : addr)
    : SearchNode :=
  mkSearchNode m parent (match parent with Some p => S (depth p) | None => O end) a.

Definition uct_select_child (h : list TreeNode) (self : SearchNode) (constant : Q)
    : result SearchNode :=
  p ← deref h (tree_node self);
  _ ← assert AssertionError_children (bool_decide (child_nodes p ≠ []));
  mc ← py_max (λ mn : Move * addr, n ← deref h mn.2; Ok (ucb n p constant))
              (child_nodes p);
  Ok (SearchNode_init (Some mc.1) (Some self) mc.2).

(** [SearchNode.add_child] *)
Definition SearchNode_add_child (h : list TreeNode) (self : SearchNode) (m : Move)
    (c : addr) : result (list TreeNode * SearchNode) :=
  p ← deref h (tree_node self);
  Ok (<[tree_node self := add_child p m c]> h, SearchNode_init (Some m) (Some self) c).

(** [SearchNode.update] *)
Definition SearchNode_update (h : list TreeNode) (self : SearchNode) (r : Q)
    : result (list TreeNode) :=
  n ← deref h (tree_node self);
  Ok (<[tree_node self := update n r]> h).

(** The Select loop of [uct]. *)
Fixpoint select (fuel : nat) (h : list TreeNode) (node : SearchNode) : result SearchNode :=
  n ← deref h (tree_node node);
  if bool_decide (untried_moves n = []) && bool_decide (child_nodes n ≠ []) then
    match fuel with
    | O => Err RecursionError
    | S fuel' => node' ← uct_select_child h node 1; select fuel' h node'
    end
  else Ok node.

(** The Rollout loop of [uct]. *)
Fixpoint rollout (fuel : nat) (rng : Rng) (st : State) : result (State * Rng) :=
  match get_moves st with
  | [] => Ok (st, rng)
  | moves =>
      match fuel with
      | O => Err RecursionError
      | S fuel' =>
          '(m, rng') ← choice rng moves;
          st' ← do_move st m;
          rollout fuel' rng' st'
      end
  end.

(** The Backpropagate loop of [uct], from [node] up the parent links. *)
Fixpoint backpropagate (h : list TreeNode) (node : SearchNode) (st : State)
    : result (list TreeNode) :=
  let 'mkSearchNode _ parent _ a := node in
  n ← deref h a;
  r ← get_result st (player_just_moved (state n));
  let h' := <[a := update n r]> h in
  match parent with
  | None => Ok h'
  | Some p => backpropagate h' p st
  end.

Definition set_heap (s : Store) (h : list TreeNode) : Store :=
  {| heap := h; pool := pool s; tree_class := tree_class s |}.

(** Select and Expand: the path to the expanded node, the state reached. *)
Definition select_expand (fuel : nat) (root_node : SearchNode) (s : Store) (rng : Rng)
    : result (Store * SearchNode * State * Rng) :=
  node ← select fuel (heap s) root_node;
  n ← deref (heap s) (tree_node node);
  let st := state n in
  match untried_moves n with
  | [] => Ok (s, node, st, rng)
  | untried =>
      '(m, rng') ← choice rng untried;
      st' ← do_move st m;
      let '(s1, c) := get_node s st' in
      '(h2, node') ← SearchNode_add_child (heap s1) node m c;
      Ok (set_heap s1 h2, node', st', rng')
  end.

(** One pass of the body of the [for] loop of [common.uct]. *)
Definition iteration (fuel : nat) (root_node : SearchNode) (s : Store) (rng : Rng)
    : result (Store * Rng) :=
  '(s1, node, st, rng1) ← select_expand fuel root_node s rng;
  '(st', rng2) ← rollout fuel rng1 st;
  h ← backpropagate (heap s1) node st';
  Ok (set_heap s1 h, rng2).

(** [for i in range(iter_max)] *)
Fixpoint iterations (fuel : nat) (n : nat) (root_node : SearchNode) (s : Store) (rng : Rng)
    : result (Store * Rng) :=
  match n with
  | O => Ok (s, rng)
  | S n' =>
      '(s', rng') ← iteration fuel root_node s rng;
      iterations fuel n' root_node s' rng'
  end.

(** The search of [common.uct] up to the end of the loop. *)
Definition uct_search (fuel : nat) (root_state : State) (iter_max : Z)
    (search_tree : option Store) (rng : Rng) : result (SearchNode * Store * Rng) :=
  let tree := default (SearchTree_init CommonSearchTree) search_tree in
  let '(s0, a) := get_node tree root_state in
  let root_node := SearchNode_init None None a in
  '(s, rng') ← iterations fuel (Z.to_nat iter_max) root_node s0 rng;
  Ok (root_node, s, rng').

(** [common.uct]; what it prints is left out. *)
Definition uct (fuel : nat) (root_state : State) (iter_max : Z)
    (search_tree : option Store) (rng : Rng) : result (option Move * Store * Rng) :=
  let should_clean := bool_decide (is_Some search_tree) in
  '(root_node, s, rng') ← uct_search fuel root_state iter_max search_tree rng;
  selected_node ← uct_select_child (heap s) root_node 0;
  s' ← (if should_clean
        then clean_sub_tree fuel s (tree_node root_node) (tree_node selected_node)
        else Ok s);
  Ok (move selected_node, s', rng').


(** *** Leaf parallelisation ([uct-leaf-parallelization.py]) *)

(** [SimulationThread(state)] started and joined: the state its [run]
    leaves.  Thread [i] draws from its own stream. *)
Fixpoint run_threads (fuel : nat) (count : nat) (st : State) (trng : nat → Rng)
    : result (list State) :=
  match count with
  | O => Ok []
  | S count' =>
      '(t, _) ← rollout fuel (trng O) st;
      ts ← run_threads fuel count' st (λ i, trng (S i));
      Ok (t :: ts)
  end.

(** [[t.get_result(playerjm) for t in threads]] *)
Fixpoint thread_results (threads : list State) (playerjm : Z) : result (list Q) :=
  match threads with
  | [] => Ok []
  | t :: ts =>
      r ← get_result t playerjm;
      rs ← thread_results ts playerjm;
      Ok (r :: rs)
  end.

(** [sum(l)] *)
Definition sum (l : list Q) : Q := fold_left Qplus l 0%Q.

(** [sum([...]) / common.PARALLEL_COUNT] *)
Definition leaf_result (threads : list State) (parallel_count : Z) (playerjm : Z)
    : result Q :=
  rs ← thread_results threads playerjm;
  _ ← assert ZeroDivisionError (negb (parallel_count =? 0));
  Ok (sum rs / inject_Z parallel_count)%Q.

Fixpoint leaf_backpropagate (h : list TreeNode) (node : SearchNode)
    (threads : list State) (parallel_count : Z) : result (list TreeNode) :=
  let 'mkSearchNode _ parent _ a := node in
  n ← deref h a;
  r ← leaf_result threads parallel_count (player_just_moved (state n));
  let h' := <[a := update n r]> h in
  match parent with
  | None => Ok h'
  | Some p => leaf_backpropagate h' p threads parallel_count
  end.

Definition leaf_iteration (fuel : nat) (parallel_count : Z) (root_node : SearchNode)
    (s : Store) (rng : Rng) (trng : nat → Rng) : result (Store * Rng) :=
  '(s1, node, st, rng1) ← select_expand fuel root_node s rng;
  threads ← run_threads fuel (Z.to_nat parallel_count) st trng;
  h ← leaf_backpropagate (heap s1) node threads parallel_count;
  Ok (set_heap s1 h, rng1).

Fixpoint leaf_iterations (fuel : nat) (parallel_count : Z) (n : nat)
    (root_node : SearchNode) (s : Store) (rng : Rng) (trngs : nat → nat → Rng)
    : result (Store * Rng) :=
  match n with
  | O => Ok (s, rng)
  | S n' =>
      '(s', rng') ← leaf_iteration fuel parallel_count root_node s rng (trngs O);
      leaf_iterations fuel parallel_count n' root_node s' rng' (λ i, trngs (S i))
  end.

Definition leaf_uct (fuel : nat) (parallel_count : Z) (root_state : State)
    (iter_max : Z) (search_tree : Store) (rng : Rng) (trngs : nat → nat → Rng)
    : result (option Move * Store * Rng) :=
  let '(s0, a) := get_node search_tree root_state in
  let root_node := SearchNode_init None None a in
  '(s, rng') ← leaf_iterations fuel parallel_count (Z.to_nat iter_max) root_node s0
                 rng trngs;
  selected_node ← uct_select_child (heap s) root_node 0;
  s' ← clean_sub_tree fuel s (tree_node root_node) (tree_node selected_node);
  Ok (move selected_node, s', rng').

(** *** Root parallelisation ([uct-root-parallelization.py]) *)

(** [d[k] = v] *)
Fixpoint dict_set {V} (d : list (Move * V)) (k : Move) (v : V) : list (Move * V) :=
  match d with
  | [] => [(k, v)]
  | (k', v') :: d' =>
      if decide (k = k') then (k', v) :: d' else (k', v') :: dict_set d' k v
  end.

(** [dict(pairs)] *)
Definition dict_of_list {V} (pairs : list (Move * V)) : list (Move * V) :=
  fold_left (λ d kv, dict_set d kv.1 kv.2) pairs [].

(** [[(m, c.value()) for (m, c) in items]] *)
Fixpoint child_values (h : list TreeNode) (items : list (Move * addr))
    : result (list (Move * Q)) :=
  match items with
  | [] => Ok []
  | (m, c) :: items' =>
      n ← deref h c;
      vs ← child_values h items';
      Ok ((m, value n) :: vs)
  end.

(** [SearchWorker.run]: what the worker puts on its queue. *)
Definition SearchWorker_run (fuel : nat) (root_state : State) (iter_max : Z) (rng : Rng)
    : result (list (Move * Q) * nat) :=
  let tree := SearchTree_init NoCleanSearchTree in
  '(_, s, _) ← uct fuel root_state iter_max (Some tree) rng;
  let '(s', a) := get_node s root_state in
  root ← deref (heap s') a;
  vs ← child_values (heap s') (child_nodes root);
  Ok (dict_of_list vs, size s').

(** [[w.get_result() for w in workers]], worker [i] seeded with [rngs i]. *)
Fixpoint run_workers (fuel : nat) (count : nat) (root_state : State) (iter_max : Z)
    (rngs : nat → Rng) : result (list (list (Move * Q) * nat)) :=
  match count with
  | O => Ok []
  | S count' =>
      r ← SearchWorker_run fuel root_state iter_max (rngs O);
      rs ← run_workers fuel count' root_state iter_max (λ i, rngs (S i));
      Ok (r :: rs)
  end.

(** The two nested [for] loops filling [values]. *)
Definition add_values (values : list (Move * Q)) (r : list (Move * Q))
    : list (Move * Q) :=
  fold_left (λ d mv, dict_add Qplus 0%Q d mv.1 mv.2) r values.

Definition sum_values (results : list (list (Move * Q) * nat)) : list (Move * Q) :=
  fold_left (λ d r, add_values d r.1) results [].

Definition root_uct (fuel : nat) (parallel_count : Z) (root_state : State)
    (iter_max : Z) (rngs : nat → Rng) : result Move :=
  results ← run_workers fuel (Z.to_nat parallel_count) root_state
              (iter_max `div` parallel_count) rngs;
  let values := sum_values results in
  kv ← py_max (λ kv : Move * Q, Ok kv.2) values;
  Ok kv.1.

(** *** The pickling search tree ([uct-pickling.py]) *)

(** [except pickle.PickleError]: the class and its subclasses. *)
Definition is_PickleError (e : error) : bool :=
  match e with
  | PickleError | UnpicklingError => true
  | _ => false
  end.

(** [SearchTree.__init__] of the pickling variant.  [file] is [None] when
    [os.path.exists(self.file_name)] is false; otherwise it holds what
    opening the file and [pickle.load] give: the objects and the pool
    read, or the exception raised. *)
Definition Pickling_SearchTree_init
    (file : option (result (list TreeNode * list (Key * addr)))) : result Store :=
  match file with
  | Some (Ok (h, p)) => Ok {| heap := h; pool := p; tree_class := NoCleanSearchTree |}
  | Some (Err e) =>
      if is_PickleError e then Ok (SearchTree_init NoCleanSearchTree) else Err e
  | None => Ok (SearchTree_init NoCleanSearchTree)
  end.

End Engine.

(** ** A game with repeated positions

    Two positions; a player either flips to the other position (move [0])
    or stops the game (move [1]), and the player who stops wins.  Flipping
    twice gives back the position with the same player to move, so the
    positions repeat. *)

Module Shuttle.

Record ShuttleState : Set := mkShuttle {
  pjm : Z;
  pos : bool;
  over : bool;
}.

Definition init : ShuttleState := {| pjm := 2; pos := false; over := false |}.

Definition do_move (st : ShuttleState) (move : Z) : result ShuttleState :=
  _ ← assert AssertionError_game (negb (over st) && ((move =? 0) || (move =? 1)));
  Ok (if move =? 0
      then {| pjm := 3 - pjm st; pos := negb (pos st); over := false |}
      else {| pjm := 3 - pjm st; pos := pos st; over := true |}).

Definition get_moves (st : ShuttleState) : list Z :=
  if over st then [] else [0; 1].

Definition get_result (st : ShuttleState) (playerjm : Z) : result Q :=
  _ ← assert AssertionError_game (over st);
  Ok (if pjm st =? playerjm then 1%Q else 0%Q).

Definition repr (st : ShuttleState) : string :=
  (if pos st then "B" else "A") +:+ (if over st then "!" else "") +:+
  " JustPlayed:" +:+ pretty (pjm st).

Global Instance game : Game :=
  Build_Game ShuttleState Z _ string _ pjm do_move get_moves get_result repr.

End Shuttle.

(** ** Specification vocabulary *)

Section Spec.
Context `{G : Game}.
Variable explore : Q → Q → Q.

(** The keys of a dictionary. *)
Definition keys {V} (d : list (Move * V)) : list Move := d.*1.

(** The legal moves of a node split into untried moves and children. *)
Definition partitioned (n : TreeNode) : Prop :=
  (∀ m, m ∈ untried_moves n → m ∉ keys (child_nodes n)) ∧
  (∀ m, m ∈ get_moves (state n) ↔ m ∈ untried_moves n ∨ m ∈ keys (child_nodes n)).

(** The statistics of a node. *)
Definition stats_bounded (n : TreeNode) : Prop :=
  (1 <= visits n)%Q ∧ (0 <= wins n)%Q ∧ (wins n <= visits n)%Q ∧
  (0 <= value n)%Q ∧ (value n <= 1)%Q.

(** The states of the store between two iterations of a sequential
    search: a fresh tree, the root looked up at the start of [uct], one
    pass of the loop, the final pruning. *)
Inductive Quiescent : Store → Prop :=
  | Q_init c :
      Quiescent (SearchTree_init c)
  | Q_get_node s st :
      Quiescent s → Quiescent (get_node s st).1
  | Q_iteration fuel s root_state a rng s' rng' :
      Quiescent s →
      dict_get (pool s) (repr root_state) = Some a →
      iteration explore fuel (SearchNode_init None None a) s rng = Ok (s', rng') →
      Quiescent s'
  | Q_clean fuel s root ignored s' :
      Quiescent s →
      clean_sub_tree fuel s root ignored = Ok s' →
      Quiescent s'.

(** Every node of the tree satisfies [P]. *)
Definition tree_forall (P : TreeNode → Prop) (s : Store) : Prop :=
  ∀ k a, (k, a) ∈ pool s → ∃ n, heap s !! a = Some n ∧ P n.

(** Child links. *)
Definition child_of (h : list TreeNode) (a c : addr) : Prop :=
  ∃ n m, h !! a = Some n ∧ (m, c) ∈ child_nodes n.

Definition reachable (h : list TreeNode) : addr → addr → Prop := rtc (child_of h).

Definition on_cycle (h : list TreeNode) (a : addr) : Prop := tc (child_of h) a a.

Definition acyclic (h : list TreeNode) : Prop := ∀ a, ¬ on_cycle h a.

(** No reference leaves the heap: true of any heap of Python objects. *)
Definition closed (h : list TreeNode) : Prop :=
  ∀ a c, child_of h a c → (c < length h)%nat.

(** A chain of child links. *)
Fixpoint is_path (h : list TreeNode) (p : list addr) : Prop :=
  match p with
  | a :: (c :: _) as p' => child_of h a c ∧ is_path h p'
  | _ => True
  end.

(** The tree nodes on the parent chain of a search node, leaf first. *)
Fixpoint path (node : SearchNode) : list addr :=
  let 'mkSearchNode _ parent _ a := node in
  a :: match parent with Some p => path p | None => [] end.

(** The child of the node at [a] a move leads to, and its wins over its
    visits; a move with no child counts 0. *)
Definition child_value (s : Store) (a : addr) (m : Move) : Q :=
  match heap s !! a with
  | Some root =>
      match dict_get (child_nodes root) m with
      | Some c => match heap s !! c with Some n => wins n / visits n | None => 0 end
      | None => 0
      end
  | None => 0
  end.

(** [S(m)]: the wins over visits the workers' trees give to the child of
    the root for the move, summed. *)
Definition summed_value (trees : list (Store * addr)) (m : Move) : Q :=
  foldr (λ t acc, child_value t.1 t.2 m + acc)%Q 0%Q trees.

(** The arithmetic mean. *)
Definition mean (rs : list Q) : Q := (foldr Qplus 0 rs / inject_Z (Z.of_nat (length rs)))%Q.

(** The contract a game keeps on the states a play can reach. *)
Record Contract (valid : State → Prop) (rank : State → nat) : Prop := {
  moves_NoDup : ∀ st, NoDup (get_moves st);
  move_defined : ∀ st m,
    valid st → m ∈ get_moves st → ∃ st', do_move st m = Ok st';
  move_valid : ∀ st m st',
    valid st → m ∈ get_moves st → do_move st m = Ok st' → valid st';
  move_rank : ∀ st m st',
    valid st → m ∈ get_moves st → do_move st m = Ok st' → (rank st' < rank st)%nat;
  result_defined : ∀ st p,
    valid st → get_moves st = [] → ∃ r, get_result st p = Ok r;
  repr_inj : ∀ st st', valid st → valid st' → repr st = repr st' → st = st';
}.

(** A node of a tree over a game that keeps its contract: its state can
    be reached in a play, its moves are split, and every child holds the
    state its move leads to. *)
Definition node_ok (valid : State → Prop) (h : list TreeNode) (n : TreeNode) : Prop :=
  valid (state n) ∧ NoDup (untried_moves n) ∧ partitioned n ∧
  ∀ m c, (m, c) ∈ child_nodes n →
    ∃ nc, h !! c = Some nc ∧ do_move (state n) m = Ok (state nc).

Definition heap_ok (valid : State → Prop) (h : list TreeNode) : Prop :=
  Forall (node_ok valid h) h.

(** The pool finds each node under the key of its state. *)
Definition pool_ok (h : list TreeNode) (p : list (Key * addr)) : Prop :=
  ∀ k a, (k, a) ∈ p → ∃ n, h !! a = Some n ∧ repr (state n) = k.

(** Later heaps keep the nodes, their states and that they have children. *)
Definition heap_le (h h' : list TreeNode) : Prop :=
  ∀ a n, h !! a = Some n →
    ∃ n', h' !! a = Some n' ∧ state n' = state n ∧
          (child_nodes n ≠ [] → child_nodes n' ≠ []).

(** The tree nodes of a search node and of its ancestors exist. *)
Definition path_valid (h : list TreeNode) (node : SearchNode) : Prop :=
  ∀ a, a ∈ path node → is_Some (h !! a).

(** The pool refers into the heap. *)
Definition pool_valid (s : Store) : Prop :=
  ∀ k a, (k, a) ∈ pool s → (a < length (heap s))%nat.

(** The store of a search whose root has no move: the root alone. *)
Definition barren (root_state : State) (s : Store) : Prop :=
  ∃ nd, heap s = [nd] ∧ state nd = root_state ∧
        child_nodes nd = [] ∧ untried_moves nd = [].

(** [d[k]] on a [defaultdict(float)], read without inserting. *)
Definition dict_get0 {K} `{EqDecision K} (d : list (K * Q)) (k : K) : Q :=
  default 0%Q (dict_get d k).

(** How often an address occurs on a path, as a float. *)
Definition occurrences (a : addr) (p : list addr) : Q :=
  inject_Z (Z.of_nat (length (filter (λ x, x = a) p))).

(** Two nodes that differ in their statistics at most. *)
Definition same_position (n' n : TreeNode) : Prop :=
  state n' = state n ∧ child_nodes n' = child_nodes n ∧
  untried_moves n' = untried_moves n.

(** Every child link leads to a later address inside the heap. *)
Definition links_forward (h : list TreeNode) : bool :=
  forallb (λ an : nat * TreeNode,
             forallb (λ mc : Move * addr,
                        (an.1 <? mc.2)%nat && (mc.2 <? length h)%nat)
                     (child_nodes an.2))
          (imap pair h).

End Spec.

(** ** Nim keeps the contract

    The states of a play have no negative heap, and a move shrinks the
    heap. *)

Definition Nim_valid (st : Nim.NimState) : Prop := 0 ≤ Nim.chips st.

Definition Nim_rank (st : Nim.NimState) : nat := Z.to_nat (Nim.chips st).

(** A string without a blank. *)
Fixpoint no_space (s : string) : Prop :=
  match s with
  | EmptyString => True
  | String c s' => c ≠ " "%char ∧ no_space s'
  end.

(** ** Runs used as examples *)

(** A rational stand-in for the exploration term: like
    [sqrt(2 * log(pv) / cv)] it is 0 at [pv = 1], grows with [pv] and
    falls with [cv]. *)
Definition rough_explore (pv cv : Q) : Q := ((pv - 1) / cv)%Q.

Module NimRun.

Definition rng : Rng := λ i, (i * 7 + 3)%nat.

(** The tree after a search of six iterations on a heap of four chips. *)
Definition searched : result (@SearchNode Nim.game * @Store Nim.game * Rng) :=
  uct_search (G:=Nim.game) rough_explore 4 (Nim.init 4) 6 None rng.

Definition store : @Store Nim.game :=
  Eval vm_compute in
    match searched with
    | Ok (_, s, _) => s
    | Err _ => SearchTree_init CommonSearchTree
    end.

End NimRun.

Module ShuttleRun.

Definition rng : Rng := λ i, if (i `mod` 3 =? 2)%nat then 1%nat else 0%nat.

(** The tree after three iterations.  The first expands the flip at the
    root, the second the stop; in the third the two children of the root
    tie, the flip (the first of the keys 0 and 1) is selected, and the
    flip expanded below it leads back to the root. *)
Definition searched : result (@SearchNode Shuttle.game * @Store Shuttle.game * Rng) :=
  uct_search (G:=Shuttle.game) rough_explore 2 Shuttle.init 3 None rng.

Definition store : @Store Shuttle.game :=
  Eval vm_compute in
    match searched with
    | Ok (_, s, _) => s
    | Err _ => SearchTree_init CommonSearchTree
    end.

End ShuttleRun.

Module ParallelRun.

Definition rng : Rng := λ i, (i * 5 + 1)%nat.

(** Stream [i] of the thread or worker [w]. *)
Definition rngs : nat → Rng := λ w i, (w * 3 + i * 7 + 2)%nat.

(** A tree holding the root of a heap of four chips. *)
Definition start : @Store Nim.game :=
  (get_node (G:=Nim.game) (SearchTree_init CommonSearchTree) (Nim.init 4)).1.

Definition root_node : @SearchNode Nim.game := SearchNode_init None None 0.

End ParallelRun.

Module KeptRun.

(** The tree of the pickling variant after a search of six iterations on
    a heap of four chips. *)
Definition store : @Store Nim.game :=
  Eval vm_compute in
    match uct_search (G:=Nim.game) rough_explore 4 (Nim.init 4) 6
            (Some (SearchTree_init NoCleanSearchTree)) NimRun.rng with
    | Ok (_, s, _) => s
    | Err _ => SearchTree_init NoCleanSearchTree
    end.

End KeptRun.

(** ** The play loop ([uct_play_game]) *)

Section PlayGame.
Context `{G : Game}.
Variable explore : Q → Q → Q.

(** The [while state.get_moves()] loop of [uct_play_game], from [state];
    [plies] bounds the number of passes.  The moves it prints as best
    moves are collected; the boards it prints are left out.  A best move
    that is [None] does not occur; [do_move] would reject it. *)
Fixpoint play_loop (plies fuel : nat) (state : State) (iter_max : Z)
    (search_tree : option Store) (rng : Rng)
    : result (State * list Move * option Store * Rng) :=
  match get_moves state with
  | [] => Ok (state, [], search_tree, rng)
  | _ =>
      match plies with
      | O => Err RecursionError
      | S plies' =>
          '(best, s, rng1) ← uct explore fuel state iter_max search_tree rng;
          m ← of_option AssertionError_game best;
          state' ← do_move state m;
          '(final, ms, tree, rng2) ←
            play_loop plies' fuel state' iter_max
              (match search_tree with Some _ => Some s | None => None end) rng1;
          Ok (final, m :: ms, tree, rng2)
      end
  end.

(** The end of [uct_play_game]: the player it announces as the winner
    of the final state, [None] for "Nobody wins!". *)
Definition announce (final : State) : result (option Z) :=
  r ← get_result final (player_just_moved final);
  if Qeq_bool r 1 then Ok (Some (player_just_moved final))
  else
    r' ← get_result final (player_just_moved final);
    if Qeq_bool r' 0 then Ok (Some (3 - player_just_moved final)) else Ok None.

(** [uct_play_game(uct, search_tree)] started from [state] with
    [ITER_MAX = iter_max]. *)
Definition uct_play_game (fuel : nat) (state : State) (iter_max : Z)
    (search_tree : option Store) (rng : Rng)
    : result (State * list Move * option Store * Rng * option Z) :=
  '(final, ms, tree, rng') ← play_loop fuel fuel state iter_max search_tree rng;
  winner ← announce final;
  Ok (final, ms, tree, rng', winner).

End PlayGame.

(** ** More specification vocabulary *)

Section Growth.
Context `{G : Game}.

(** A node after more search: the same state, no fewer visits, children
    only appended, untried moves only removed. *)
Definition node_le (n n' : TreeNode) : Prop :=
  state n' = state n ∧ (visits n <= visits n')%Q ∧
  child_nodes n `prefix_of` child_nodes n' ∧
  untried_moves n' `sublist_of` untried_moves n.

(** A heap after more search. *)
Definition heap_grows (h h' : list TreeNode) : Prop :=
  ∀ a n, h !! a = Some n → ∃ n', h' !! a = Some n' ∧ node_le n n'.

(** What the two invariants of the tree say of one node. *)
Definition node_sound (n : TreeNode) : Prop :=
  stats_bounded n ∧ NoDup (untried_moves n) ∧ partitioned n.

(** A tree in order, for a game that keeps its contract. *)
Definition tree_ok (valid : State → Prop) (s : Store) : Prop :=
  heap_ok valid (heap s) ∧ pool_ok (heap s) (pool s).

(** [final] is reached from [st] by playing [ms], each move legal where
    it is played. *)
Fixpoint plays (st : State) (ms : list Move) (final : State) : Prop :=
  match ms with
  | [] => final = st
  | m :: ms' => m ∈ get_moves st ∧ ∃ st', do_move st m = Ok st' ∧ plays st' ms' final
  end.

End Growth.

(** A Gobang state as the constructor and [do_move] build it: a square
    board of the size the state records. *)
Definition Gobang_wf (st : Gobang.GobangState) : Prop :=
  0 ≤ Gobang.size st ∧
  length (Gobang.board st) = Z.to_nat (Gobang.size st) ∧
  Forall (λ row, length row = Z.to_nat (Gobang.size st)) (Gobang.board st).

(** * Properties *)

(** ** The error monad *)

Lemma bind_Ok {A B} (f : A → result B) (m : result A) (b : B) :
  m ≫= f = Ok b ↔ ∃ a, m = Ok a ∧ f a = Ok b.
Proof.
  destruct m as [a|e]; simpl.
  - split; [eauto | by intros (a' & [= ->] & ?)].
  - split; [done | by intros (? & ? & ?)].
Qed.

Lemma assert_Ok e b u : assert e b = Ok u ↔ b = true.
Proof. destruct b, u; simpl; split; congruence. Qed.

Lemma of_option_Ok {A} e (o : option A) a : of_option e o = Ok a ↔ o = Some a.
Proof. destruct o; simpl; split; congruence. Qed.

Lemma bind_Err {A B} (f : A → result B) (m : result A) (e : error) :
  m = Err e → m ≫= f = Err e.
Proof. by intros ->. Qed.

(** Splits a hypothesis [m ≫= f = Ok b] into its two runs. *)
Tactic Notation "inv_bind" hyp(H) "as" simple_intropattern(x) ident(H1) :=
  apply bind_Ok in H as (x & H1 & H).

(** ** Contract violations of the games *)

Lemma Nim_get_moves_elem (st : Nim.NimState) (m : Z) :
  m ∈ Nim.get_moves st ↔ 1 ≤ m ∧ m < 4 ∧ m ≤ Nim.chips st.
Proof.
  unfold Nim.get_moves, range. rewrite elem_of_seqZ. lia.
Qed.

Lemma Nim_get_moves_nil (st : Nim.NimState) :
  Nim.get_moves st = [] ↔ Nim.chips st ≤ 0.
Proof.
  split.
  - intros Hnil. destruct (decide (Nim.chips st ≤ 0)) as [|Hpos]; [done|].
    assert (1 ∈ Nim.get_moves st) as Hin by (apply Nim_get_moves_elem; lia).
    rewrite Hnil in Hin. by apply elem_of_nil in Hin.
  - intros Hle. unfold Nim.get_moves, range.
    replace (Z.min 4 (Nim.chips st + 1) - 1) with (- Z.of_nat (Z.to_nat (- Z.min 4 (Nim.chips st + 1) + 1))) by lia.
    unfold seqZ. by replace (Z.to_nat (- _)) with O by lia.
Qed.

(** C9, as the spec has it, fails: Nim takes five chips off a heap of
    three without complaint, and Gobang reports a draw for the opening
    position. *)
Lemma illegal_move_absorbed :
  (5 ∉ Nim.get_moves (Nim.init 3)) ∧
  Nim.do_move (Nim.init 3) 5 = Ok {| Nim.pjm := 1; Nim.chips := -2 |} ∧
  Gobang.get_moves (Gobang.init 8 5) ≠ Ok [] ∧
  Gobang.get_result (Gobang.init 8 5) 1 = Ok (1 # 2)%Q.
Proof.
  split; [|split; [|split]].
  - rewrite Nim_get_moves_elem. simpl. lia.
  - reflexivity.
  - by vm_compute.
  - reflexivity.
Qed.

(** C9 (amended): the assertions the games do make.  Nim's [do_move]
    raises for a move below 1 and its [get_result] raises on every state
    that still has moves; Gobang's [do_move] raises for a square off the
    board or occupied; Gobang's [get_result] never raises: it is 0.5
    while the game is not terminated. *)
Theorem contract_violations_detected :
  (∀ st m, m < 1 → Nim.do_move st m = Err AssertionError_game) ∧
  (∀ st p, Nim.get_moves st ≠ [] → Nim.get_result st p = Err AssertionError_game) ∧
  (∀ st x y, Gobang.is_on_board st x y = false →
     Gobang.do_move st (x, y) = Err AssertionError_game) ∧
  (∀ st x y c, Gobang.is_on_board st x y = true →
     Gobang.cell (Gobang.board st) x y = Ok c → c ≠ 0 →
     Gobang.do_move st (x, y) = Err AssertionError_game) ∧
  (∀ st p, Gobang.terminated st = false → Gobang.get_result st p = Ok (1 # 2)%Q).
Proof.
  repeat split.
  - intros st m Hm. unfold Nim.do_move.
    by replace (1 <=? m) with false by lia.
  - intros st p Hmoves. unfold Nim.get_result.
    replace (Nim.chips st =? 0) with false; [done|].
    symmetry. apply Z.eqb_neq. intros Hz. apply Hmoves, Nim_get_moves_nil. lia.
  - intros st x y Hoff. unfold Gobang.do_move. by rewrite Hoff.
  - intros st x y c Hon Hcell Hc. unfold Gobang.do_move. rewrite Hon, Hcell. simpl.
    by replace (c =? 0) with false by lia.
  - intros st p Hterm. unfold Gobang.get_result. by rewrite Hterm.
Qed.

Lemma contract_violations_detected_witness :
  Nim.do_move (Nim.init 3) 0 = Err AssertionError_game ∧
  Nim.get_result (Nim.init 3) 1 = Err AssertionError_game ∧
  Gobang.do_move (Gobang.init 8 5) (8, 0) = Err AssertionError_game ∧
  Gobang.do_move (Gobang.mkGobang 1 [[1]] 1 5 false) (0, 0) = Err AssertionError_game ∧
  Gobang.get_result (Gobang.init 8 5) 1 = Ok (1 # 2)%Q.
Proof.
  destruct contract_violations_detected as (Hmove & Hresult & Hoff & Hocc & Hdraw).
  split; [|split; [|split; [|split]]].
  - apply Hmove. lia.
  - apply Hresult. by vm_compute.
  - apply Hoff. reflexivity.
  - apply (Hocc _ 0 0 1); [reflexivity | reflexivity | lia].
  - apply Hdraw. reflexivity.
Defined.

(** ** Loading the pickled tree *)

(** C8, as the spec has it, fails: an empty persistence file makes
    [pickle.load] raise [EOFError], which is no [PickleError] and leaves
    the constructor. *)
Lemma load_failure_propagates :
  @Pickling_SearchTree_init Nim.game (Some (Err EOFError)) = Err EOFError.
Proof. reflexivity. Qed.

Section Pickling.
Context `{G : Game}.

(** C8 (amended): a load that fails with [pickle.PickleError] or a
    subclass of it gives an empty tree, and so does a missing file; any
    other exception of the load leaves the constructor. *)
Theorem load_failure_handling (e : error) :
  (is_PickleError e = true →
     ∃ s, Pickling_SearchTree_init (Some (Err e)) = Ok s ∧ size s = 0%nat) ∧
  (is_PickleError e = false → Pickling_SearchTree_init (Some (Err e)) = Err e) ∧
  (∃ s, Pickling_SearchTree_init None = Ok s ∧ size s = 0%nat).
Proof.
  unfold Pickling_SearchTree_init. split; [|split].
  - intros ->. by eexists.
  - by intros ->.
  - by eexists.
Qed.

End Pickling.

Lemma load_failure_handling_witness :
  (∃ s, @Pickling_SearchTree_init Nim.game (Some (Err UnpicklingError)) = Ok s ∧
        size s = 0%nat) ∧
  @Pickling_SearchTree_init Nim.game (Some (Err IOError)) = Err IOError.
Proof.
  split.
  - destruct (load_failure_handling (G:=Nim.game) UnpicklingError) as (Hcaught & _ & _).
    apply Hcaught. reflexivity.
  - destruct (load_failure_handling (G:=Nim.game) IOError) as (_ & Hraised & _).
    apply Hraised. reflexivity.
Defined.

(** ** Unfolding the loops *)

Section Loops.
Context `{G : Game}.
Variable explore : Q → Q → Q.

Lemma select_unfold fuel (h : list TreeNode) node :
  select explore fuel h node =
    n ← deref h (tree_node node);
    if bool_decide (untried_moves n = []) && bool_decide (child_nodes n ≠ []) then
      match fuel with
      | O => Err RecursionError
      | S fuel' => node' ← uct_select_child explore h node 1; select explore fuel' h node'
      end
    else Ok node.
Proof. by destruct fuel. Qed.

Lemma rollout_unfold fuel rng (st : State) :
  rollout fuel rng st =
    match get_moves st with
    | [] => Ok (st, rng)
    | moves =>
        match fuel with
        | O => Err RecursionError
        | S fuel' =>
            '(m, rng') ← choice rng moves;
            st' ← do_move st m;
            rollout fuel' rng' st'
        end
    end.
Proof. by destruct fuel. Qed.

Lemma rollout_terminal fuel rng (st : State) :
  get_moves st = [] → rollout fuel rng st = Ok (st, rng).
Proof. intros Hnil. rewrite rollout_unfold. by rewrite Hnil. Qed.

End Loops.

(** ** A root without moves *)

Section Barren.
Context `{G : Game}.
Variable explore : Q → Q → Q.

Lemma barren_init (root_state : State) :
  get_moves root_state = [] →
  ∃ s, get_node (SearchTree_init CommonSearchTree) root_state = (s, O) ∧
       barren root_state s.
Proof.
  intros Hnil. eexists. split; [reflexivity|].
  exists (TreeNode_init root_state). by rewrite <- Hnil.
Qed.

Lemma barren_iteration fuel (root_state : State) s rng :
  get_moves root_state = [] → barren root_state s →
  iteration explore fuel (SearchNode_init None None O) s rng =
    r ← get_result root_state (player_just_moved root_state);
    Ok (set_heap s [update (default (TreeNode_init root_state) (heap s !! O)) r], rng).
Proof.
  intros Hnil (nd & Hheap & Hstate & Hchildren & Huntried).
  unfold iteration, select_expand. rewrite select_unfold, Hheap. simpl.
  rewrite Huntried, Hchildren. simpl. rewrite Huntried, Hstate. simpl.
  rewrite rollout_terminal by done. simpl. rewrite Hheap. simpl.
  rewrite Hstate. by destruct (get_result _ _).
Qed.

Lemma barren_iterations fuel (root_state : State) n s rng r :
  get_moves root_state = [] → barren root_state s →
  iterations explore fuel n (SearchNode_init None None O) s rng = Ok r →
  barren root_state r.1.
Proof.
  intros Hnil. revert s rng. induction n as [|n IH]; intros s rng Hs; simpl.
  - by intros [= <-].
  - rewrite (barren_iteration _ root_state) by done. intros Hrun.
    inv_bind Hrun as [s' rng'] Hit. inv_bind Hit as r' Hres. simplify_eq.
    eapply IH; [|done]. destruct Hs as (nd & Hheap & Hstate & Hchildren & Huntried).
    rewrite Hheap. simpl. by eexists.
Qed.

Lemma barren_iterations_defined fuel (root_state : State) n s rng :
  get_moves root_state = [] → barren root_state s →
  (∀ p, ∃ r, get_result root_state p = Ok r) →
  ∃ r, iterations explore fuel n (SearchNode_init None None O) s rng = Ok r.
Proof.
  intros Hnil Hs Hres. revert s rng Hs. induction n as [|n IH]; intros s rng Hs; simpl.
  - by eexists.
  - rewrite (barren_iteration _ root_state) by done.
    destruct (Hres (player_just_moved root_state)) as [r ->]. simpl.
    apply IH. destruct Hs as (nd & Hheap & Hstate & Hchildren & Huntried).
    rewrite Hheap. simpl. by eexists.
Qed.

Lemma barren_select (root_state : State) s c :
  barren root_state s →
  uct_select_child explore (heap s) (SearchNode_init None None O) c =
    Err AssertionError_children.
Proof.
  intros (nd & Hheap & Hstate & Hchildren & Huntried).
  unfold uct_select_child. rewrite Hheap. simpl. by rewrite Hchildren.
Qed.

(** C10: called without a tree, [uct] returns a move only when
    [iter_max >= 1] and the root state has a legal move.  With
    [iter_max <= 0], and with a root state that has no move (and a
    result, as a terminal state has), the root has no child and the
    final [uct_select_child] fails its assertion. *)
Theorem uct_precondition fuel (root_state : State) iter_max rng :
  (∀ r, uct explore fuel root_state iter_max None rng = Ok r →
     1 ≤ iter_max ∧ get_moves root_state ≠ []) ∧
  (iter_max ≤ 0 →
     uct explore fuel root_state iter_max None rng = Err AssertionError_children) ∧
  (get_moves root_state = [] → (∀ p, ∃ r, get_result root_state p = Ok r) →
     uct explore fuel root_state iter_max None rng = Err AssertionError_children).
Proof.
  assert (iter_max ≤ 0 →
    uct explore fuel root_state iter_max None rng = Err AssertionError_children) as Hzero.
  { intros Hle. unfold uct, uct_search. simpl.
    replace (Z.to_nat iter_max) with O by lia. simpl.
    by destruct (get_moves root_state). }
  assert (get_moves root_state = [] → ∀ r,
    uct explore fuel root_state iter_max None rng ≠ Ok r) as Hbarren.
  { intros Hnil r. destruct (barren_init root_state Hnil) as (s0 & Hget & Hs0).
    unfold uct, uct_search. simpl default. rewrite Hget.
    destruct (iterations _ _ _ _ _ _) as [[s rng']|e] eqn:Hrun; [|done].
    simpl. apply (barren_iterations _ root_state) in Hrun; [|done..].
    unfold SearchNode_init in *. by rewrite (barren_select root_state). }
  split; [|split; [done|]].
  - intros r Hr. split.
    + destruct (decide (1 ≤ iter_max)); [done|]. rewrite Hzero in Hr by lia. done.
    + intros Hnil. by apply (Hbarren Hnil r).
  - intros Hnil Hres. destruct (barren_init root_state Hnil) as (s0 & Hget & Hs0).
    unfold uct, uct_search. simpl default. rewrite Hget.
    destruct (barren_iterations_defined fuel root_state (Z.to_nat iter_max) s0 rng)
      as [[s rng'] Hrun]; [done..|].
    rewrite Hrun. simpl. apply (barren_iterations _ root_state) in Hrun; [|done..].
    unfold SearchNode_init in *. by rewrite (barren_select root_state).
Qed.

End Barren.

(** ** Properties of every node, kept by the search *)

Section SearchNodeInduction.
Context `{G : Game}.

Lemma SearchNode_ind (P : SearchNode → Prop) :
  (∀ m d a, P (mkSearchNode m None d a)) →
  (∀ m p d a, P p → P (mkSearchNode m (Some p) d a)) →
  ∀ node, P node.
Proof.
  intros Hroot Hstep. fix IH 1. intros [m [p|] d a].
  - apply Hstep, IH.
  - apply Hroot.
Qed.
End SearchNodeInduction.

Lemma choice_elem {A} (rng : Rng) (l : list A) x rng' :
  choice rng l = Ok (x, rng') → x ∈ l ∧ rng' = rng_next rng.
Proof.
  unfold choice. destruct (l !! _) as [y|] eqn:Hy; [|done].
  intros [= <- <-]. split; [|done]. by eapply list_elem_of_lookup_2.
Qed.

Lemma choice_defined {A} (rng : Rng) (l : list A) :
  l ≠ [] → ∃ x, choice rng l = Ok (x, rng_next rng).
Proof.
  intros Hne. unfold choice.
  destruct (lookup_lt_is_Some_2 l (rng O `mod` length l)%nat) as [x ->]; [|by eexists].
  apply Nat.mod_upper_bound. by destruct l.
Qed.

Section NodeInvariant.
Context `{G : Game}.
Variable explore : Q → Q → Q.
Variable P : TreeNode → Prop.
Hypothesis P_init : ∀ st, P (TreeNode_init st).
Hypothesis P_update : ∀ n st p r, P n → get_result st p = Ok r → P (update n r).
Hypothesis P_add_child : ∀ n m c, P n → m ∈ untried_moves n → P (add_child n m c).

Lemma deref_Ok (h : list TreeNode) a n : deref h a = Ok n ↔ h !! a = Some n.
Proof. apply of_option_Ok. Qed.

Lemma get_node_heap s st :
  heap (get_node s st).1 = heap s ∨
  heap (get_node s st).1 = heap s ++ [TreeNode_init st].
Proof. unfold get_node. destruct (dict_get _ _); simpl; auto. Qed.

Lemma get_node_Forall s st :
  Forall P (heap s) → Forall P (heap (get_node s st).1).
Proof using P_init.
  intros Hs. destruct (get_node_heap s st) as [-> | ->]; [done|].
  apply Forall_app. split; [done|]. by apply Forall_singleton.
Qed.

Lemma backpropagate_Forall node st : ∀ h h',
  Forall P h → backpropagate h node st = Ok h' →
  Forall P h' ∧ length h' = length h.
Proof using P_update.
  induction node as [m d a | m p d a IH] using SearchNode_ind; intros h h' Hh Hrun;
    simpl in Hrun; inv_bind Hrun as n Hn; inv_bind Hrun as r Hr; apply deref_Ok in Hn.
  - simplify_eq. split; [|by rewrite length_insert].
    apply Forall_insert; [done|]. eapply P_update; [|done].
    by eapply Forall_lookup_1.
  - apply IH in Hrun as [? Hlen].
    + split; [done|]. by rewrite Hlen, length_insert.
    + apply Forall_insert; [done|]. eapply P_update; [|done].
      by eapply Forall_lookup_1.
Qed.

Lemma select_expand_Forall fuel root s rng s1 node st rng1 :
  Forall P (heap s) →
  select_expand explore fuel root s rng = Ok (s1, node, st, rng1) →
  Forall P (heap s1).
Proof using P_init P_add_child.
  intros Hs Hrun. unfold select_expand in Hrun.
  inv_bind Hrun as nd Hsel. inv_bind Hrun as n Hn. apply deref_Ok in Hn.
  destruct (untried_moves n) as [|u untried] eqn:Huntried; [by simplify_eq|].
  inv_bind Hrun as [m rng'] Hm. apply choice_elem in Hm as [Hm ->].
  inv_bind Hrun as st' Hst'. destruct (get_node s st') as [s2 c] eqn:Hget.
  inv_bind Hrun as [h2 node'] Hadd. simplify_eq. simpl.
  unfold SearchNode_add_child in Hadd. inv_bind Hadd as n2 Hn2. simplify_eq.
  apply deref_Ok in Hn2.
  assert (Forall P (heap s2)) as Hs2.
  { replace s2 with (get_node s st).1 by by rewrite Hget. by apply get_node_Forall. }
  apply Forall_insert; [done|]. apply P_add_child.
  - by eapply Forall_lookup_1.
  - assert (n2 = n) as ->; [|by rewrite Huntried].
    destruct (get_node_heap s st) as [Heq | Heq]; rewrite Hget in Heq; simpl in Heq;
      rewrite Heq in Hn2.
    + by simplify_eq.
    + rewrite lookup_app_l in Hn2 by (eapply lookup_lt_Some, Hn).
      by simplify_eq.
Qed.

Lemma iteration_Forall fuel root s rng s' rng' :
  Forall P (heap s) →
  iteration explore fuel root s rng = Ok (s', rng') →
  Forall P (heap s').
Proof using P_init P_update P_add_child.
  intros Hs Hrun. unfold iteration in Hrun.
  inv_bind Hrun as [[[s1 node] st] rng1] Hsel.
  inv_bind Hrun as [st' rng2] Hroll. inv_bind Hrun as h Hback. simplify_eq. simpl.
  eapply backpropagate_Forall; [|done]. by eapply select_expand_Forall.
Qed.

Lemma clean_sub_tree_heap fuel s root ignored s' :
  clean_sub_tree fuel s root ignored = Ok s' →
  heap s' = heap s ∧ pool s' ⊆ pool s.
Proof.
  unfold clean_sub_tree, common_clean_sub_tree.
  destruct (tree_class s); [|by intros [= <-]].
  intros Hrun. inv_bind Hrun as ignore_set Htrav. simplify_eq. simpl. split; [done|].
  intros kn Hkn. by apply list_elem_of_filter in Hkn as [_ ?].
Qed.

Lemma Quiescent_Forall s : Quiescent explore s → Forall P (heap s).
Proof using P_init P_update P_add_child.
  induction 1 as [c | s st _ IH | fuel s rs a rng s' rng' _ IH _ Hrun
                  | fuel s root ignored s' _ IH Hrun].
  - apply Forall_nil_2.
  - by apply get_node_Forall.
  - by eapply iteration_Forall.
  - apply clean_sub_tree_heap in Hrun as [-> _]. done.
Qed.

End NodeInvariant.

(** ** The pool refers into the heap *)

Section PoolValid.
Context `{G : Game}.
Variable explore : Q → Q → Q.

Lemma dict_get_elem {K V} `{EqDecision K} (d : list (K * V)) k v :
  dict_get d k = Some v → (k, v) ∈ d.
Proof.
  induction d as [|[k' v'] d IH]; simpl; [done|].
  case_decide; [intros [= ->]; subst; left | right; auto].
Qed.

Lemma dict_get_None {K V} `{EqDecision K} (d : list (K * V)) k :
  dict_get d k = None ↔ k ∉ d.*1.
Proof.
  induction d as [|[k' v'] d IH]; simpl.
  - split; [intros _; apply not_elem_of_nil | done].
  - rewrite not_elem_of_cons. case_decide; [naive_solver | by rewrite IH; naive_solver].
Qed.

Lemma dict_mem_keys {K V} `{EqDecision K} (d : list (K * V)) k :
  dict_mem d k = true ↔ k ∈ d.*1.
Proof.
  unfold dict_mem. rewrite bool_decide_eq_true.
  destruct (dict_get d k) as [v|] eqn:Hget.
  - split; [intros _ | by eauto]. apply dict_get_elem in Hget.
    apply list_elem_of_fmap. by exists (k, v).
  - split; [by intros [? ?] | intros Hin]. by apply dict_get_None in Hget.
Qed.

Lemma get_node_pool_valid s st : pool_valid s → pool_valid (get_node s st).1.
Proof.
  intros Hs k a. unfold get_node. destruct (dict_get _ _); simpl; [apply Hs|].
  rewrite length_app. simpl. intros [Hin | Hin]%elem_of_app.
  - apply Hs in Hin. lia.
  - apply list_elem_of_singleton in Hin. simplify_eq. lia.
Qed.

Lemma select_expand_pool_valid fuel root s rng s1 node st rng1 :
  pool_valid s →
  select_expand explore fuel root s rng = Ok (s1, node, st, rng1) →
  pool_valid s1.
Proof.
  intros Hs Hrun. unfold select_expand in Hrun.
  inv_bind Hrun as nd Hsel. inv_bind Hrun as n Hn.
  destruct (untried_moves n) as [|u untried]; [by simplify_eq|].
  inv_bind Hrun as [m rng'] Hm. inv_bind Hrun as st' Hst'.
  pose proof (get_node_pool_valid s st' Hs) as Hs2.
  destruct (get_node s st') as [s2 c].
  inv_bind Hrun as [h2 node'] Hadd. unfold SearchNode_add_child in Hadd.
  inv_bind Hadd as n2 Hn2. simplify_eq. intros k a. simpl.
  rewrite length_insert. apply Hs2.
Qed.

Lemma backpropagate_length node (st : State) : ∀ h h',
  backpropagate h node st = Ok h' → length h' = length h.
Proof.
  induction node as [m d a | m p d a IH] using SearchNode_ind; intros h h' Hrun;
    simpl in Hrun; inv_bind Hrun as n Hn; inv_bind Hrun as r Hr.
  - simplify_eq. by rewrite length_insert.
  - apply IH in Hrun. by rewrite Hrun, length_insert.
Qed.

Lemma iteration_pool_valid fuel root s rng s' rng' :
  pool_valid s →
  iteration explore fuel root s rng = Ok (s', rng') →
  pool_valid s'.
Proof.
  intros Hs Hrun. unfold iteration in Hrun.
  inv_bind Hrun as [[[s1 node] st] rng1] Hsel.
  inv_bind Hrun as [st' rng2] Hroll. inv_bind Hrun as h Hback. simplify_eq.
  intros k a. simpl. rewrite (backpropagate_length _ _ _ _ Hback).
  by eapply select_expand_pool_valid.
Qed.

Lemma Quiescent_pool_valid s : Quiescent explore s → pool_valid s.
Proof.
  induction 1 as [c | s st _ IH | fuel s rs a rng s' rng' _ IH _ Hrun
                  | fuel s root ignored s' _ IH Hrun].
  - intros k a Hin. by apply elem_of_nil in Hin.
  - by apply get_node_pool_valid.
  - by eapply iteration_pool_valid.
  - apply clean_sub_tree_heap in Hrun as [Hheap Hpool].
    intros k a Hin. rewrite Hheap. by apply (IH k), Hpool.
Qed.

Lemma Quiescent_tree_forall (P : TreeNode → Prop) s :
  Quiescent explore s → Forall P (heap s) → tree_forall P s.
Proof.
  intros Hq HP k a Hin. apply Quiescent_pool_valid in Hq.
  destruct (lookup_lt_is_Some_2 (heap s) a) as [n Hn]; [by eapply Hq|].
  exists n. split; [done|]. by eapply Forall_lookup_1.
Qed.

End PoolValid.

(** ** Untried moves and children *)

Lemma remove_first_elem {A} `{EqDecision A} (x y : A) (l : list A) :
  NoDup l → y ∈ remove_first x l ↔ y ∈ l ∧ y ≠ x.
Proof.
  induction 1 as [|z l Hz Hl IH]; simpl.
  - split; [by intros ?%elem_of_nil | by intros [?%elem_of_nil _]].
  - case_decide as Hxz.
    + subst z. rewrite elem_of_cons. split; [|naive_solver].
      intros Hy. split; [by right|]. by intros ->.
    + rewrite !elem_of_cons, IH. naive_solver.
Qed.

Lemma remove_first_NoDup {A} `{EqDecision A} (x : A) (l : list A) :
  NoDup l → NoDup (remove_first x l).
Proof.
  induction 1 as [|z l Hz Hl IH]; simpl; [constructor|].
  case_decide; [done|]. constructor; [|done].
  rewrite remove_first_elem by done. naive_solver.
Qed.

Section Partition.
Context `{G : Game}.
Variable explore : Q → Q → Q.
Hypothesis get_moves_NoDup : ∀ st, NoDup (get_moves st).

Lemma partitioned_init st :
  NoDup (untried_moves (TreeNode_init st)) ∧ partitioned (TreeNode_init st).
Proof using get_moves_NoDup.
  split; [apply get_moves_NoDup|]. split; simpl.
  - intros m _. apply not_elem_of_nil.
  - intros m. split; [by left | intros [? | ?%elem_of_nil]; done].
Qed.

Lemma partitioned_add_child n m c :
  NoDup (untried_moves n) ∧ partitioned n → m ∈ untried_moves n →
  NoDup (untried_moves (add_child n m c)) ∧ partitioned (add_child n m c).
Proof.
  intros [Hnodup [Hdisj Hunion]] Hm. unfold partitioned, add_child. simpl.
  rewrite bool_decide_eq_true_2 by done.
  destruct (dict_mem (child_nodes n) m) eqn:Hmem.
  { apply dict_mem_keys in Hmem. by apply Hdisj in Hm. }
  split; [by apply remove_first_NoDup|]. unfold keys in *. split.
  - intros m'. rewrite remove_first_elem, fmap_app, elem_of_app by done. simpl.
    intros [Hm' Hne] [Hin | Hin%list_elem_of_singleton]; [by eapply Hdisj | done].
  - intros m'. rewrite Hunion, remove_first_elem, fmap_app, elem_of_app by done.
    simpl. rewrite list_elem_of_singleton.
    destruct (decide (m' = m)) as [-> | Hne]; naive_solver.
Qed.

(** C2: between iterations, in every node of the tree the untried moves
    and the moves of the children are disjoint and together are the
    legal moves of the node's state; [get_moves] lists each move once. *)
Theorem untried_children_partition (s : Store) :
  Quiescent explore s → tree_forall partitioned s.
Proof using get_moves_NoDup.
  intros Hq. apply (Quiescent_tree_forall explore); [done|].
  eapply Forall_impl.
  - apply (Quiescent_Forall explore
             (λ n, NoDup (untried_moves n) ∧ partitioned n)); [| | |done].
    + apply partitioned_init.
    + by intros n st p r.
    + intros n m c. apply partitioned_add_child.
  - by intros n [_ ?].
Qed.

End Partition.

(** ** Wins and visits *)

Lemma value_bounds (w v : Q) :
  (0 <= w)%Q → (w <= v)%Q → (1 <= v)%Q → (0 <= w / v)%Q ∧ (w / v <= 1)%Q.
Proof.
  intros Hw Hwv Hv. split.
  - apply Qle_shift_div_l; lra.
  - apply Qle_shift_div_r; lra.
Qed.

Section Statistics.
Context `{G : Game}.
Variable explore : Q → Q → Q.
Hypothesis get_result_range :
  ∀ st p r, get_result st p = Ok r → (0 <= r)%Q ∧ (r <= 1)%Q.

Lemma stats_bounded_intro n :
  (1 <= visits n)%Q → (0 <= wins n)%Q → (wins n <= visits n)%Q → stats_bounded n.
Proof.
  intros Hv Hw Hwv. unfold stats_bounded, value.
  destruct (value_bounds (wins n) (visits n)); done.
Qed.

Lemma stats_bounded_update n r :
  stats_bounded n → (0 <= r)%Q → (r <= 1)%Q → stats_bounded (update n r).
Proof.
  intros (Hv & Hw & Hwv & _) Hr0 Hr1. apply stats_bounded_intro; simpl; lra.
Qed.

(** C3: between iterations, every node of the tree has [visits >= 1],
    [0 <= wins <= visits] and a value in [0, 1], as long as the game's
    results lie in [0, 1].  A new node has one visit and no win; an
    update adds 1 to the visits and the result to the wins. *)
Theorem statistics_bounded (s : Store) :
  Quiescent explore s →
  tree_forall stats_bounded s ∧
  (∀ st, visits (TreeNode_init st) = 1%Q ∧ wins (TreeNode_init st) = 0%Q) ∧
  (∀ n r, visits (update n r) = (visits n + 1)%Q ∧ wins (update n r) = (wins n + r)%Q).
Proof using get_result_range.
  intros Hq. split; [|done].
  apply (Quiescent_tree_forall explore); [done|].
  apply (Quiescent_Forall explore); [| | |done].
  - intros st. apply stats_bounded_intro; simpl; lra.
  - intros n st p r Hn [Hr0 Hr1]%get_result_range. by apply stats_bounded_update.
  - intros n m c (Hv & Hw & Hwv & _) _. by apply stats_bounded_intro.
Qed.

End Statistics.

(** ** Traversal and pruning *)

Section Traverse.
Context `{G : Game}.

Implicit Types (h : list TreeNode) (a c x : addr) (acc : list addr).

Lemma set_add_elem a acc x : x ∈ set_add a acc ↔ x = a ∨ x ∈ acc.
Proof.
  unfold set_add. case_bool_decide; [|by rewrite elem_of_cons].
  split; [by right | by intros [-> | ?]].
Qed.

Lemma child_of_lookup h a n c :
  h !! a = Some n → child_of h a c ↔ c ∈ (child_nodes n).*2.
Proof.
  intros Hn. unfold child_of. rewrite list_elem_of_fmap. split.
  - intros (n' & m & Hn' & Hin). simplify_eq. by exists (m, c).
  - intros ([m c'] & -> & Hin). by exists n, m.
Qed.

Lemma reachable_step h a x :
  reachable h a x ↔ x = a ∨ ∃ c, child_of h a c ∧ reachable h c x.
Proof.
  split.
  - intros Hr. apply rtc_inv in Hr as [-> | (c & ? & ?)]; [by left | right; eauto].
  - intros [-> | (c & ? & ?)]; [apply rtc_refl | by eapply rtc_l].
Qed.

(** What a traversal that returns has collected. *)
Lemma traverse_children_elem (visit : addr → list addr → result (list addr)) h cs :
  (∀ c acc acc', c ∈ cs.*2 → visit c acc = Ok acc' →
     ∀ x, x ∈ acc' ↔ x ∈ acc ∨ reachable h c x) →
  ∀ acc acc', traverse_children visit cs acc = Ok acc' →
  ∀ x, x ∈ acc' ↔ x ∈ acc ∨ ∃ c, c ∈ cs.*2 ∧ reachable h c x.
Proof.
  induction cs as [|[m c] cs IH]; intros Hvisit acc acc' Hrun x; simpl in *.
  - simplify_eq. split; [by left | intros [? | (c & ?%elem_of_nil & _)]; done].
  - inv_bind Hrun as acc1 Hc. rewrite (IH (λ c' acc0 acc0' Hc', Hvisit c' acc0 acc0'
      (list_elem_of_further _ _ _ Hc')) _ _ Hrun x).
    rewrite (Hvisit c acc acc1 (list_elem_of_here _ _) Hc x).
    setoid_rewrite elem_of_cons. naive_solver.
Qed.

Lemma traverse_elem fuel h : ∀ a acc acc',
  traverse fuel h a acc = Ok acc' →
  ∀ x, x ∈ acc' ↔ x ∈ acc ∨ reachable h a x.
Proof.
  induction fuel as [|fuel IH]; intros a acc acc' Hrun x; simpl in Hrun; [done|].
  inv_bind Hrun as n Hn. apply of_option_Ok in Hn.
  inv_bind Hrun as acc1 Hcs. simplify_eq.
  rewrite set_add_elem, (traverse_children_elem _ h _ (λ c acc0 acc0' _, IH c acc0 acc0')
    _ _ Hcs x), (reachable_step h a x).
  setoid_rewrite (child_of_lookup h a n _ Hn). naive_solver.
Qed.

(** A traversal that fails has gone as deep as its fuel. *)
Lemma traverse_children_Err (visit : addr → list addr → result (list addr)) cs acc e :
  traverse_children visit cs acc = Err e →
  ∃ c acc1, c ∈ cs.*2 ∧ visit c acc1 = Err e.
Proof.
  revert acc. induction cs as [|[m c] cs IH]; intros acc Hrun; simpl in *; [done|].
  destruct (visit c acc) as [acc1|e'] eqn:Hc; simpl in Hrun.
  - destruct (IH _ Hrun) as (c' & acc' & Hin & Hc'). exists c', acc'.
    split; [by right | done].
  - simplify_eq. exists c, acc. split; [by left | done].
Qed.

Lemma traverse_Err fuel h : ∀ a acc e,
  closed h → (a < length h)%nat → traverse fuel h a acc = Err e →
  ∃ p, is_path h (a :: p) ∧ length p = fuel.
Proof.
  induction fuel as [|fuel IH]; intros a acc e Hclosed Ha Hrun; simpl in Hrun.
  - by exists [].
  - destruct (lookup_lt_is_Some_2 h a Ha) as [n Hn].
    unfold deref in Hrun. rewrite Hn in Hrun. simpl in Hrun.
    destruct (traverse_children _ _ _) as [acc1|e'] eqn:Hcs; [done|].
    apply traverse_children_Err in Hcs as (c & acc1 & Hin & Hc).
    apply (child_of_lookup h a n c Hn) in Hin.
    destruct (IH c acc1 e' Hclosed (Hclosed a c Hin) Hc) as (p & Hp & Hlen).
    exists (c :: p). split; [by split | by rewrite <- Hlen].
Qed.

(** Chains of child links in a heap without a cycle do not repeat. *)
Lemma is_path_tc h a p x : is_path h (a :: p) → x ∈ p → tc (child_of h) a x.
Proof.
  revert a. induction p as [|c p IH]; intros a Hp Hx; [by apply elem_of_nil in Hx|].
  destruct Hp as [Hac Hp]. apply elem_of_cons in Hx as [-> | Hx].
  - by apply tc_once.
  - eapply tc_l; [done|]. by apply IH.
Qed.

Lemma is_path_bounded h a p :
  closed h → (a < length h)%nat → is_path h (a :: p) →
  ∀ x, x ∈ a :: p → (x < length h)%nat.
Proof.
  intros Hclosed. revert a. induction p as [|c p IH]; intros a Ha Hp x Hx.
  - by apply list_elem_of_singleton in Hx as ->.
  - destruct Hp as [Hac Hp]. apply elem_of_cons in Hx as [-> | Hx]; [done|].
    eapply IH; [|done..]. by eapply Hclosed.
Qed.

Lemma is_path_NoDup h a p :
  (∀ x, reachable h a x → ¬ on_cycle h x) → is_path h (a :: p) → NoDup (a :: p).
Proof.
  revert a. induction p as [|c p IH]; intros a Hacyc Hp.
  - apply NoDup_singleton.
  - constructor.
    + intros Hin. apply (Hacyc a); [apply rtc_refl|]. by eapply is_path_tc.
    + destruct Hp as [Hac Hp]. apply IH; [|done].
      intros x Hx. apply Hacyc. by eapply rtc_l.
Qed.

Lemma is_path_length h a p :
  closed h → (a < length h)%nat → (∀ x, reachable h a x → ¬ on_cycle h x) →
  is_path h (a :: p) → (length p < length h)%nat.
Proof.
  intros Hclosed Ha Hacyc Hp.
  assert (a :: p ⊆+ seq 0 (length h)) as Hsub.
  { apply NoDup_submseteq; [by eapply is_path_NoDup|].
    intros x Hx. apply elem_of_seq. split; [lia|].
    by eapply is_path_bounded. }
  apply submseteq_length in Hsub. rewrite length_seq in Hsub. simpl in Hsub. lia.
Qed.

(** Without a cycle below the start, fuel for every node is enough. *)
Lemma traverse_defined fuel h a acc :
  closed h → (a < length h)%nat → (∀ x, reachable h a x → ¬ on_cycle h x) →
  (length h ≤ fuel)%nat →
  ∃ acc', traverse fuel h a acc = Ok acc'.
Proof.
  intros Hclosed Ha Hacyc Hfuel.
  destruct (traverse fuel h a acc) as [acc'|e] eqn:Hrun; [by eexists|].
  apply traverse_Err in Hrun as (p & Hp & Hlen); [|done..].
  apply is_path_length in Hp; [|done..]. lia.
Qed.

(** With a cycle below the start, no fuel is enough. *)
Lemma traverse_children_fails (visit : addr → list addr → result (list addr)) cs c :
  c ∈ cs.*2 → (∀ acc acc', visit c acc ≠ Ok acc') →
  ∀ acc acc', traverse_children visit cs acc ≠ Ok acc'.
Proof.
  intros Hin Hc. induction cs as [|[m c'] cs IH]; intros acc acc' Hrun; simpl in *.
  - by apply elem_of_nil in Hin.
  - inv_bind Hrun as acc1 Hc'. apply elem_of_cons in Hin as [-> | Hin].
    + by eapply Hc.
    + by eapply IH.
Qed.

Lemma on_cycle_child h x : on_cycle h x → ∃ c, child_of h x c ∧ reachable h c x.
Proof.
  unfold on_cycle. inversion 1 as [? ? Hxx | ? c ? Hxc Hcx]; subst.
  - exists x. split; [done | apply rtc_refl].
  - exists c. split; [done | by apply tc_rtc].
Qed.

Lemma traverse_cycle fuel h : ∀ a acc acc',
  (∃ x, reachable h a x ∧ on_cycle h x) → traverse fuel h a acc ≠ Ok acc'.
Proof.
  induction fuel as [|fuel IH]; intros a acc acc' (x & Hax & Hx) Hrun;
    simpl in Hrun; [done|].
  inv_bind Hrun as n Hn. apply of_option_Ok in Hn. inv_bind Hrun as acc1 Hcs.
  assert (∃ c, child_of h a c ∧ reachable h c x) as (c & Hac & Hcx).
  { apply reachable_step in Hax as [-> | ?]; [by apply on_cycle_child | done]. }
  apply (child_of_lookup h a n c Hn) in Hac.
  eapply (traverse_children_fails _ _ c Hac); [|done].
  intros acc0 acc0'. apply IH. by exists x.
Qed.

(** C6: on a tree whose child links have no cycle, [clean_sub_tree]
    returns and leaves in the pool the entries whose node can be reached
    from [ignored_node] along child links, that node included, and no
    other entry. *)
Theorem clean_sub_tree_keeps_reachable fuel (s : Store) root_node ignored_node :
  closed (heap s) → acyclic (heap s) →
  (ignored_node < length (heap s))%nat → (length (heap s) ≤ fuel)%nat →
  ∃ s', common_clean_sub_tree fuel s root_node ignored_node = Ok s' ∧
        heap s' = heap s ∧
        ∀ k a, (k, a) ∈ pool s' ↔ (k, a) ∈ pool s ∧ reachable (heap s) ignored_node a.
Proof.
  intros Hclosed Hacyc Hign Hfuel. unfold common_clean_sub_tree.
  destruct (traverse_defined fuel (heap s) ignored_node []) as [set Hrun]; [done..| |done|].
  { intros x _. apply Hacyc. }
  rewrite Hrun. simpl. eexists. split; [done|]. split; [done|]. simpl.
  intros k a. rewrite list_elem_of_filter. simpl.
  rewrite (traverse_elem _ _ _ _ _ Hrun a), elem_of_nil. naive_solver.
Qed.

(** C7 (amended): [traverse] keeps no record of the nodes it has seen
    ([ignore_set] only collects them), so pruning returns exactly when
    no cycle of child links can be reached from [ignored_node]; on a
    tree without such a cycle the recursion is no deeper than the
    number of nodes. *)
Theorem pruning_terminates_iff_no_cycle (s : Store) root_node ignored_node :
  closed (heap s) → (ignored_node < length (heap s))%nat →
  (∃ fuel s', common_clean_sub_tree fuel s root_node ignored_node = Ok s') ↔
  ¬ ∃ x, reachable (heap s) ignored_node x ∧ on_cycle (heap s) x.
Proof.
  intros Hclosed Hign. unfold common_clean_sub_tree. split.
  - intros (fuel & s' & Hrun) Hcycle. inv_bind Hrun as set Htrav.
    by eapply traverse_cycle.
  - intros Hnone.
    destruct (traverse_defined (length (heap s)) (heap s) ignored_node [])
      as [set Hrun]; [done..| |done|].
    { intros x Hx Hcyc. apply Hnone. by exists x. }
    exists (length (heap s)). rewrite Hrun. by eexists.
Qed.

End Traverse.

(** ** Heaps whose links go forward *)

Section LinksForward.
Context `{G : Game}.

Lemma links_forward_child (h : list TreeNode) a c :
  links_forward h = true → child_of h a c → (a < c < length h)%nat.
Proof.
  unfold links_forward. intros Hall (n & m & Hn & Hin).
  apply Is_true_true, forallb_True in Hall. rewrite Forall_forall in Hall.
  specialize (Hall (a, n) (elem_of_lookup_imap_2 pair h n a Hn)). simpl in Hall.
  apply forallb_True in Hall. rewrite Forall_forall in Hall.
  specialize (Hall (m, c) Hin). simpl in Hall.
  apply andb_True in Hall as [?%Is_true_true%Nat.ltb_lt ?%Is_true_true%Nat.ltb_lt].
  lia.
Qed.

Lemma links_forward_closed (h : list TreeNode) : links_forward h = true → closed h.
Proof. intros Hall a c Hac. by apply (links_forward_child h a c) in Hac as [_ ?]. Qed.

Lemma links_forward_acyclic (h : list TreeNode) : links_forward h = true → acyclic h.
Proof.
  intros Hall a Hcyc. unfold on_cycle in Hcyc.
  assert (∀ x y, tc (child_of h) x y → (x < y)%nat) as Hlt.
  { induction 1 as [x y Hxy | x y z Hxy _ IH].
    - by apply (links_forward_child h x y) in Hxy as [? _].
    - apply (links_forward_child h x y) in Hxy as [? _]; [lia | done]. }
  apply Hlt in Hcyc. lia.
Qed.

End LinksForward.

(** ** The example runs *)

Lemma Nim_get_moves_NoDup (st : Nim.NimState) : NoDup (Nim.get_moves st).
Proof. apply NoDup_seqZ. Qed.

Lemma Nim_get_result_range (st : Nim.NimState) p r :
  Nim.get_result st p = Ok r → (0 <= r)%Q ∧ (r <= 1)%Q.
Proof.
  unfold Nim.get_result. intros Hrun. inv_bind Hrun as u Hu. simplify_eq.
  by destruct (Nim.pjm st =? p).
Qed.

Section QuiescentRuns.
Context `{G : Game}.
Variable explore : Q → Q → Q.

Lemma dict_get_app {K V} `{EqDecision K} (d d' : list (K * V)) k v :
  dict_get d k = Some v → dict_get (d ++ d') k = Some v.
Proof. induction d as [|[k' v'] d IH]; simpl; [done|]. by case_decide. Qed.

Lemma dict_get_snoc {K V} `{EqDecision K} (d : list (K * V)) k v :
  dict_get d k = None → dict_get (d ++ [(k, v)]) k = Some v.
Proof.
  induction d as [|[k' v'] d IH]; simpl; [by rewrite decide_True|]. by case_decide.
Qed.

Lemma get_node_lookup s st :
  dict_get (pool (get_node s st).1) (repr st) = Some (get_node s st).2.
Proof.
  unfold get_node. destruct (dict_get (pool s) (repr st)) eqn:Hget; simpl; [done|].
  by apply dict_get_snoc.
Qed.

Lemma get_node_pool_mono s st k a :
  dict_get (pool s) k = Some a → dict_get (pool (get_node s st).1) k = Some a.
Proof.
  unfold get_node. destruct (dict_get (pool s) (repr st)); simpl; [done|].
  apply dict_get_app.
Qed.

Lemma iteration_pool_mono fuel root s rng s' rng' k a :
  iteration explore fuel root s rng = Ok (s', rng') →
  dict_get (pool s) k = Some a → dict_get (pool s') k = Some a.
Proof.
  intros Hrun Hk. unfold iteration in Hrun.
  inv_bind Hrun as [[[s1 node] st] rng1] Hsel.
  inv_bind Hrun as [st' rng2] Hroll. inv_bind Hrun as h Hback. simplify_eq. simpl.
  unfold select_expand in Hsel.
  inv_bind Hsel as nd Hnd. inv_bind Hsel as n Hn.
  destruct (untried_moves n) as [|u untried]; [by simplify_eq|].
  inv_bind Hsel as [m rng0] Hm. inv_bind Hsel as st0 Hst0.
  pose proof (get_node_pool_mono s st0 k a Hk) as Hk2.
  destruct (get_node s st0) as [s2 c].
  inv_bind Hsel as [h2 node'] Hadd. by simplify_eq.
Qed.

Lemma iterations_Quiescent fuel n root_state a : ∀ s rng s' rng',
  Quiescent explore s → dict_get (pool s) (repr root_state) = Some a →
  iterations explore fuel n (SearchNode_init None None a) s rng = Ok (s', rng') →
  Quiescent explore s'.
Proof.
  induction n as [|n IH]; intros s rng s' rng' Hq Ha Hrun; simpl in Hrun.
  - by simplify_eq.
  - inv_bind Hrun as [s1 rng1] Hit. eapply (IH s1); [| |done].
    + by eapply Q_iteration.
    + by eapply iteration_pool_mono.
Qed.

Lemma uct_search_Quiescent fuel root_state iter_max search_tree rng root s rng' :
  (∀ s0, search_tree = Some s0 → Quiescent explore s0) →
  uct_search explore fuel root_state iter_max search_tree rng = Ok (root, s, rng') →
  Quiescent explore s.
Proof.
  intros Htree Hrun. unfold uct_search in Hrun.
  set (tree := default _ search_tree) in *.
  assert (Quiescent explore tree) as Hq.
  { unfold tree. destruct search_tree; [by apply Htree | apply Q_init]. }
  pose proof (get_node_lookup tree root_state) as Hroot.
  pose proof (Q_get_node explore tree root_state Hq) as Hq0.
  destruct (get_node tree root_state) as [s0 a].
  inv_bind Hrun as [s1 rng1] Hit. simplify_eq.
  by eapply iterations_Quiescent.
Qed.

End QuiescentRuns.

Lemma NimRun_searched :
  ∃ root rng', NimRun.searched = Ok (root, NimRun.store, rng').
Proof. do 2 eexists. vm_compute. reflexivity. Qed.

Lemma NimRun_Quiescent : Quiescent (G:=Nim.game) rough_explore NimRun.store.
Proof.
  destruct NimRun_searched as (root & rng' & Hrun).
  eapply uct_search_Quiescent; [|exact Hrun]. done.
Qed.

Lemma ShuttleRun_searched :
  ∃ root rng', ShuttleRun.searched = Ok (root, ShuttleRun.store, rng').
Proof. do 2 eexists. vm_compute. reflexivity. Qed.

Lemma untried_children_partition_witness :
  Quiescent (G:=Nim.game) rough_explore NimRun.store ∧
  tree_forall (G:=Nim.game) partitioned NimRun.store.
Proof.
  split; [apply NimRun_Quiescent|].
  apply (untried_children_partition (G:=Nim.game) rough_explore Nim_get_moves_NoDup).
  apply NimRun_Quiescent.
Defined.

Lemma statistics_bounded_witness :
  Quiescent (G:=Nim.game) rough_explore NimRun.store ∧
  tree_forall (G:=Nim.game) stats_bounded NimRun.store.
Proof.
  split; [apply NimRun_Quiescent|].
  apply (statistics_bounded (G:=Nim.game) rough_explore Nim_get_result_range).
  apply NimRun_Quiescent.
Defined.

Lemma clean_sub_tree_keeps_reachable_witness :
  ∃ s', common_clean_sub_tree (G:=Nim.game) 6 NimRun.store 0 1 = Ok s' ∧
        heap s' = heap NimRun.store ∧
        ∀ k a, (k, a) ∈ pool s' ↔
               (k, a) ∈ pool NimRun.store ∧ reachable (heap NimRun.store) 1 a.
Proof.
  apply (clean_sub_tree_keeps_reachable (G:=Nim.game) 6 NimRun.store 0 1).
  - by apply links_forward_closed.
  - by apply links_forward_acyclic.
  - simpl. lia.
  - simpl. lia.
Defined.

(** More fuel does not change what a search returns. *)
Section Fuel.
Context `{G : Game}.
Variable explore : Q → Q → Q.

Lemma select_mono fuel : ∀ fuel' (h : list TreeNode) node r,
  (fuel ≤ fuel')%nat → select explore fuel h node = Ok r →
  select explore fuel' h node = Ok r.
Proof.
  induction fuel as [|fuel IH]; intros fuel' h node r Hle Hrun;
    rewrite select_unfold in Hrun; rewrite select_unfold;
    inv_bind Hrun as n Hn; rewrite Hn; simpl;
    destruct (bool_decide (untried_moves n = []) && bool_decide (child_nodes n ≠ []));
    try done.
  destruct fuel' as [|fuel']; [lia|].
  inv_bind Hrun as node' Hnode'. rewrite Hnode'. simpl. apply IH; [lia | done].
Qed.

Lemma rollout_mono fuel : ∀ fuel' rng (st : State) r,
  (fuel ≤ fuel')%nat → rollout fuel rng st = Ok r → rollout fuel' rng st = Ok r.
Proof.
  induction fuel as [|fuel IH]; intros fuel' rng st r Hle Hrun;
    rewrite rollout_unfold in Hrun; rewrite rollout_unfold;
    destruct (get_moves st) as [|m ms]; try done.
  destruct fuel' as [|fuel']; [lia|].
  inv_bind Hrun as [m' rng'] Hm. rewrite Hm. simpl.
  inv_bind Hrun as st' Hst'. rewrite Hst'. simpl. apply IH; [lia | done].
Qed.

Lemma iteration_mono fuel fuel' root_node (s : Store) rng r :
  (fuel ≤ fuel')%nat → iteration explore fuel root_node s rng = Ok r →
  iteration explore fuel' root_node s rng = Ok r.
Proof.
  intros Hle Hrun. unfold iteration, select_expand in *.
  inv_bind Hrun as [[[s1 node] st] rng1] Hsel. inv_bind Hsel as nd Hnd.
  rewrite (select_mono _ _ _ _ _ Hle Hnd). simpl. rewrite Hsel. simpl.
  inv_bind Hrun as [st' rng2] Hroll. by rewrite (rollout_mono _ _ _ _ _ Hle Hroll).
Qed.

Lemma iterations_mono fuel fuel' count root_node : ∀ (s : Store) rng r,
  (fuel ≤ fuel')%nat → iterations explore fuel count root_node s rng = Ok r →
  iterations explore fuel' count root_node s rng = Ok r.
Proof.
  induction count as [|count IH]; intros s rng r Hle Hrun; simpl in *; [done|].
  inv_bind Hrun as [s1 rng1] Hit. rewrite (iteration_mono _ _ _ _ _ _ Hle Hit). simpl.
  by apply IH.
Qed.

Lemma uct_search_mono fuel fuel' (root_state : State) iter_max search_tree rng r :
  (fuel ≤ fuel')%nat →
  uct_search explore fuel root_state iter_max search_tree rng = Ok r →
  uct_search explore fuel' root_state iter_max search_tree rng = Ok r.
Proof.
  intros Hle Hrun. unfold uct_search in *.
  destruct (get_node _ root_state) as [s0 a].
  inv_bind Hrun as [s1 rng1] Hit. by rewrite (iterations_mono _ _ _ _ _ _ _ Hle Hit).
Qed.

End Fuel.

(** C7, as the spec has it, fails: three iterations on the game with
    repeated positions build a tree in which the flip from the second
    position leads back to the root, and pruning to the second position
    then recurses without end; so does the pruning at the end of [uct]
    when the caller's tree is a [common.SearchTree]. *)
Lemma pruning_cycle_diverges :
  (∃ root rng', ShuttleRun.searched = Ok (root, ShuttleRun.store, rng')) ∧
  closed (heap ShuttleRun.store) ∧
  (¬ ∃ fuel s',
       common_clean_sub_tree (G:=Shuttle.game) fuel ShuttleRun.store 0 1 = Ok s') ∧
  (¬ ∃ fuel r,
       uct (G:=Shuttle.game) rough_explore fuel Shuttle.init 3
           (Some (SearchTree_init CommonSearchTree)) ShuttleRun.rng = Ok r).
Proof.
  assert (∀ fuel set, traverse (G:=Shuttle.game) fuel (heap ShuttleRun.store) 1 [] ≠ Ok set)
    as Hcycle.
  { intros fuel set. apply traverse_cycle.
    exists 1%nat. split; [apply rtc_refl|].
    apply (tc_l _ 1%nat 0%nat 1%nat); [|apply tc_once].
    + eexists _, 0. split; [reflexivity|]. simpl. left.
    + eexists _, 0. split; [reflexivity|]. simpl. left. }
  split; [apply ShuttleRun_searched|]. split; [|split].
  - intros a c (n & m & Hn & Hin).
    destruct a as [|[|[|a]]]; simpl in Hn; simplify_eq; simpl in Hin;
      set_unfold; naive_solver lia.
  - intros (fuel & s' & Hrun). unfold common_clean_sub_tree in Hrun.
    inv_bind Hrun as set Htrav. by eapply Hcycle.
  - intros (fuel & r & Hrun).
    destruct (decide (fuel < 2)%nat) as [Hsmall | Hbig].
    { destruct fuel as [|[|fuel]]; [by vm_compute in Hrun.. | lia]. }
    unfold uct in Hrun. inv_bind Hrun as [[root s] rng'] Hsearch.
    assert (uct_search (G:=Shuttle.game) rough_explore 2 Shuttle.init 3
              (Some (SearchTree_init CommonSearchTree)) ShuttleRun.rng
            = Ok (SearchNode_init None None 0, ShuttleRun.store,
                  Nat.iter 6 rng_next ShuttleRun.rng)) as Hstore.
    { vm_compute. reflexivity. }
    apply (uct_search_mono _ 2 fuel) in Hstore; [|lia].
    rewrite Hstore in Hsearch. injection Hsearch as <- <- <-.
    inv_bind Hrun as selected Hsel. vm_compute in Hsel. injection Hsel as <-.
    inv_bind Hrun as s' Hclean. simpl in Hclean.
    unfold clean_sub_tree, common_clean_sub_tree in Hclean. simpl in Hclean.
    inv_bind Hclean as set Htrav. by eapply Hcycle.
Qed.

Lemma pruning_terminates_iff_no_cycle_witness :
  (∃ fuel s', common_clean_sub_tree (G:=Nim.game) fuel NimRun.store 0 1 = Ok s') ↔
  ¬ ∃ x, reachable (heap NimRun.store) 1 x ∧ on_cycle (heap NimRun.store) x.
Proof.
  apply (pruning_terminates_iff_no_cycle (G:=Nim.game) NimRun.store 0 1).
  - by apply links_forward_closed.
  - simpl. lia.
Defined.

Lemma uct_precondition_witness :
  (1 ≤ 6 ∧ Nim.get_moves (Nim.init 4) ≠ []) ∧
  uct (G:=Nim.game) rough_explore 4 (Nim.init 4) 0 None NimRun.rng
    = Err AssertionError_children ∧
  uct (G:=Nim.game) rough_explore 4 (Nim.init 0) 6 None NimRun.rng
    = Err AssertionError_children.
Proof.
  split; [|split].
  - destruct (uct_precondition (G:=Nim.game) rough_explore 4 (Nim.init 4) 6 NimRun.rng)
      as (Hok & _ & _).
    destruct (uct (G:=Nim.game) rough_explore 4 (Nim.init 4) 6 None NimRun.rng)
      as [r|e] eqn:Hrun; [by apply (Hok r) | by vm_compute in Hrun].
  - destruct (uct_precondition (G:=Nim.game) rough_explore 4 (Nim.init 4) 0 NimRun.rng)
      as (_ & Hzero & _).
    apply Hzero. lia.
  - destruct (uct_precondition (G:=Nim.game) rough_explore 4 (Nim.init 0) 6 NimRun.rng)
      as (_ & _ & Hterminal).
    apply Hterminal.
    + reflexivity.
    + intros p. eexists. reflexivity.
Defined.


(** ** Leaf parallelisation *)

Lemma fold_left_Qplus (l : list Q) (a : Q) :
  (fold_left Qplus l a == a + foldr Qplus 0 l)%Q.
Proof.
  revert a. induction l as [|x l IH]; intros a; simpl; [ring|].
  rewrite IH. ring.
Qed.

Lemma occurrences_cons_eq (a : addr) (p : list addr) :
  (occurrences a (a :: p) == 1 + occurrences a p)%Q.
Proof.
  unfold occurrences. rewrite filter_cons, decide_True by done. simpl length.
  rewrite Nat2Z.inj_succ, <- Z.add_1_l, inject_Z_plus. reflexivity.
Qed.

Lemma occurrences_cons_ne (a b : addr) (p : list addr) :
  b ≠ a → occurrences a (b :: p) = occurrences a p.
Proof. intros Hne. unfold occurrences. by rewrite filter_cons, decide_False. Qed.

Lemma occurrences_not_elem (a : addr) (p : list addr) :
  a ∉ p → occurrences a p = 0%Q.
Proof.
  intros Hnot. unfold occurrences. replace (filter _ p) with (@nil nat); [done|].
  symmetry. induction p as [|b p IH]; [done|].
  apply not_elem_of_cons in Hnot as [Hne Hnot].
  rewrite filter_cons, decide_False by done. by apply IH.
Qed.

Section Leaf.
Context `{G : Game}.
Variable explore : Q → Q → Q.

Lemma rollout_Ok_terminal fuel : ∀ rng (st t : State) rng',
  rollout fuel rng st = Ok (t, rng') → get_moves t = [].
Proof.
  induction fuel as [|fuel IH]; intros rng st t rng' Hrun;
    rewrite rollout_unfold in Hrun;
    destruct (get_moves st) as [|m ms] eqn:Hmoves; try by simplify_eq.
  inv_bind Hrun as [m' rng1] Hm. inv_bind Hrun as st1 Hst1. by eapply IH.
Qed.

Lemma run_threads_spec fuel count : ∀ (st : State) trng threads,
  run_threads fuel count st trng = Ok threads →
  length threads = count ∧
  Forall (λ t, get_moves t = [] ∧ ∃ rng rng', rollout fuel rng st = Ok (t, rng'))
         threads.
Proof.
  induction count as [|count IH]; intros st trng threads Hrun; simpl in Hrun.
  - by simplify_eq.
  - inv_bind Hrun as [t rng'] Ht. inv_bind Hrun as ts Hts. simplify_eq.
    apply IH in Hts as [Hlen Hall]. split; [by rewrite <- Hlen|].
    constructor; [|done]. split; [by eapply rollout_Ok_terminal | by eauto].
Qed.

Lemma thread_results_length (threads : list State) p rs :
  thread_results threads p = Ok rs → length rs = length threads.
Proof.
  revert rs. induction threads as [|t ts IH]; intros rs Hrun; simpl in Hrun.
  - by simplify_eq.
  - inv_bind Hrun as r Hr. inv_bind Hrun as rs' Hrs. simplify_eq. simpl.
    by rewrite (IH rs').
Qed.

Lemma leaf_result_mean (threads : list State) parallel_count p r :
  1 ≤ parallel_count → length threads = Z.to_nat parallel_count →
  leaf_result threads parallel_count p = Ok r →
  ∃ rs, thread_results threads p = Ok rs ∧ length rs = Z.to_nat parallel_count ∧
        (r == mean rs)%Q.
Proof.
  intros Hpos Hlen Hrun. unfold leaf_result in Hrun.
  inv_bind Hrun as rs Hrs. inv_bind Hrun as u Hu. simplify_eq.
  exists rs. split; [done|].
  assert (length rs = Z.to_nat parallel_count) as Hlen'.
  { by rewrite (thread_results_length _ _ _ Hrs). }
  split; [done|]. unfold mean, sum. rewrite Hlen', Z2Nat.id by lia.
  rewrite fold_left_Qplus. by rewrite Qplus_0_l.
Qed.




End Leaf.

(** ** [max] with a key *)

Lemma Qgt_bool_true (k best : Q) : Qgt_bool k best = true ↔ (best < k)%Q.
Proof.
  unfold Qgt_bool. rewrite negb_true_iff, <- not_true_iff_false, Qle_bool_iff.
  split; [apply Qnot_le_lt | apply Qlt_not_le].
Qed.

Lemma Qgt_bool_false (k best : Q) : Qgt_bool k best = false ↔ (k <= best)%Q.
Proof. unfold Qgt_bool. by rewrite negb_false_iff, Qle_bool_iff. Qed.

Section PyMaxSpec.
Context {A : Type} (key : A → result Q).

Lemma max_from_spec (l : list A) : ∀ best kbest x,
  key best = Ok kbest → max_from key best kbest l = Ok x →
  (x = best ∨ x ∈ l) ∧
  ∃ kx, key x = Ok kx ∧ (kbest <= kx)%Q ∧
        ∀ y, y ∈ l → ∃ ky, key y = Ok ky ∧ (ky <= kx)%Q.
Proof.
  induction l as [|y l IH]; intros best kbest x Hbest Hrun; simpl in Hrun.
  - simplify_eq. split; [by left|]. exists kbest. split; [done|].
    split; [apply Qle_refl | by intros y ?%elem_of_nil].
  - inv_bind Hrun as ky Hy. destruct (Qgt_bool ky kbest) eqn:Hgt.
    + apply Qgt_bool_true in Hgt.
      destruct (IH _ _ _ Hy Hrun) as (Hx & kx & Hkx & Hle & Hall).
      split; [destruct Hx as [-> | ?]; right; by constructor|].
      exists kx. split; [done|]. split; [lra|].
      intros z [-> | Hz]%elem_of_cons; [by exists ky | by apply Hall].
    + apply Qgt_bool_false in Hgt.
      destruct (IH _ _ _ Hbest Hrun) as (Hx & kx & Hkx & Hle & Hall).
      split; [destruct Hx as [-> | ?]; [by left | right; by constructor]|].
      exists kx. split; [done|]. split; [done|].
      intros z [-> | Hz]%elem_of_cons; [exists ky; split; [done | lra] | by apply Hall].
Qed.

Lemma py_max_spec (l : list A) x :
  py_max key l = Ok x →
  x ∈ l ∧ ∃ kx, key x = Ok kx ∧ ∀ y, y ∈ l → ∃ ky, key y = Ok ky ∧ (ky <= kx)%Q.
Proof.
  destruct l as [|b l]; simpl; [done|]. intros Hrun. inv_bind Hrun as kb Hb.
  destruct (max_from_spec _ _ _ _ Hb Hrun) as (Hx & kx & Hkx & Hle & Hall).
  split; [destruct Hx as [-> | ?]; [by left | by right]|].
  exists kx. split; [done|].
  intros y [-> | Hy]%elem_of_cons; [by exists kb | by apply Hall].
Qed.

Lemma max_from_defined (l : list A) : ∀ best kbest,
  (∀ y, y ∈ l → ∃ ky, key y = Ok ky) → ∃ x, max_from key best kbest l = Ok x.
Proof.
  induction l as [|y l IH]; intros best kbest Hkeys; simpl; [by eexists|].
  destruct (Hkeys y) as [ky ->]; [by left|]. simpl.
  destruct (Qgt_bool ky kbest); apply IH; intros z Hz; apply Hkeys; by right.
Qed.

Lemma py_max_defined (l : list A) :
  l ≠ [] → (∀ y, y ∈ l → ∃ ky, key y = Ok ky) → ∃ x, py_max key l = Ok x.
Proof.
  destruct l as [|b l]; [done|]. intros _ Hkeys. simpl.
  destruct (Hkeys b) as [kb ->]; [by left|]. simpl.
  apply max_from_defined. intros z Hz. apply Hkeys. by right.
Qed.

End PyMaxSpec.


(** ** Dictionaries *)

Section DictSpec.
Context {K : Type} `{EqDecision K}.

Lemma dict_get_NoDup {V} (d : list (K * V)) k v :
  NoDup d.*1 → (k, v) ∈ d → dict_get d k = Some v.
Proof.
  induction d as [|[k' v'] d IH]; simpl; intros Hnodup Hin; [by apply elem_of_nil in Hin|].
  apply NoDup_cons in Hnodup as [Hk' Hnodup].
  apply elem_of_cons in Hin as [[= -> ->] | Hin]; [by rewrite decide_True|].
  rewrite decide_False; [by apply IH|].
  intros ->. apply Hk'. apply list_elem_of_fmap. by exists (k', v).
Qed.

Lemma dict_add_get (d : list (K * Q)) k v k' :
  dict_get (dict_add Qplus 0%Q d k v) k' =
    if decide (k' = k) then Some (dict_get0 d k + v)%Q else dict_get d k'.
Proof.
  unfold dict_get0. induction d as [|[k0 v0] d IH]; simpl.
  - by destruct (decide (k' = k)).
  - destruct (decide (k = k0)) as [-> | Hne]; simpl.
    + by destruct (decide (k' = k0)).
    + destruct (decide (k' = k0)) as [-> | Hne'].
      * by rewrite decide_False by done.
      * apply IH.
Qed.

Lemma dict_add_keys (d : list (K * Q)) k v :
  (dict_add Qplus 0%Q d k v).*1 = if decide (k ∈ d.*1) then d.*1 else d.*1 ++ [k].
Proof.
  induction d as [|[k0 v0] d IH]; csimpl; [done|].
  destruct (decide (k = k0)) as [-> | Hne]; csimpl.
  - rewrite decide_True; [done | by left].
  - rewrite IH. destruct (decide (k ∈ d.*1)) as [Hin | Hnot].
    + rewrite decide_True; [done | by right].
    + rewrite decide_False; [done|]. by intros [? | ?]%elem_of_cons.
Qed.

Lemma dict_add_NoDup (d : list (K * Q)) k v :
  NoDup d.*1 → NoDup (dict_add Qplus 0%Q d k v).*1.
Proof.
  intros Hd. rewrite dict_add_keys. case_decide; [done|].
  apply NoDup_app. split; [done|]. split; [|apply NoDup_singleton].
  by intros x Hx ->%list_elem_of_singleton.
Qed.

Lemma dict_get0_add (d : list (K * Q)) k v k' :
  (dict_get0 (dict_add Qplus 0%Q d k v) k' ==
     dict_get0 d k' + (if decide (k' = k) then v else 0))%Q.
Proof.
  unfold dict_get0 at 1. rewrite dict_add_get.
  destruct (decide (k' = k)) as [-> | Hne]; simpl; [reflexivity|].
  fold (dict_get0 d k'). ring.
Qed.

Lemma dict_get0_cons (d : list (K * Q)) k v k' :
  dict_get0 ((k, v) :: d) k' = if decide (k' = k) then v else dict_get0 d k'.
Proof. unfold dict_get0. simpl. by destruct (decide (k' = k)). Qed.

Lemma dict_get0_not_elem (d : list (K * Q)) k : k ∉ d.*1 → dict_get0 d k = 0%Q.
Proof. intros Hk%dict_get_None. unfold dict_get0. by rewrite Hk. Qed.

End DictSpec.

Section SumValues.
Context `{G : Game}.

Lemma add_values_NoDup (r : list (Move * Q)) : ∀ d,
  NoDup d.*1 → NoDup (add_values d r).*1.
Proof.
  unfold add_values. induction r as [|[k v] r IH]; intros d Hd; simpl; [done|].
  apply IH. by apply dict_add_NoDup.
Qed.

Lemma add_values_get (r : list (Move * Q)) m : ∀ d,
  NoDup r.*1 →
  (dict_get0 (add_values d r) m == dict_get0 d m + dict_get0 r m)%Q.
Proof.
  unfold add_values. induction r as [|[k v] r IH]; intros d Hr; csimpl.
  - unfold dict_get0 at 3. simpl. ring.
  - apply NoDup_cons in Hr as [Hk Hr]. rewrite IH by done.
    rewrite dict_get0_add, dict_get0_cons.
    destruct (decide (m = k)) as [-> | Hne]; [|ring].
    rewrite (dict_get0_not_elem r k) by done. ring.
Qed.

Lemma sum_values_NoDup (results : list (list (Move * Q) * nat)) :
  NoDup (sum_values results).*1.
Proof.
  unfold sum_values. generalize (NoDup_nil_2 (A:=Move)).
  change (@nil Move) with ((@nil (Move * Q)).*1). generalize (@nil (Move * Q)).
  induction results as [|r results IH]; intros d Hd; simpl; [done|].
  apply IH. by apply add_values_NoDup.
Qed.

Lemma sum_values_get (results : list (list (Move * Q) * nat)) m :
  Forall (λ r, NoDup r.1.*1) results →
  (dict_get0 (sum_values results) m ==
     foldr (λ r acc, dict_get0 r.1 m + acc) 0 results)%Q.
Proof.
  unfold sum_values. intros Hall.
  assert (∀ d, (dict_get0 (fold_left (λ d r, add_values d r.1) results d) m ==
    dict_get0 d m + foldr (λ r acc, dict_get0 r.1 m + acc) 0 results)%Q) as Hgen.
  { induction Hall as [|r results Hr _ IH]; intros d; simpl; [ring|].
    rewrite IH, add_values_get by done. ring. }
  rewrite Hgen. unfold dict_get0 at 1. simpl. ring.
Qed.

End SumValues.

(** ** Root parallelisation *)

Section Root.
Context `{G : Game}.
Variable explore : Q → Q → Q.
Hypothesis get_result_range :
  ∀ st p r, get_result st p = Ok r → (0 <= r)%Q ∧ (r <= 1)%Q.

Lemma Quiescent_keys_NoDup (s : Store) :
  Quiescent explore s → Forall (λ n, NoDup (keys (child_nodes n))) (heap s).
Proof.
  apply (Quiescent_Forall explore (λ n, NoDup (keys (child_nodes n)))).
  - intros st. apply NoDup_nil_2.
  - by intros n st p r.
  - intros n m c Hn _. unfold add_child, keys in *. simpl.
    destruct (dict_mem (child_nodes n) m) eqn:Hmem; [done|].
    rewrite fmap_app. apply NoDup_app. split; [done|].
    split; [|apply NoDup_singleton].
    intros x Hx ->%list_elem_of_singleton.
    simpl in Hx. apply dict_mem_keys in Hx. by rewrite Hx in Hmem.
Qed.

Lemma Quiescent_stats (s : Store) :
  Quiescent explore s → Forall stats_bounded (heap s).
Proof using get_result_range.
  apply (Quiescent_Forall explore).
  - intros st. apply stats_bounded_intro; simpl; lra.
  - intros n st p r Hn [Hr0 Hr1]%get_result_range. by apply stats_bounded_update.
  - intros n m c (Hv & Hw & Hwv & _) _. by apply stats_bounded_intro.
Qed.

Lemma uct_Quiescent fuel root_state iter_max s0 rng mv s rng' :
  Quiescent explore s0 →
  uct explore fuel root_state iter_max (Some s0) rng = Ok (mv, s, rng') →
  Quiescent explore s.
Proof.
  intros Hq Hrun. unfold uct in Hrun.
  inv_bind Hrun as [[root s1] rng1] Hsearch. inv_bind Hrun as sel Hsel.
  inv_bind Hrun as s2 Hclean. simplify_eq.
  apply uct_search_Quiescent in Hsearch; [|by intros ? [= <-]].
  rewrite bool_decide_eq_true_2 in Hclean by by eexists.
  by eapply Q_clean.
Qed.

Lemma dict_set_fresh {V} (d : list (Move * V)) k v :
  k ∉ d.*1 → dict_set d k v = d ++ [(k, v)].
Proof.
  induction d as [|[k' v'] d IH]; csimpl; [done|].
  intros [Hne Hk]%not_elem_of_cons. rewrite decide_False by done. by rewrite IH.
Qed.

Lemma dict_of_list_NoDup {V} (l : list (Move * V)) :
  NoDup l.*1 → dict_of_list l = l.
Proof.
  unfold dict_of_list. intros Hl.
  assert (∀ acc, NoDup (acc ++ l).*1 →
    fold_left (λ d kv, dict_set d kv.1 kv.2) l acc = acc ++ l) as Hgen.
  { clear Hl. induction l as [|[k v] l IH]; intros acc Hacc; simpl.
    - by rewrite app_nil_r.
    - rewrite dict_set_fresh.
      + rewrite IH; rewrite <- app_assoc; done.
      + rewrite fmap_app in Hacc. apply NoDup_app in Hacc as (_ & Hdisj & _).
        intros Hk. apply (Hdisj k Hk). by left. }
  by apply (Hgen []).
Qed.

Lemma child_values_spec (h : list TreeNode) (items : list (Move * addr)) vs :
  child_values h items = Ok vs →
  vs.*1 = items.*1 ∧
  ∀ m, dict_get vs m =
         match dict_get items m with
         | Some c => value <$> h !! c
         | None => None
         end.
Proof.
  revert vs. induction items as [|[m0 c0] items IH]; intros vs Hrun; simpl in Hrun.
  - by simplify_eq.
  - inv_bind Hrun as n Hn. apply of_option_Ok in Hn. inv_bind Hrun as vs' Hvs.
    simplify_eq. destruct (IH _ Hvs) as [Hkeys Hget]. split; [csimpl; by f_equal|].
    intros m. simpl. destruct (decide (m = m0)); [by rewrite Hn | apply Hget].
Qed.

(** What a worker reports, in terms of its tree. *)
Lemma SearchWorker_run_spec fuel (root_state : State) iter_max rng vals sz :
  SearchWorker_run explore fuel root_state iter_max rng = Ok (vals, sz) →
  ∃ mv s rng',
    uct explore fuel root_state iter_max (Some (SearchTree_init NoCleanSearchTree)) rng
      = Ok (mv, s, rng') ∧
    NoDup vals.*1 ∧
    ∀ m, dict_get0 vals m = child_value (get_node s root_state).1
                                         (get_node s root_state).2 m ∧
         (0 <= child_value (get_node s root_state).1 (get_node s root_state).2 m)%Q.
Proof using get_result_range.
  intros Hrun. unfold SearchWorker_run in Hrun.
  inv_bind Hrun as [[mv s] rng'] Huct. exists mv, s, rng'. split; [done|].
  assert (Quiescent explore (get_node s root_state).1) as Hq.
  { apply Q_get_node. eapply uct_Quiescent; [apply Q_init | done]. }
  destruct (get_node s root_state) as [s' a]. simpl in *.
  inv_bind Hrun as root Hroot. apply of_option_Ok in Hroot.
  inv_bind Hrun as vs Hvs. simplify_eq.
  destruct (child_values_spec _ _ _ Hvs) as [Hkeys Hget].
  assert (NoDup vs.*1) as Hnodup.
  { rewrite Hkeys.
    by apply (Forall_lookup_1 _ _ _ _ (Quiescent_keys_NoDup _ Hq) Hroot). }
  rewrite dict_of_list_NoDup by done. split; [done|].
  intros m. unfold dict_get0, child_value. rewrite Hroot, Hget.
  destruct (dict_get (child_nodes root) m) as [c|]; [|done].
  destruct (heap s' !! c) as [n|] eqn:Hn; [|done]. simpl. unfold value.
  split; [done|].
  destruct (Forall_lookup_1 _ _ _ _ (Quiescent_stats _ Hq) Hn) as (_ & _ & _ & Hpos & _).
  exact Hpos.
Qed.

Lemma run_workers_spec fuel count (root_state : State) iter_max : ∀ rngs results,
  run_workers explore fuel count root_state iter_max rngs = Ok results →
  ∃ trees : list (Store * addr),
    length trees = count ∧
    (∀ i t, trees !! i = Some t → ∃ mv s rng',
       uct explore fuel root_state iter_max
           (Some (SearchTree_init NoCleanSearchTree)) (rngs i) = Ok (mv, s, rng') ∧
       get_node s root_state = t) ∧
    Forall (λ r, NoDup r.1.*1) results ∧
    ∀ m, foldr (λ r acc, dict_get0 r.1 m + acc)%Q 0%Q results = summed_value trees m ∧
         (0 <= summed_value trees m)%Q.
Proof using get_result_range.
  induction count as [|count IH]; intros rngs results Hrun; simpl in Hrun.
  - simplify_eq. exists []. split; [done|]. split; [by intros i t ?|].
    split; [constructor|]. intros m. by split.
  - inv_bind Hrun as [vals sz] Hworker. inv_bind Hrun as rs Hrs. simplify_eq.
    apply SearchWorker_run_spec in Hworker as (mv & s & rng' & Huct & Hnodup & Hvals).
    destruct (IH _ _ Hrs) as (trees & Hlen & Htrees & Hall & Hsum).
    exists (get_node s root_state :: trees). split; [by rewrite <- Hlen|].
    split; [|split; [by constructor|]].
    + intros [|i] t Hi; simpl in Hi; [|by apply (Htrees i)].
      simplify_eq. by exists mv, s, rng'.
    + intros m. destruct (Hsum m) as [Heq Hpos]. destruct (Hvals m) as [Hv Hv0].
      simpl. rewrite Heq, Hv. split; [done|].
      set (v0 := child_value _ _ _) in *. set (v1 := summed_value _ _) in *. lra.
Qed.

(** C5: each of the [PARALLEL_COUNT] workers runs the sequential [uct]
    on a tree of its own for [iter_max / PARALLEL_COUNT] iterations, and
    the move returned maximises the sum, over the workers, of the wins
    over the visits of the root's child for that move (the two fields of
    the child in the worker's tree, summed by [summed_value]), a worker
    whose root has no such child counting 0; the game's results lie in
    [0, 1]. *)
Theorem root_uct_argmax fuel parallel_count (root_state : State) iter_max rngs m :
  root_uct explore fuel parallel_count root_state iter_max rngs = Ok m →
  ∃ trees : list (Store * addr),
    length trees = Z.to_nat parallel_count ∧
    (∀ i t, trees !! i = Some t → ∃ mv s rng',
       uct explore fuel root_state (iter_max `div` parallel_count)
           (Some (SearchTree_init NoCleanSearchTree)) (rngs i) = Ok (mv, s, rng') ∧
       get_node s root_state = t) ∧
    ∀ m', (summed_value trees m' <= summed_value trees m)%Q.
Proof using get_result_range.
  intros Hrun. unfold root_uct in Hrun.
  inv_bind Hrun as results Hworkers. inv_bind Hrun as [k v] Hmax.
  injection Hrun as <-. simpl in *.
  apply run_workers_spec in Hworkers as (trees & Hlen & Htrees & Hall & Hsum).
  exists trees. split; [done|]. split; [done|].
  apply py_max_spec in Hmax as (Hin & kx & [= <-] & Hle). simpl.
  assert (∀ m0, (dict_get0 (sum_values results) m0 == summed_value trees m0)%Q) as Hget.
  { intros m0. rewrite sum_values_get by done. by destruct (Hsum m0) as [-> _]. }
  assert (dict_get0 (sum_values results) k = v) as Hk.
  { unfold dict_get0. by rewrite (dict_get_NoDup _ k v (sum_values_NoDup results) Hin). }
  intros m'. rewrite <- !Hget, Hk. unfold dict_get0.
  destruct (dict_get (sum_values results) m') as [v'|] eqn:Hm'; simpl.
  - apply dict_get_elem in Hm'. by destruct (Hle _ Hm') as (ky & [= <-] & ?).
  - rewrite <- Hk, Hget. by destruct (Hsum k) as [_ ?].
Qed.

End Root.


(** ** The parallel variants on Nim *)

Lemma root_uct_argmax_witness :
  ∃ m, root_uct (G:=Nim.game) rough_explore 4 2 (Nim.init 4) 12 ParallelRun.rngs = Ok m ∧
  ∃ trees : list (@Store Nim.game * nat),
    length trees = 2%nat ∧
    (∀ i t, trees !! i = Some t → ∃ mv s rng',
       uct (G:=Nim.game) rough_explore 4 (Nim.init 4) (12 `div` 2)
           (Some (SearchTree_init NoCleanSearchTree)) (ParallelRun.rngs i)
         = Ok (mv, s, rng') ∧
       get_node s (Nim.init 4) = t) ∧
    ∀ m', (summed_value trees m' <= summed_value trees m)%Q.
Proof.
  destruct (root_uct (G:=Nim.game) rough_explore 4 2 (Nim.init 4) 12 ParallelRun.rngs)
    as [m|e] eqn:Hrun; [|by vm_compute in Hrun].
  exists m. split; [done|].
  apply (root_uct_argmax (G:=Nim.game) rough_explore Nim_get_result_range 4 2
           (Nim.init 4) 12 ParallelRun.rngs m Hrun).
Defined.

(** ** The sequential search returns the best child of the root *)

Section Best.
Context `{G : Game}.
Variable explore : Q → Q → Q.
Variable valid : State → Prop.
Variable rank : State → nat.
Hypothesis contract : Contract valid rank.

Implicit Types (h : list TreeNode) (n : TreeNode) (s : Store).

Lemma heap_le_refl h : heap_le h h.
Proof. intros a n Hn. by exists n. Qed.

Lemma heap_le_trans h1 h2 h3 : heap_le h1 h2 → heap_le h2 h3 → heap_le h1 h3.
Proof.
  intros H12 H23 a n Hn. destruct (H12 a n Hn) as (n2 & Hn2 & Hst2 & Hch2).
  destruct (H23 a n2 Hn2) as (n3 & Hn3 & Hst3 & Hch3).
  exists n3. split; [done|]. split; [congruence | auto].
Qed.

Lemma heap_le_app h x : heap_le h (h ++ [x]).
Proof.
  intros a n Hn. exists n. split; [|done].
  rewrite lookup_app_l; [done | by eapply lookup_lt_Some].
Qed.

Lemma heap_le_insert h a n n' :
  h !! a = Some n → state n' = state n →
  (child_nodes n ≠ [] → child_nodes n' ≠ []) →
  heap_le h (<[a := n']> h).
Proof.
  intros Hn Hst Hch b nb Hb. destruct (decide (b = a)) as [-> | Hne].
  - exists n'. rewrite Hn in Hb. injection Hb as <-.
    split; [|done]. apply list_lookup_insert_eq. by eapply lookup_lt_Some.
  - exists nb. by rewrite list_lookup_insert_ne.
Qed.

Lemma node_ok_mono h h' n : heap_le h h' → node_ok valid h n → node_ok valid h' n.
Proof.
  intros Hle (Hvalid & Hnodup & Hpart & Hch). split; [done|]. split; [done|].
  split; [done|]. intros m c Hmc. destruct (Hch m c Hmc) as (nc & Hnc & Hmove).
  destruct (Hle c nc Hnc) as (nc' & Hnc' & Hst & _). exists nc'. by rewrite Hst.
Qed.

Lemma heap_ok_app h st : heap_ok valid h → valid st → heap_ok valid (h ++ [TreeNode_init st]).
Proof using contract.
  intros Hh Hst. unfold heap_ok. apply Forall_app. split.
  - eapply Forall_impl; [exact Hh|]. intros n. apply node_ok_mono, heap_le_app.
  - apply Forall_singleton. split; [done|].
    destruct (partitioned_init (moves_NoDup _ _ contract) st) as [? ?].
    split; [done|]. split; [done|]. by intros m c ?%elem_of_nil.
Qed.

Lemma heap_ok_insert h a n n' :
  heap_ok valid h → h !! a = Some n → state n' = state n →
  (child_nodes n ≠ [] → child_nodes n' ≠ []) →
  node_ok valid (<[a := n']> h) n' →
  heap_ok valid (<[a := n']> h).
Proof.
  intros Hh Hn Hst Hch Hn'. unfold heap_ok. apply Forall_insert; [|done].
  eapply Forall_impl; [exact Hh|]. intros nb. apply node_ok_mono.
  by eapply heap_le_insert.
Qed.

Lemma heap_ok_update h a n r :
  heap_ok valid h → h !! a = Some n → heap_ok valid (<[a := update n r]> h).
Proof.
  intros Hh Hn. eapply heap_ok_insert; [done..|].
  apply (node_ok_mono h); [by eapply heap_le_insert|].
  by apply (Forall_lookup_1 _ _ _ _ Hh Hn).
Qed.

Lemma pool_ok_mono h h' p : heap_le h h' → pool_ok h p → pool_ok h' p.
Proof.
  intros Hle Hp k a Hka. destruct (Hp k a Hka) as (n & Hn & Hk).
  destruct (Hle a n Hn) as (n' & Hn' & Hst & _). exists n'. by rewrite Hst.
Qed.

(** Looking a state up gives a node that holds it. *)
Lemma get_node_ok s st :
  heap_ok valid (heap s) → pool_ok (heap s) (pool s) → valid st →
  heap_ok valid (heap (get_node s st).1) ∧
  pool_ok (heap (get_node s st).1) (pool (get_node s st).1) ∧
  heap_le (heap s) (heap (get_node s st).1) ∧
  ∃ n, heap (get_node s st).1 !! (get_node s st).2 = Some n ∧ state n = st.
Proof using contract.
  intros Hh Hp Hst. unfold get_node.
  destruct (dict_get (pool s) (repr st)) as [a|] eqn:Hget; simpl.
  - split; [done|]. split; [done|]. split; [apply heap_le_refl|].
    apply dict_get_elem in Hget. destruct (Hp _ _ Hget) as (n & Hn & Hk).
    exists n. split; [done|].
    apply (repr_inj _ _ contract); [|done..].
    by destruct (Forall_lookup_1 _ _ _ _ Hh Hn) as [? _].
  - split; [by apply heap_ok_app|]. split; [|split; [apply heap_le_app|]].
    + intros k a [Hka | Hka%list_elem_of_singleton]%elem_of_app.
      * eapply pool_ok_mono; [apply heap_le_app | done..].
      * simplify_eq. exists (TreeNode_init st). split; [|done].
        by rewrite lookup_app_r, Nat.sub_diag.
    + exists (TreeNode_init st). split; [|done].
      by rewrite lookup_app_r, Nat.sub_diag.
Qed.

Lemma child_is_move n m c :
  partitioned n → (m, c) ∈ child_nodes n → m ∈ get_moves (state n).
Proof.
  intros [_ Hunion] Hmc. apply Hunion. right.
  apply list_elem_of_fmap. by exists (m, c).
Qed.

(** Selecting a child: it is defined and picks a child of greatest UCB. *)
Lemma uct_select_child_spec h node n constant :
  heap_ok valid h → path_valid h node → h !! tree_node node = Some n →
  child_nodes n ≠ [] →
  ∃ m c nc,
    uct_select_child explore h node constant
      = Ok (SearchNode_init (Some m) (Some node) c) ∧
    (m, c) ∈ child_nodes n ∧ h !! c = Some nc ∧
    do_move (state n) m = Ok (state nc) ∧
    ∀ m' c' nc', (m', c') ∈ child_nodes n → h !! c' = Some nc' →
      (ucb explore nc' n constant <= ucb explore nc n constant)%Q.
Proof.
  intros Hh Hpath Hn Hchildren.
  destruct (Forall_lookup_1 _ _ _ _ Hh Hn) as (_ & _ & _ & Hch).
  unfold uct_select_child.
  replace (deref h (tree_node node)) with (Ok n) by (symmetry; by apply of_option_Ok).
  simpl. rewrite bool_decide_eq_true_2 by done. simpl.
  set (key := λ mn : Move * nat, n0 ← deref h mn.2; Ok (ucb explore n0 n constant)).
  destruct (py_max_defined key (child_nodes n) Hchildren) as [[m c] Hmax].
  { intros [m' c'] Hin. destruct (Hch _ _ Hin) as (nc' & Hnc' & _).
    unfold key, deref. simpl. rewrite Hnc'. by eexists. }
  rewrite Hmax. simpl.
  apply py_max_spec in Hmax as (Hin & kx & Hkx & Hle).
  destruct (Hch _ _ Hin) as (nc & Hnc & Hmove).
  exists m, c, nc. split; [done|]. split; [done|]. split; [done|]. split; [done|].
  intros m' c' nc' Hin' Hnc'. destruct (Hle _ Hin') as (ky & Hky & Hkle).
  unfold key, deref in Hkx, Hky. simpl in Hkx, Hky.
  rewrite Hnc in Hkx. rewrite Hnc' in Hky. simpl in Hkx, Hky. by simplify_eq.
Qed.

Lemma path_valid_child h node m c :
  path_valid h node → is_Some (h !! c) →
  path_valid h (SearchNode_init (Some m) (Some node) c).
Proof.
  intros Hpath Hc a. simpl. intros [-> | Ha]%elem_of_cons; [done | by apply Hpath].
Qed.

(** The Select loop returns, at a node that can be expanded or has no
    child, no deeper in the game than where it started. *)
Lemma select_defined h fuel : ∀ node n,
  heap_ok valid h → path_valid h node → h !! tree_node node = Some n →
  (rank (state n) ≤ fuel)%nat →
  ∃ node' n',
    select explore fuel h node = Ok node' ∧
    path_valid h node' ∧ h !! tree_node node' = Some n' ∧
    (rank (state n') ≤ rank (state n))%nat ∧
    (untried_moves n' = [] → child_nodes n' = []) ∧
    (untried_moves n ≠ [] → node' = node).
Proof using contract.
  induction fuel as [|fuel IH]; intros node n Hh Hpath Hn Hrank;
    rewrite select_unfold; unfold deref; rewrite Hn; simpl;
    destruct (decide (untried_moves n = [])) as [Huntried | Huntried];
    destruct (decide (child_nodes n = [])) as [Hchildren | Hchildren];
    rewrite ?(bool_decide_eq_true_2 _ Huntried), ?(bool_decide_eq_false_2 _ Huntried),
      ?(bool_decide_eq_true_2 _ Hchildren);
    try rewrite (bool_decide_eq_false_2 (child_nodes n ≠ [])) by (by intros []);
    simpl;
    try (exists node, n; split; [done|]; split; [done|]; split; [done|];
         split; [lia|]; split; done).
  - destruct (uct_select_child_spec h node n 1 Hh Hpath Hn Hchildren)
      as (m & c & nc & _ & Hin & Hnc & Hmove & _).
    destruct (Forall_lookup_1 _ _ _ _ Hh Hn) as (Hvalid & _ & Hpart & _).
    pose proof (move_rank _ _ contract _ _ _ Hvalid (child_is_move _ _ _ Hpart Hin) Hmove).
    lia.
  - destruct (uct_select_child_spec h node n 1 Hh Hpath Hn Hchildren)
      as (m & c & nc & -> & Hin & Hnc & Hmove & _). simpl.
    destruct (Forall_lookup_1 _ _ _ _ Hh Hn) as (Hvalid & _ & Hpart & _).
    pose proof (move_rank _ _ contract _ _ _ Hvalid (child_is_move _ _ _ Hpart Hin) Hmove).
    destruct (IH (SearchNode_init (Some m) (Some node) c) nc)
      as (node' & n' & Hsel & Hpath' & Hn' & Hrank' & Hleaf & _); [done| |done|lia|].
    { by apply path_valid_child. }
    exists node', n'. split; [done|]. split; [done|]. split; [done|].
    split; [lia|]. split; done.
Qed.

Lemma path_valid_mono h h' node : heap_le h h' → path_valid h node → path_valid h' node.
Proof.
  intros Hle Hpath a Ha. destruct (Hpath a Ha) as [n Hn].
  destruct (Hle a n Hn) as (n' & Hn' & _). by eexists.
Qed.

Lemma tree_node_in_path (node : SearchNode) : tree_node node ∈ path node.
Proof. destruct node. simpl. left. Qed.

(** Select and Expand return, and keep the tree in order. *)
Lemma select_expand_defined fuel node0 n0 s rng :
  heap_ok valid (heap s) → pool_ok (heap s) (pool s) →
  path_valid (heap s) node0 → heap s !! tree_node node0 = Some n0 →
  (rank (state n0) ≤ fuel)%nat →
  ∃ s1 node st rng1,
    select_expand explore fuel node0 s rng = Ok (s1, node, st, rng1) ∧
    heap_ok valid (heap s1) ∧ pool_ok (heap s1) (pool s1) ∧
    heap_le (heap s) (heap s1) ∧ path_valid (heap s1) node ∧
    valid st ∧ (rank st ≤ rank (state n0))%nat ∧
    (untried_moves n0 ≠ [] →
       ∃ n0', heap s1 !! tree_node node0 = Some n0' ∧ child_nodes n0' ≠ []).
Proof using contract.
  intros Hh Hp Hpath Hn0 Hrank.
  destruct (select_defined (heap s) fuel node0 n0 Hh Hpath Hn0 Hrank)
    as (node & n & Hsel & Hpath' & Hn & Hrank' & Hleaf & Hsame).
  destruct (Forall_lookup_1 _ _ _ _ Hh Hn) as (Hvalid & Hnodup & Hpart & Hch).
  unfold select_expand. rewrite Hsel. simpl. unfold deref at 1. rewrite Hn. simpl.
  destruct (untried_moves n) as [|u us] eqn:Huntried.
  { exists s, node, (state n), rng. split; [done|]. split; [done|]. split; [done|].
    split; [apply heap_le_refl|]. split; [done|]. split; [done|]. split; [done|].
    intros Hne. rewrite (Hsame Hne) in Hn. rewrite Hn0 in Hn. injection Hn as ->.
    by rewrite Huntried in Hne. }
  destruct (choice_defined rng (u :: us)) as [m Hm]; [done|]. rewrite Hm. simpl.
  apply choice_elem in Hm as [Hm _]. rewrite <- Huntried in Hm.
  assert (m ∈ get_moves (state n)) as Hlegal by (apply Hpart; by left).
  destruct (move_defined _ _ contract _ _ Hvalid Hlegal) as [st' Hmove].
  rewrite Hmove. simpl.
  pose proof (move_valid _ _ contract _ _ _ Hvalid Hlegal Hmove) as Hvalid'.
  pose proof (move_rank _ _ contract _ _ _ Hvalid Hlegal Hmove) as Hrank''.
  destruct (get_node_ok s st' Hh Hp Hvalid') as (Hh2 & Hp2 & Hle2 & nc & Hnc & Hstc).
  assert (heap (get_node s st').1 !! tree_node node = Some n) as Hn2.
  { destruct (get_node_heap s st') as [-> | ->]; [done|].
    rewrite lookup_app_l; [done | by eapply lookup_lt_Some]. }
  destruct (get_node s st') as [s2 c]. simpl in *.
  unfold SearchNode_add_child, deref. rewrite Hn2. simpl.
  set (n' := add_child n m c). set (h2 := <[tree_node node := n']> (heap s2)).
  assert (child_nodes n' = child_nodes n ++ [(m, c)]) as Hchildren'.
  { unfold n', add_child. simpl.
    destruct (dict_mem (child_nodes n) m) eqn:Hmem; [|done].
    apply dict_mem_keys in Hmem. destruct Hpart as [Hdisj _]. by apply Hdisj in Hm. }
  assert (heap_le (heap s2) h2) as Hle3.
  { eapply heap_le_insert; [done..|]. intros _. rewrite Hchildren'. by destruct (child_nodes n). }
  assert (heap_ok valid h2) as Hh3.
  { eapply heap_ok_insert; [done..| |].
    { intros _. rewrite Hchildren'. by destruct (child_nodes n). }
    rewrite <- Huntried in Hnodup.
    destruct (partitioned_add_child n m c (conj Hnodup Hpart) Hm) as [Hnodup' Hpart'].
    split; [done|]. split; [done|]. split; [done|].
    intros m' c'. fold n'. rewrite Hchildren'.
    intros [Hin | Hin%list_elem_of_singleton]%elem_of_app.
    - destruct (Hch _ _ Hin) as (nc' & Hnc' & Hmove').
      destruct (Hle2 _ _ Hnc') as (nc2 & Hnc2 & Hst2 & _).
      destruct (Hle3 _ _ Hnc2) as (nc3 & Hnc3 & Hst3 & _).
      exists nc3. split; [done|]. by rewrite Hst3, Hst2.
    - injection Hin as -> ->. destruct (Hle3 _ _ Hnc) as (nc3 & Hnc3 & Hst3 & _).
      exists nc3. split; [done|]. by rewrite Hst3, Hstc. }
  exists (set_heap s2 h2), (SearchNode_init (Some m) (Some node) c), st', (rng_next rng).
  split; [done|]. simpl. split; [done|].
  split; [by eapply pool_ok_mono|]. split; [by eapply heap_le_trans|]. split.
  { apply path_valid_child.
    - eapply path_valid_mono; [|done]. by eapply heap_le_trans.
    - destruct (Hle3 _ _ Hnc) as (nc3 & Hnc3 & _). by eexists. }
  split; [done|]. split; [lia|].
  intros Hne. specialize (Hsame Hne). subst node. exists n'. split.
  - apply list_lookup_insert_eq. by eapply lookup_lt_Some.
  - rewrite Hchildren'. by destruct (child_nodes n).
Qed.

(** The Rollout loop returns, at a terminal state. *)
Lemma rollout_defined fuel : ∀ rng (st : State),
  valid st → (rank st ≤ fuel)%nat →
  ∃ t rng', rollout fuel rng st = Ok (t, rng') ∧ valid t ∧ get_moves t = [].
Proof using contract.
  induction fuel as [|fuel IH]; intros rng st Hvalid Hrank; rewrite rollout_unfold;
    destruct (get_moves st) as [|m0 ms] eqn:Hmoves; try (by exists st, rng);
    destruct (choice_defined rng (m0 :: ms)) as [m Hm]; try done;
    pose proof Hm as [Hin _]%choice_elem; rewrite <- Hmoves in Hin;
    destruct (move_defined _ _ contract _ _ Hvalid Hin) as [st' Hmove];
    pose proof (move_valid _ _ contract _ _ _ Hvalid Hin Hmove) as Hvalid';
    pose proof (move_rank _ _ contract _ _ _ Hvalid Hin Hmove) as Hrank'.
  - lia.
  - rewrite Hm. simpl. rewrite Hmove. simpl. apply IH; [done | lia].
Qed.

(** The Backpropagate loop returns, and keeps the tree in order. *)
Lemma backpropagate_defined node (t : State) : ∀ h,
  heap_ok valid h → path_valid h node → valid t → get_moves t = [] →
  ∃ h', backpropagate h node t = Ok h' ∧ heap_ok valid h' ∧ heap_le h h'.
Proof using contract.
  induction node as [m d a | m p d a IH] using SearchNode_ind;
    intros h Hh Hpath Hvalid Hterminal; simpl;
    (destruct (Hpath a) as [n Hn]; [left|]); unfold deref; rewrite Hn; simpl;
    destruct (result_defined _ _ contract t (player_just_moved (state n)) Hvalid Hterminal)
      as [r ->]; simpl.
  - eexists. split; [done|]. split; [by apply heap_ok_update|].
    by eapply heap_le_insert.
  - assert (heap_le h (<[a := update n r]> h)) as Hle by by eapply heap_le_insert.
    destruct (IH (<[a := update n r]> h)) as (h' & -> & Hh' & Hle'); [|  |done..|].
    + by apply heap_ok_update.
    + eapply path_valid_mono; [done|]. intros b Hb. apply Hpath. by right.
    + exists h'. split; [done|]. split; [done|]. by eapply heap_le_trans.
Qed.

(** One pass of the loop returns; afterwards a root with a legal move
    has a child. *)
Lemma iteration_defined fuel a0 n0 s rng :
  heap_ok valid (heap s) → pool_ok (heap s) (pool s) →
  heap s !! a0 = Some n0 → (rank (state n0) ≤ fuel)%nat →
  ∃ s' rng',
    iteration explore fuel (SearchNode_init None None a0) s rng = Ok (s', rng') ∧
    heap_ok valid (heap s') ∧ pool_ok (heap s') (pool s') ∧
    heap_le (heap s) (heap s') ∧
    (get_moves (state n0) ≠ [] →
       ∃ n0', heap s' !! a0 = Some n0' ∧ child_nodes n0' ≠ []).
Proof using contract.
  intros Hh Hp Hn0 Hrank. set (root_node := SearchNode_init None None a0).
  assert (path_valid (heap s) root_node) as Hpath.
  { intros a ->%list_elem_of_singleton. by eexists. }
  destruct (select_expand_defined fuel root_node n0 s rng Hh Hp Hpath Hn0 Hrank)
    as (s1 & node & st & rng1 & Hsel & Hh1 & Hp1 & Hle1 & Hpath1 & Hvalid & Hrank1 & Hroot).
  destruct (rollout_defined fuel rng1 st Hvalid) as (t & rng2 & Hroll & Hvalid' & Hterm);
    [lia|].
  destruct (backpropagate_defined node t (heap s1) Hh1 Hpath1 Hvalid' Hterm)
    as (h' & Hback & Hh' & Hle').
  exists (set_heap s1 h'), rng2. unfold iteration. rewrite Hsel. simpl.
  rewrite Hroll. simpl. rewrite Hback. simpl. split; [done|]. split; [done|].
  split; [by eapply pool_ok_mono|]. split; [by eapply heap_le_trans|].
  intros Hmoves.
  assert (∃ n1, heap s1 !! a0 = Some n1 ∧ child_nodes n1 ≠ []) as (n1 & Hn1 & Hch1).
  { destruct (decide (untried_moves n0 = [])) as [Huntried | Huntried];
      [|by apply Hroot].
    destruct (Hle1 _ _ Hn0) as (n1 & Hn1 & _ & Hch). exists n1. split; [done|].
    apply Hch. destruct (Forall_lookup_1 _ _ _ _ Hh Hn0) as (_ & _ & [_ Hunion] & _).
    destruct (get_moves (state n0)) as [|m ms] eqn:Hm; [done|].
    destruct (proj1 (Hunion m)) as [Hin | Hin]; [left | |].
    - rewrite Huntried in Hin. by apply elem_of_nil in Hin.
    - unfold keys in Hin. intros Hnil. rewrite Hnil in Hin. by apply elem_of_nil in Hin. }
  destruct (Hle' _ _ Hn1) as (n2 & Hn2 & _ & Hch2). exists n2. split; [done | auto].
Qed.

Lemma iterations_defined fuel a0 count : ∀ n0 s rng,
  heap_ok valid (heap s) → pool_ok (heap s) (pool s) →
  heap s !! a0 = Some n0 → (rank (state n0) ≤ fuel)%nat →
  ∃ s' rng',
    iterations explore fuel count (SearchNode_init None None a0) s rng = Ok (s', rng') ∧
    heap_ok valid (heap s') ∧ heap_le (heap s) (heap s') ∧
    (count ≠ O → get_moves (state n0) ≠ [] →
       ∃ n0', heap s' !! a0 = Some n0' ∧ child_nodes n0' ≠ []).
Proof using contract.
  induction count as [|count IH]; intros n0 s rng Hh Hp Hn0 Hrank; simpl.
  - exists s, rng. split; [done|]. split; [done|]. split; [apply heap_le_refl | done].
  - destruct (iteration_defined fuel a0 n0 s rng Hh Hp Hn0 Hrank)
      as (s1 & rng1 & -> & Hh1 & Hp1 & Hle1 & Hroot1). simpl.
    destruct (Hle1 _ _ Hn0) as (n1 & Hn1 & Hst1 & Hch1).
    destruct (IH n1 s1 rng1 Hh1 Hp1 Hn1) as (s' & rng' & -> & Hh' & Hle' & _);
      [by rewrite Hst1|].
    exists s', rng'. split; [done|]. split; [done|].
    split; [by eapply heap_le_trans|]. intros _ Hmoves.
    destruct (Hroot1 Hmoves) as (n1' & Hn1' & Hch1').
    destruct (Hle' _ _ Hn1') as (n2 & Hn2 & _ & Hch2). exists n2. split; [done | auto].
Qed.

End Best.

(** ** The leaf-parallel iteration *)

Section LeafTotal.
Context `{G : Game}.
Variable explore : Q → Q → Q.
Variable valid : State → Prop.
Variable rank : State → nat.
Hypothesis contract : Contract valid rank.





End LeafTotal.


(** ** Nim keeps the contract *)

Lemma pretty_N_go_no_space (x : N) : ∀ s, no_space s → no_space (pretty_N_go x s).
Proof.
  induction (N.lt_wf_0 x) as [x _ IH]; intros s Hs.
  assert (x = 0 ∨ 0 < x)%N as [-> | Hpos] by lia; [by rewrite pretty_N_go_0|].
  rewrite pretty_N_go_step by done. apply IH; [by apply N.div_lt|].
  split; [|done]. unfold pretty_N_char. by repeat case_match.
Qed.

Lemma pretty_Z_no_space (z : Z) : no_space (pretty z).
Proof.
  assert (∀ x : N, no_space (pretty x)) as HN.
  { intros x. unfold pretty, pretty_N. case_decide; [by split|].
    by apply pretty_N_go_no_space. }
  destruct z as [|x|x]; [by split | apply HN | split; [done | apply HN]].
Qed.

Lemma split_at_space (a a' b b' : string) :
  no_space a → no_space a' →
  a +:+ String " " b = a' +:+ String " " b' → a = a' ∧ b = b'.
Proof.
  revert a'. induction a as [|c a IH]; intros [|c' a'] Ha Ha' Heq; simpl in *.
  - by injection Heq as ->.
  - injection Heq as <- _. by destruct Ha' as [[] _].
  - injection Heq as -> _. by destruct Ha as [[] _].
  - injection Heq as -> Heq. destruct Ha as [_ Ha], Ha' as [_ Ha'].
    destruct (IH a' Ha Ha' Heq) as [-> ->]. done.
Qed.

Lemma Nim_repr_inj (st st' : Nim.NimState) : Nim.repr st = Nim.repr st' → st = st'.
Proof.
  destruct st as [p c], st' as [p' c']. unfold Nim.repr. simpl. intros Heq.
  injection Heq as Heq.
  apply split_at_space in Heq as [Hc Hp]; [|apply pretty_Z_no_space..].
  injection Hp as Hp. apply (inj pretty) in Hc, Hp. by subst.
Qed.

Lemma Nim_contract : Contract (G:=Nim.game) Nim_valid Nim_rank.
Proof.
  split; simpl; unfold Nim_valid, Nim_rank.
  - apply Nim_get_moves_NoDup.
  - intros st m _ Hm%Nim_get_moves_elem. unfold Nim.do_move.
    replace (1 <=? m) with true by lia. rewrite Z.eqb_refl. by eexists.
  - intros st m st' Hst Hm%Nim_get_moves_elem Hmove. unfold Nim.do_move in Hmove.
    inv_bind Hmove as u Hu. simplify_eq. simpl. lia.
  - intros st m st' Hst Hm%Nim_get_moves_elem Hmove. unfold Nim.do_move in Hmove.
    inv_bind Hmove as u Hu. simplify_eq. simpl. lia.
  - intros st p Hst Hnil%Nim_get_moves_nil. unfold Nim.get_result.
    replace (Nim.chips st =? 0) with true by lia. by eexists.
  - intros st st' _ _. apply Nim_repr_inj.
Qed.

(** * Further properties of the engine *)

(** ** Looking a state up *)

Section GetNode.
Context `{G : Game}.

(** Looking a state up twice finds the node of the first lookup and
    leaves the tree as the first lookup left it; the first lookup adds
    one entry exactly when the key is new, with a node of one visit and
    no win, and moves no other key. *)
Theorem get_node_again (s : Store) (st : State) :
  get_node (get_node s st).1 st = get_node s st ∧
  size (get_node s st).1 =
    (if dict_mem (pool s) (repr st) then size s else S (size s)) ∧
  (dict_mem (pool s) (repr st) = false →
     heap (get_node s st).1 !! (get_node s st).2 = Some (TreeNode_init st)) ∧
  (∀ k a, dict_get (pool s) k = Some a →
     dict_get (pool (get_node s st).1) k = Some a).
Proof.
  split; [|split; [|split]].
  - pose proof (get_node_lookup s st) as Hfound.
    destruct (get_node s st) as [s1 a]. simpl in *.
    unfold get_node. by rewrite Hfound.
  - unfold get_node, dict_mem, size.
    destruct (dict_get (pool s) (repr st)) as [a|] eqn:Hget; simpl; [done|].
    rewrite length_app. simpl. lia.
  - unfold get_node, dict_mem.
    destruct (dict_get (pool s) (repr st)) as [a|] eqn:Hget; simpl; [done|].
    intros _. by rewrite lookup_app_r, Nat.sub_diag.
  - intros k a. apply get_node_pool_mono.
Qed.

End GetNode.

(** ** The search only adds to the tree *)

Lemma remove_first_sublist {A} `{EqDecision A} (x : A) (l : list A) :
  remove_first x l `sublist_of` l.
Proof.
  induction l as [|y l IH]; simpl; [done|].
  case_decide; [by apply sublist_cons | by apply sublist_skip].
Qed.

Section Grows.
Context `{G : Game}.
Variable explore : Q → Q → Q.

Implicit Types (h : list TreeNode) (n : TreeNode) (s : Store).

Lemma node_le_refl n : node_le n n.
Proof. split; [done|]. split; [apply Qle_refl|]. done. Qed.

Lemma node_le_trans n1 n2 n3 : node_le n1 n2 → node_le n2 n3 → node_le n1 n3.
Proof.
  intros (Hs & Hv & Hc & Hu) (Hs' & Hv' & Hc' & Hu').
  split; [congruence|]. split; [by eapply Qle_trans|].
  split; by etrans.
Qed.

Lemma node_le_update n r : node_le n (update n r).
Proof. split; [done|]. split; [simpl; lra | done]. Qed.

Lemma node_le_add_child n m c : node_le n (add_child n m c).
Proof.
  split; [done|]. split; [apply Qle_refl|]. unfold add_child. simpl. split.
  - destruct (dict_mem _ _); [done | by apply prefix_app_r].
  - case_bool_decide; [apply remove_first_sublist | done].
Qed.

Lemma heap_grows_refl h : heap_grows h h.
Proof. intros a n Hn. exists n. split; [done | apply node_le_refl]. Qed.

Lemma heap_grows_trans h1 h2 h3 : heap_grows h1 h2 → heap_grows h2 h3 → heap_grows h1 h3.
Proof.
  intros H12 H23 a n Hn. destruct (H12 a n Hn) as (n2 & Hn2 & Hle2).
  destruct (H23 a n2 Hn2) as (n3 & Hn3 & Hle3).
  exists n3. split; [done | by eapply node_le_trans].
Qed.

Lemma heap_grows_app h l : heap_grows h (h ++ l).
Proof.
  intros a n Hn. exists n. split; [|apply node_le_refl].
  rewrite lookup_app_l; [done | by eapply lookup_lt_Some].
Qed.

Lemma heap_grows_insert h a n n' :
  h !! a = Some n → node_le n n' → heap_grows h (<[a := n']> h).
Proof.
  intros Hn Hle b nb Hb. destruct (decide (b = a)) as [-> | Hne].
  - exists n'. rewrite Hn in Hb. injection Hb as <-.
    split; [|done]. apply list_lookup_insert_eq. by eapply lookup_lt_Some.
  - exists nb. rewrite list_lookup_insert_ne by done. split; [done | apply node_le_refl].
Qed.

Lemma backpropagate_grows node (st : State) : ∀ h h',
  backpropagate h node st = Ok h' → heap_grows h h'.
Proof.
  induction node as [m d a | m p d a IH] using SearchNode_ind; intros h h' Hrun;
    simpl in Hrun; inv_bind Hrun as n Hn; inv_bind Hrun as r Hr;
    apply of_option_Ok in Hn.
  - simplify_eq. eapply heap_grows_insert; [done | apply node_le_update].
  - eapply heap_grows_trans; [|by apply IH].
    eapply heap_grows_insert; [done | apply node_le_update].
Qed.

(** What Select and Expand do to the store: the nodes grow, and at most
    one entry, under a new key and at the next address, is added. *)
Lemma select_expand_shape fuel root s rng s1 node st rng1 :
  select_expand explore fuel root s rng = Ok (s1, node, st, rng1) →
  heap_grows (heap s) (heap s1) ∧ tree_class s1 = tree_class s ∧
  ((pool s1 = pool s ∧ length (heap s1) = length (heap s)) ∨
   (dict_get (pool s) (repr st) = None ∧
    pool s1 = pool s ++ [(repr st, length (heap s))] ∧
    length (heap s1) = S (length (heap s)) ∧
    ∃ n, heap s1 !! length (heap s) = Some n ∧ state n = st)).
Proof.
  intros Hrun. unfold select_expand in Hrun.
  inv_bind Hrun as nd Hsel. inv_bind Hrun as n Hn. apply of_option_Ok in Hn.
  destruct (untried_moves n) as [|u untried] eqn:Huntried.
  { simplify_eq. split; [apply heap_grows_refl|]. split; [done|]. by left. }
  inv_bind Hrun as [m rng'] Hm. inv_bind Hrun as st' Hst'.
  unfold get_node in Hrun.
  destruct (dict_get (pool s) (repr st')) as [c|] eqn:Hget.
  - inv_bind Hrun as [h2 node'] Hadd. unfold SearchNode_add_child in Hadd.
    inv_bind Hadd as n2 Hn2. apply of_option_Ok in Hn2. simplify_eq. simpl.
    split; [eapply heap_grows_insert; [done | apply node_le_add_child]|].
    split; [done|]. left. by rewrite length_insert.
  - inv_bind Hrun as [h2 node'] Hadd. unfold SearchNode_add_child in Hadd.
    inv_bind Hadd as n2 Hn2. apply of_option_Ok in Hn2. simpl in *. simplify_eq. simpl.
    assert (tree_node nd < length (heap s))%nat as Hlt by by eapply lookup_lt_Some.
    split.
    { eapply heap_grows_trans; [apply (heap_grows_app _ [TreeNode_init st])|].
      eapply heap_grows_insert; [done | apply node_le_add_child]. }
    split; [done|]. right. split; [done|]. split; [done|].
    rewrite length_insert, length_app. simpl. split; [lia|].
    exists (TreeNode_init st). split; [|done].
    rewrite list_lookup_insert_ne by lia. by rewrite lookup_app_r, Nat.sub_diag.
Qed.

Lemma iteration_shape fuel root s rng s' rng' :
  iteration explore fuel root s rng = Ok (s', rng') →
  heap_grows (heap s) (heap s') ∧ tree_class s' = tree_class s ∧
  ((pool s' = pool s ∧ length (heap s') = length (heap s)) ∨
   ∃ key, dict_get (pool s) key = None ∧
     pool s' = pool s ++ [(key, length (heap s))] ∧
     length (heap s') = S (length (heap s)) ∧
     ∃ n, heap s' !! length (heap s) = Some n ∧ repr (state n) = key).
Proof.
  intros Hrun. unfold iteration in Hrun.
  inv_bind Hrun as [[[s1 node] st] rng1] Hsel.
  inv_bind Hrun as [st' rng2] Hroll. inv_bind Hrun as h Hback. simplify_eq. simpl.
  pose proof (backpropagate_grows _ _ _ _ Hback) as Hgrow.
  pose proof (backpropagate_length _ _ _ _ Hback) as Hlen.
  destruct (select_expand_shape _ _ _ _ _ _ _ _ Hsel) as (Hgrow1 & Hclass & Hpool).
  split; [by eapply heap_grows_trans|]. split; [done|]. rewrite Hlen.
  destruct Hpool as [[? ?] | (Hnew & Hpool & Hlen1 & n & Hn & Hst)]; [by left|].
  right. exists (repr st). split; [done|]. split; [done|]. split; [done|].
  destruct (Hgrow _ _ Hn) as (n' & Hn' & Hst' & _). exists n'. by rewrite Hst', Hst.
Qed.

End Grows.

Section SearchGrows.
Context `{G : Game}.
Variable explore : Q → Q → Q.

Implicit Types (h : list TreeNode) (n : TreeNode) (s : Store).

Lemma iterations_shape fuel count root : ∀ s rng s' rng',
  iterations explore fuel count root s rng = Ok (s', rng') →
  heap_grows (heap s) (heap s') ∧ tree_class s' = tree_class s ∧
  (∀ k a, dict_get (pool s) k = Some a → dict_get (pool s') k = Some a) ∧
  (size s ≤ size s' ≤ size s + count)%nat ∧
  (length (heap s) ≤ length (heap s') ≤ length (heap s) + count)%nat.
Proof.
  induction count as [|count IH]; intros s rng s' rng' Hrun; simpl in Hrun.
  - simplify_eq. split; [apply heap_grows_refl|]. split; [done|].
    split; [done|]. lia.
  - inv_bind Hrun as [s1 rng1] Hit.
    destruct (iteration_shape _ _ _ _ _ _ _ Hit) as (Hgrow1 & Hclass1 & Hpool1).
    destruct (IH _ _ _ _ Hrun) as (Hgrow & Hclass & Hpool & Hsize & Hlen).
    split; [by eapply heap_grows_trans|]. split; [congruence|].
    unfold size in *.
    destruct Hpool1 as [[Hp Hl] | (key & Hnew & Hp & Hl & _)].
    + rewrite Hp, Hl in *. split; [done|]. lia.
    + rewrite Hp, Hl in *. rewrite length_app in Hsize. simpl in Hsize.
      split; [|lia]. intros k a Hk. apply Hpool. by apply dict_get_app.
Qed.

(** A search only adds to the tree it is given: every node keeps its
    address and its state, its visits do not fall, its children are only
    appended and its untried moves only removed, and every key keeps its
    node. *)
Theorem search_only_adds fuel (root_state : State) iter_max search_tree rng root s' rng' :
  uct_search explore fuel root_state iter_max search_tree rng = Ok (root, s', rng') →
  heap_grows (heap (default (SearchTree_init CommonSearchTree) search_tree)) (heap s') ∧
  ∀ k a, dict_get (pool (default (SearchTree_init CommonSearchTree) search_tree)) k
           = Some a →
         dict_get (pool s') k = Some a.
Proof.
  intros Hrun. unfold uct_search in Hrun.
  set (tree := default _ search_tree) in *.
  pose proof (get_node_pool_mono tree root_state) as Hmono.
  pose proof (get_node_heap tree root_state) as Hheap.
  destruct (get_node tree root_state) as [s0 a0]. simpl in *.
  inv_bind Hrun as [s1 rng1] Hit. simplify_eq.
  destruct (iterations_shape _ _ _ _ _ _ _ Hit) as (Hgrow & _ & Hpool & _).
  split; [|by auto].
  eapply heap_grows_trans; [|done].
  destruct Hheap as [-> | ->]; [apply heap_grows_refl | apply heap_grows_app].
Qed.

(** A search of [iter_max] iterations adds at most [iter_max + 1]
    entries to the tree, one for the root and one for each expansion,
    and removes none before the final pruning. *)
Theorem search_adds_at_most fuel (root_state : State) iter_max search_tree rng
    root s' rng' :
  uct_search explore fuel root_state iter_max search_tree rng = Ok (root, s', rng') →
  (size (default (SearchTree_init CommonSearchTree) search_tree) ≤ size s'
   ≤ size (default (SearchTree_init CommonSearchTree) search_tree)
     + 1 + Z.to_nat iter_max)%nat.
Proof.
  intros Hrun. unfold uct_search in Hrun.
  set (tree := default _ search_tree) in *.
  destruct (get_node_again tree root_state) as (_ & Hsize & _).
  destruct (get_node tree root_state) as [s0 a0]. simpl in *.
  inv_bind Hrun as [s1 rng1] Hit. simplify_eq.
  destruct (iterations_shape _ _ _ _ _ _ _ Hit) as (_ & _ & _ & Hsize' & _).
  destruct (dict_mem _ _); lia.
Qed.

Lemma pool_ok_grows h h' (p : list (Key * nat)) :
  heap_grows h h' → pool_ok h p → pool_ok h' p.
Proof.
  intros Hgrow Hp k a Hka. destruct (Hp k a Hka) as (n & Hn & Hk).
  destruct (Hgrow a n Hn) as (n' & Hn' & Hst & _). exists n'. by rewrite Hst.
Qed.

Lemma pool_snoc_ok h h' (p : list (Key * nat)) key n :
  NoDup p.*1 → NoDup p.*2 → pool_ok h p → heap_grows h h' →
  dict_get p key = None → h' !! length h = Some n → repr (state n) = key →
  NoDup (p ++ [(key, length h)]).*1 ∧ NoDup (p ++ [(key, length h)]).*2 ∧
  pool_ok h' (p ++ [(key, length h)]).
Proof.
  intros Hkeys Haddrs Hp Hgrow Hnew Hn Hkey. rewrite !fmap_app. simpl.
  split; [|split].
  - apply NoDup_app. split; [done|]. split; [|apply NoDup_singleton].
    intros k Hk ->%list_elem_of_singleton. by apply dict_get_None in Hnew.
  - apply NoDup_app. split; [done|]. split; [|apply NoDup_singleton].
    intros a Ha Heq%list_elem_of_singleton.
    apply list_elem_of_fmap in Ha as ([k a'] & Ha' & Hka). simpl in *.
    destruct (Hp _ _ Hka) as (n0 & Hn0%lookup_lt_Some & _). lia.
  - intros k a [Hka | Hka%list_elem_of_singleton]%elem_of_app.
    + by eapply pool_ok_grows.
    + simplify_eq. by exists n.
Qed.

(** The pool is a dictionary of the nodes by the key of their state: in
    every store between iterations no key and no node occurs twice, and
    every entry leads to a node whose state has the key of the entry. *)
Theorem pool_keys_nodes (s : Store) :
  Quiescent explore s →
  NoDup (pool s).*1 ∧ NoDup (pool s).*2 ∧ pool_ok (heap s) (pool s).
Proof.
  induction 1 as [c | s st _ IH | fuel s rs a rng s' rng' _ IH _ Hrun
                  | fuel s root ignored s' _ IH Hrun].
  - split; [constructor|]. split; [constructor|]. by intros k a ?%elem_of_nil.
  - destruct IH as (Hkeys & Haddrs & Hp). unfold get_node.
    destruct (dict_get (pool s) (repr st)) as [a|] eqn:Hget; simpl; [done|].
    apply (pool_snoc_ok _ (heap s ++ [TreeNode_init st]) _ _ (TreeNode_init st));
      [done | done | done | apply heap_grows_app | done | | done].
    by rewrite lookup_app_r, Nat.sub_diag.
  - destruct IH as (Hkeys & Haddrs & Hp).
    destruct (iteration_shape _ _ _ _ _ _ _ Hrun) as (Hgrow & _ & Hshape).
    destruct Hshape as [[-> _] | (key & Hnew & -> & _ & n & Hn & Hkey)].
    + split; [done|]. split; [done|]. by eapply pool_ok_grows.
    + by eapply pool_snoc_ok.
  - destruct IH as (Hkeys & Haddrs & Hp).
    unfold clean_sub_tree, common_clean_sub_tree in Hrun.
    destruct (tree_class s); [|by simplify_eq].
    inv_bind Hrun as set Htrav. simplify_eq. simpl.
    set (kept := filter _ (pool s)).
    assert (kept `sublist_of` pool s) as Hsub by apply sublist_filter.
    split; [eapply sublist_NoDup; [exact Hkeys | by apply fmap_sublist]|].
    split; [eapply sublist_NoDup; [exact Haddrs | by apply fmap_sublist]|].
    intros k a Hka. apply Hp. by apply list_elem_of_filter in Hka as [_ ?].
Qed.

End SearchGrows.

(** ** More on pruning *)

Section Pruning.
Context `{G : Game}.

(** Pruning that returns keeps the entry of the node it is given and,
    with an entry it keeps, the entries of all children of its node: no
    kept node refers to a node whose entry was deleted.  It adds no entry
    and leaves the nodes alone. *)
Theorem pruning_keeps_children fuel (s : Store) root_node ignored_node s' :
  common_clean_sub_tree fuel s root_node ignored_node = Ok s' →
  heap s' = heap s ∧
  (∀ k a, (k, a) ∈ pool s' → (k, a) ∈ pool s) ∧
  (∀ k, (k, ignored_node) ∈ pool s → (k, ignored_node) ∈ pool s') ∧
  (∀ k a c k', (k, a) ∈ pool s' → child_of (heap s) a c →
     (k', c) ∈ pool s → (k', c) ∈ pool s').
Proof.
  intros Hrun. unfold common_clean_sub_tree in Hrun.
  inv_bind Hrun as set Htrav. simplify_eq. simpl.
  pose proof (traverse_elem _ _ _ _ _ Htrav) as Hset.
  split; [done|]. split; [|split].
  - intros k a [_ ?]%list_elem_of_filter. done.
  - intros k Hk. apply list_elem_of_filter. split; [|done]. simpl.
    apply Hset. right. apply rtc_refl.
  - intros k a c k' [Ha _]%list_elem_of_filter Hac Hc.
    apply list_elem_of_filter. split; [|done]. simpl in *.
    apply Hset. right. apply Hset in Ha as [?%elem_of_nil | Ha]; [done|].
    eapply rtc_r; done.
Qed.

(** Pruning twice to the same node is pruning once. *)
Theorem pruning_idempotent fuel (s : Store) root_node root_node' ignored_node s' :
  common_clean_sub_tree fuel s root_node ignored_node = Ok s' →
  common_clean_sub_tree fuel s' root_node' ignored_node = Ok s'.
Proof.
  intros Hrun. unfold common_clean_sub_tree in *.
  inv_bind Hrun as set Htrav. simplify_eq. simpl. rewrite Htrav. simpl.
  f_equal. f_equal. apply list_filter_filter_l. done.
Qed.

End Pruning.

(** ** The search with a tree of the caller *)

Section Reuse.
Context `{G : Game}.
Variable explore : Q → Q → Q.
Variable valid : State → Prop.
Variable rank : State → nat.
Hypothesis contract : Contract valid rank.

Implicit Types (h : list TreeNode) (n : TreeNode) (s : Store).

Lemma traverse_children_defined (visit : nat → list nat → result (list nat))
    (cs : list (Move * nat)) :
  (∀ c acc, c ∈ cs.*2 → ∃ acc', visit c acc = Ok acc') →
  ∀ acc, ∃ acc', traverse_children visit cs acc = Ok acc'.
Proof.
  induction cs as [|[m c] cs IH]; intros Hvisit acc; simpl; [by eexists|].
  destruct (Hvisit c acc) as [acc1 ->]; [left|]. simpl.
  apply IH. intros c' acc' Hc'. apply Hvisit. by right.
Qed.

(** In a tree in order the traversal is no deeper than the game. *)
Lemma traverse_defined_rank h fuel : ∀ a n acc,
  heap_ok valid h → h !! a = Some n → (rank (state n) < fuel)%nat →
  ∃ acc', traverse fuel h a acc = Ok acc'.
Proof using contract.
  induction fuel as [|fuel IH]; intros a n acc Hh Hn Hrank; [lia|]. simpl.
  unfold deref. rewrite Hn. simpl.
  destruct (Forall_lookup_1 _ _ _ _ Hh Hn) as (Hvalid & _ & Hpart & Hch).
  destruct (traverse_children_defined (traverse fuel h) (child_nodes n)) with (acc := acc)
    as [acc' ->]; [|by eexists].
  intros c acc0 ([m c'] & -> & Hin)%list_elem_of_fmap. simpl.
  destruct (Hch _ _ Hin) as (nc & Hnc & Hmove).
  pose proof (move_rank _ _ contract _ _ _ Hvalid (child_is_move _ _ _ Hpart Hin) Hmove).
  apply (IH c' nc); [done | done | lia].
Qed.

Lemma iterations_ok fuel a0 count : ∀ n0 s rng,
  tree_ok valid s → heap s !! a0 = Some n0 → (rank (state n0) ≤ fuel)%nat →
  ∃ s' rng',
    iterations explore fuel count (SearchNode_init None None a0) s rng = Ok (s', rng') ∧
    tree_ok valid s' ∧ heap_le (heap s) (heap s') ∧
    (count ≠ O → get_moves (state n0) ≠ [] →
       ∃ n0', heap s' !! a0 = Some n0' ∧ child_nodes n0' ≠ []).
Proof using contract.
  induction count as [|count IH]; intros n0 s rng [Hh Hp] Hn0 Hrank; simpl.
  - exists s, rng. split; [done|]. split; [done|]. split; [apply heap_le_refl | done].
  - destruct (iteration_defined explore valid rank contract fuel a0 n0 s rng Hh Hp Hn0 Hrank)
      as (s1 & rng1 & -> & Hh1 & Hp1 & Hle1 & Hroot1). simpl.
    destruct (Hle1 _ _ Hn0) as (n1 & Hn1 & Hst1 & Hch1).
    destruct (IH n1 s1 rng1) as (s' & rng' & -> & Hok' & Hle' & _);
      [done | done | by rewrite Hst1 |].
    exists s', rng'. split; [done|]. split; [done|].
    split; [by eapply heap_le_trans|]. intros _ Hmoves.
    destruct (Hroot1 Hmoves) as (n1' & Hn1' & Hch1').
    destruct (Hle' _ _ Hn1') as (n2 & Hn2 & _ & Hch2). exists n2. split; [done | auto].
Qed.

(** For a game that keeps its contract, [uct] returns also with a tree
    of the caller that earlier searches left: the move is a legal move
    of the root state, and the tree, pruned or not, is in order for the
    next search. *)
Theorem uct_defined fuel (root_state : State) iter_max search_tree rng :
  (∀ s0, search_tree = Some s0 → tree_ok valid s0) →
  valid root_state → get_moves root_state ≠ [] → 1 ≤ iter_max →
  (rank root_state ≤ fuel)%nat →
  ∃ m s' rng',
    uct explore fuel root_state iter_max search_tree rng = Ok (Some m, s', rng') ∧
    m ∈ get_moves root_state ∧ tree_ok valid s'.
Proof using contract.
  intros Htree Hvalid Hmoves Hiter Hrank. unfold uct, uct_search.
  set (tree := default _ search_tree).
  assert (tree_ok valid tree) as [Hh Hp].
  { unfold tree. destruct search_tree as [s0|]; [by apply Htree|].
    split; [apply Forall_nil_2 | by intros k a ?%elem_of_nil]. }
  destruct (get_node_ok valid rank contract tree root_state Hh Hp Hvalid)
    as (Hh0 & Hp0 & _ & n0 & Hn0 & Hst0).
  destruct (get_node tree root_state) as [s0 a0]. simpl in *.
  destruct (iterations_ok fuel a0 (Z.to_nat iter_max) n0 s0 rng)
    as (s & rng' & -> & [Hhs Hps] & Hle & Hroot); [done | done | by rewrite Hst0 |].
  destruct Hroot as (root & Hrootn & Hchildren); [lia | by rewrite Hst0 |].
  destruct (Hle _ _ Hn0) as (root' & Hroot' & Hstate & _).
  rewrite Hrootn in Hroot'. injection Hroot' as <-. simpl.
  assert (path_valid (heap s) (SearchNode_init None None a0)) as Hpath.
  { intros a ->%list_elem_of_singleton. by eexists. }
  destruct (uct_select_child_spec explore valid (heap s) (SearchNode_init None None a0)
              root 0 Hhs Hpath Hrootn Hchildren)
    as (m & c & nc & -> & Hin & Hnc & Hmove & _).
  simpl.
  destruct (Forall_lookup_1 _ _ _ _ Hhs Hrootn) as (Hvroot & _ & Hpart & _).
  assert (m ∈ get_moves root_state) as Hlegal.
  { rewrite <- Hst0, <- Hstate. by eapply child_is_move. }
  destruct (bool_decide (is_Some search_tree)); simpl.
  - unfold clean_sub_tree, common_clean_sub_tree. destruct (tree_class s).
    + destruct (traverse_defined_rank (heap s) fuel c nc [] Hhs Hnc) as [set ->].
      { rewrite Hstate, Hst0 in Hmove, Hvroot.
        pose proof (move_rank _ _ contract _ _ _ Hvroot Hlegal Hmove). lia. }
      simpl. eexists m, _, rng'. split; [done|]. split; [done|]. split; [done|].
      simpl. intros k a [_ Hka]%list_elem_of_filter. by apply Hps.
    + simpl. by exists m, s, rng'.
  - by exists m, s, rng'.
Qed.


End Reuse.

(** ** The play loop *)

Section Play.
Context `{G : Game}.
Variable explore : Q → Q → Q.
Variable valid : State → Prop.
Variable rank : State → nat.
Hypothesis contract : Contract valid rank.

Lemma play_loop_defined fuel iter_max plies : ∀ (st : State) search_tree rng,
  (∀ s0, search_tree = Some s0 → tree_ok valid s0) →
  valid st → 1 ≤ iter_max → (rank st ≤ fuel)%nat → (rank st ≤ plies)%nat →
  ∃ final ms tree rng',
    play_loop explore plies fuel st iter_max search_tree rng
      = Ok (final, ms, tree, rng') ∧
    plays st ms final ∧ get_moves final = [] ∧ (length ms ≤ rank st)%nat.
Proof using contract.
  induction plies as [|plies IH]; intros st search_tree rng Htree Hvalid Hiter Hfuel Hplies;
    simpl; destruct (get_moves st) as [|m0 ms0] eqn:Hmoves;
    try (exists st, [], search_tree, rng; split; [done|]; split; [done|];
         split; [done | simpl; lia]).
  - assert (m0 ∈ get_moves st) as Hin by (rewrite Hmoves; left).
    destruct (move_defined _ _ contract _ _ Hvalid Hin) as [st' Hmove].
    pose proof (move_rank _ _ contract _ _ _ Hvalid Hin Hmove). lia.
  - destruct (uct_defined explore valid rank contract fuel st iter_max search_tree rng)
      as (m & s' & rng1 & -> & Hlegal & Hok); [done | done | by rewrite Hmoves | done..|].
    simpl.
    destruct (move_defined _ _ contract _ _ Hvalid Hlegal) as [st' Hmove].
    rewrite Hmove. simpl.
    pose proof (move_valid _ _ contract _ _ _ Hvalid Hlegal Hmove) as Hvalid'.
    pose proof (move_rank _ _ contract _ _ _ Hvalid Hlegal Hmove) as Hrank'.
    destruct (IH st' (match search_tree with Some _ => Some s' | None => None end) rng1)
      as (final & ms & tree & rng' & -> & Hplays & Hterm & Hlen);
      [by destruct search_tree; intros ? [= <-] | done | done | lia | lia |].
    simpl. exists final, (m :: ms), tree, rng'. split; [done|].
    split; [|split; [done | simpl; lia]].
    split; [done|]. by exists st'.
Qed.

Lemma plays_valid (ms : list Move) : ∀ (st final : State),
  valid st → plays st ms final → valid final.
Proof using contract.
  induction ms as [|m ms IH]; intros st final Hvalid Hplays; simpl in Hplays.
  - by subst.
  - destruct Hplays as (Hin & st' & Hmove & Hplays).
    eapply IH; [|done]. by eapply (move_valid _ _ contract).
Qed.

(** For a game that keeps its contract, and with a budget of at least
    one iteration, the play loop ends: every move played is the answer
    of [uct] and legal where it is played, the final state has no move,
    the moves are no more than the game allows, and the result of the
    final state is there to announce. *)
Theorem uct_play_game_ends fuel (st : State) iter_max search_tree rng :
  (∀ s0, search_tree = Some s0 → tree_ok valid s0) →
  valid st → 1 ≤ iter_max → (rank st ≤ fuel)%nat →
  ∃ final ms tree rng' winner,
    uct_play_game explore fuel st iter_max search_tree rng
      = Ok (final, ms, tree, rng', winner) ∧
    plays st ms final ∧ get_moves final = [] ∧ (length ms ≤ rank st)%nat ∧
    announce final = Ok winner.
Proof using contract.
  intros Htree Hvalid Hiter Hfuel. unfold uct_play_game.
  destruct (play_loop_defined fuel iter_max fuel st search_tree rng)
    as (final & ms & tree & rng' & -> & Hplays & Hend & Hlen); [done..|].
  simpl.
  destruct (result_defined _ _ contract final (player_just_moved final)) as [r Hr];
    [by eapply plays_valid | done |].
  assert (∃ winner, announce final = Ok winner) as [winner Hwin].
  { unfold announce. rewrite Hr. simpl.
    destruct (Qeq_bool r 1); [by eexists|]. destruct (Qeq_bool r 0); by eexists. }
  rewrite Hwin. simpl. by exists final, ms, tree, rng', winner.
Qed.

End Play.

(** ** Backpropagation of the sequential search *)

Section Backpropagate.
Context `{G : Game}.
Variable explore : Q → Q → Q.

Lemma backpropagate_spec (t : State) node : ∀ (h h' : list TreeNode),
  backpropagate h node t = Ok h' →
  ∀ a n, h !! a = Some n →
    ∃ n', h' !! a = Some n' ∧ same_position n' n ∧
      (a ∉ path node → n' = n) ∧
      (a ∈ path node → ∃ r,
         get_result t (player_just_moved (state n)) = Ok r ∧
         (visits n' == visits n + occurrences a (path node))%Q ∧
         (wins n' == wins n + occurrences a (path node) * r)%Q).
Proof.
  induction node as [m d a0 | m p d a0 IH] using SearchNode_ind; intros h h' Hrun a n Ha;
    simpl in Hrun; inv_bind Hrun as n0 Hn0; inv_bind Hrun as r0 Hr0;
    apply of_option_Ok in Hn0.
  - simplify_eq. simpl path. destruct (decide (a = a0)) as [-> | Hne].
    + rewrite Ha in Hn0. injection Hn0 as <-. exists (update n r0).
      split; [apply list_lookup_insert_eq; by eapply lookup_lt_Some|].
      split; [done|]. split; [intros []; left|].
      intros _. exists r0. split; [done|].
      rewrite occurrences_cons_eq. unfold occurrences. simpl. split; ring.
    + exists n. split; [by rewrite list_lookup_insert_ne|]. split; [done|].
      split; [done|]. intros Hin%list_elem_of_singleton. done.
  - simpl path. destruct (decide (a = a0)) as [-> | Hne].
    + rewrite Ha in Hn0. injection Hn0 as <-.
      assert (<[a0 := update n r0]> h !! a0 = Some (update n r0)) as Hupd.
      { apply list_lookup_insert_eq. by eapply lookup_lt_Some. }
      destruct (IH _ _ Hrun a0 _ Hupd) as (n' & Hn' & Hsame & Hout & Hin).
      exists n'. split; [done|]. split; [done|]. split; [intros []; left|].
      intros _. exists r0. split; [done|]. rewrite occurrences_cons_eq.
      destruct (decide (a0 ∈ path p)) as [Hmem | Hmem].
      * destruct (Hin Hmem) as (r & Hr & Hv & Hw). simpl in Hr.
        rewrite Hr0 in Hr. simplify_eq. rewrite Hv, Hw. simpl. split; ring.
      * rewrite (Hout Hmem), occurrences_not_elem by done. simpl. split; ring.
    + assert (<[a0 := update n0 r0]> h !! a = Some n) as Hsame0.
      { by rewrite list_lookup_insert_ne. }
      destruct (IH _ _ Hrun a n Hsame0) as (n' & Hn' & Hsame & Hout & Hin).
      exists n'. split; [done|]. split; [done|]. split.
      * intros Hnot. apply Hout. intros Hmem. apply Hnot. by right.
      * intros [? | Hmem]%elem_of_cons; [done|].
        rewrite occurrences_cons_ne by done. by apply Hin.
Qed.

(** An iteration of the sequential search rolls out once from the
    expanded state, to a state without moves; then every search node on
    the path from the expanded node to the root is updated once, adding 1
    to the visits of its tree node and the result of the rollout, seen
    from that node's [player_just_moved], to its wins.  Nodes off the
    path are left as they are. *)
Theorem iteration_backpropagates fuel root_node (s : Store) rng s' rng' :
  iteration explore fuel root_node s rng = Ok (s', rng') →
  ∃ s1 node st rng1 t,
    select_expand explore fuel root_node s rng = Ok (s1, node, st, rng1) ∧
    rollout fuel rng1 st = Ok (t, rng') ∧ get_moves t = [] ∧
    pool s' = pool s1 ∧
    ∀ a n, heap s1 !! a = Some n →
      ∃ n', heap s' !! a = Some n' ∧ same_position n' n ∧
        (a ∉ path node → n' = n) ∧
        (a ∈ path node → ∃ r,
           get_result t (player_just_moved (state n)) = Ok r ∧
           (visits n' == visits n + occurrences a (path node))%Q ∧
           (wins n' == wins n + occurrences a (path node) * r)%Q).
Proof.
  intros Hrun. unfold iteration in Hrun.
  inv_bind Hrun as [[[s1 node] st] rng1] Hsel. inv_bind Hrun as [t rng2] Hroll.
  inv_bind Hrun as h Hback. simplify_eq.
  exists s1, node, st, rng1, t. split; [done|]. split; [done|].
  split; [by eapply rollout_Ok_terminal|]. split; [done|].
  intros a n Ha. simpl. by eapply backpropagate_spec.
Qed.

(** Select and Expand leave the statistics alone. *)
Lemma select_expand_stats fuel root (s : Store) rng s1 node st rng1 :
  select_expand explore fuel root s rng = Ok (s1, node, st, rng1) →
  ∀ a n, heap s !! a = Some n →
    ∃ n', heap s1 !! a = Some n' ∧ visits n' = visits n ∧ wins n' = wins n.
Proof.
  intros Hrun a n Ha. unfold select_expand in Hrun.
  inv_bind Hrun as nd Hsel. inv_bind Hrun as n0 Hn0. apply of_option_Ok in Hn0.
  destruct (untried_moves n0) as [|u untried] eqn:Huntried.
  { simplify_eq. by exists n. }
  inv_bind Hrun as [m rng'] Hm. inv_bind Hrun as st' Hst'.
  pose proof (get_node_heap s st') as Hheap.
  destruct (get_node s st') as [s2 c]. simpl in *.
  inv_bind Hrun as [h2 node'] Hadd. unfold SearchNode_add_child in Hadd.
  inv_bind Hadd as n2 Hn2. apply of_option_Ok in Hn2. simplify_eq. simpl.
  assert (heap s2 !! a = Some n) as Ha2.
  { destruct Hheap as [-> | ->]; [done|].
    rewrite lookup_app_l; [done | by eapply lookup_lt_Some]. }
  destruct (decide (a = tree_node nd)) as [-> | Hne].
  - rewrite Hn2 in Ha2. injection Ha2 as ->. exists (add_child n m c). split; [|done].
    apply list_lookup_insert_eq. by eapply lookup_lt_Some.
  - exists n. by rewrite list_lookup_insert_ne.
Qed.

End Backpropagate.

(** ** The root is visited once in each iteration *)

Lemma occurrences_last (a : nat) (pre : list nat) :
  a ∉ pre → (occurrences a (pre ++ [a]) == 1)%Q.
Proof.
  induction pre as [|b pre IH]; intros Hnot; simpl.
  - rewrite occurrences_cons_eq. unfold occurrences. simpl. ring.
  - apply not_elem_of_cons in Hnot as [Hne Hnot].
    rewrite occurrences_cons_ne by done. by apply IH.
Qed.

Section RootCount.
Context `{G : Game}.
Variable explore : Q → Q → Q.
Variable valid : State → Prop.
Variable rank : State → nat.
Hypothesis contract : Contract valid rank.

Implicit Types (h : list TreeNode) (n : TreeNode) (s : Store).

(** The Select loop descends: below its start the states are later in
    the game. *)
Lemma select_path h fuel : ∀ node n node',
  heap_ok valid h → path_valid h node → h !! tree_node node = Some n →
  select explore fuel h node = Ok node' →
  ∃ pre n',
    path node' = pre ++ path node ∧ h !! tree_node node' = Some n' ∧
    (rank (state n') ≤ rank (state n))%nat ∧
    ∀ a, a ∈ pre → ∃ na, h !! a = Some na ∧ (rank (state na) < rank (state n))%nat.
Proof using contract.
  induction fuel as [|fuel IH]; intros node n node' Hh Hpath Hn Hrun;
    rewrite select_unfold in Hrun; unfold deref in Hrun; rewrite Hn in Hrun;
    simpl in Hrun;
    destruct (bool_decide (untried_moves n = []) && bool_decide (child_nodes n ≠ []))
      eqn:Hcond; try done;
    try (simplify_eq; exists [], n; split; [done|]; split; [done|]; split; [lia|];
         by intros a ?%elem_of_nil).
  apply andb_true_iff in Hcond as [_ Hchildren%bool_decide_eq_true].
  destruct (uct_select_child_spec explore valid h node n 1 Hh Hpath Hn Hchildren)
    as (m & c & nc & Heq & Hin & Hnc & Hmove & _).
  rewrite Heq in Hrun. simpl in Hrun.
  destruct (Forall_lookup_1 _ _ _ _ Hh Hn) as (Hvalid & _ & Hpart & _).
  pose proof (move_rank _ _ contract _ _ _ Hvalid (child_is_move _ _ _ Hpart Hin) Hmove)
    as Hrank.
  destruct (IH (SearchNode_init (Some m) (Some node) c) nc node')
    as (pre & n' & Hpre & Hn' & Hrank' & Hbelow); [done | | done | done |].
  { by apply path_valid_child. }
  exists (pre ++ [c]), n'. split; [by rewrite Hpre, <- app_assoc|].
  split; [done|]. split; [lia|].
  intros a [Ha | ->%list_elem_of_singleton]%elem_of_app.
  - destruct (Hbelow a Ha) as (na & Hna & ?). exists na. split; [done | lia].
  - by exists nc.
Qed.

(** The path of the expanded node ends at the root and does not pass it
    before. *)
Lemma select_expand_root_once fuel a0 n0 s rng s1 node st rng1 :
  tree_ok valid s → heap s !! a0 = Some n0 →
  select_expand explore fuel (SearchNode_init None None a0) s rng
    = Ok (s1, node, st, rng1) →
  ∃ pre, path node = pre ++ [a0] ∧ a0 ∉ pre.
Proof using contract.
  intros [Hh Hp] Hn0 Hrun. unfold select_expand in Hrun.
  inv_bind Hrun as nd Hsel. inv_bind Hrun as n Hn. apply of_option_Ok in Hn.
  assert (path_valid (heap s) (SearchNode_init None None a0)) as Hpath.
  { intros a ->%list_elem_of_singleton. by eexists. }
  destruct (select_path (heap s) fuel _ n0 nd Hh Hpath Hn0 Hsel)
    as (pre & n' & Hpre & Hn' & Hrank & Hbelow).
  rewrite Hn in Hn'. injection Hn' as <-.
  assert (a0 ∉ pre) as Hnot.
  { intros Hin. destruct (Hbelow a0 Hin) as (na & Hna & Hlt).
    rewrite Hn0 in Hna. injection Hna as <-. lia. }
  destruct (untried_moves n) as [|u untried] eqn:Huntried.
  { simplify_eq. by exists pre. }
  inv_bind Hrun as [m rng'] Hm. apply choice_elem in Hm as [Hm _].
  rewrite <- Huntried in Hm. inv_bind Hrun as st' Hmove.
  destruct (Forall_lookup_1 _ _ _ _ Hh Hn) as (Hvalid & _ & Hpart & _).
  assert (m ∈ get_moves (state n)) as Hlegal by (apply Hpart; by left).
  pose proof (move_valid _ _ contract _ _ _ Hvalid Hlegal Hmove) as Hvalid'.
  pose proof (move_rank _ _ contract _ _ _ Hvalid Hlegal Hmove) as Hrank'.
  destruct (get_node_ok valid rank contract s st' Hh Hp Hvalid')
    as (_ & _ & Hle & nc & Hnc & Hstc).
  destruct (get_node s st') as [s2 c]. simpl in *.
  inv_bind Hrun as [h2 node'] Hadd. unfold SearchNode_add_child in Hadd.
  inv_bind Hadd as n2 Hn2. simplify_eq. simpl.
  exists (c :: pre). split; [by rewrite Hpre|].
  apply not_elem_of_cons. split; [|done]. intros ->.
  destruct (Hle _ _ Hn0) as (n0' & Hn0' & Hst0 & _).
  rewrite Hnc in Hn0'. injection Hn0' as <-. rewrite Hst0 in Hrank'. lia.
Qed.

Lemma iteration_root_visit fuel a0 n0 s rng s' rng' :
  tree_ok valid s → heap s !! a0 = Some n0 →
  iteration explore fuel (SearchNode_init None None a0) s rng = Ok (s', rng') →
  ∃ n0', heap s' !! a0 = Some n0' ∧ state n0' = state n0 ∧
         (visits n0' == visits n0 + 1)%Q.
Proof using contract.
  intros Hok Hn0 Hrun.
  destruct (iteration_backpropagates _ _ _ _ _ _ _ Hrun)
    as (s1 & node & st & rng1 & t & Hsel & _ & _ & _ & Hback).
  destruct (select_expand_root_once _ _ _ _ _ _ _ _ _ Hok Hn0 Hsel) as (pre & Hpre & Hnot).
  destruct (select_expand_stats _ _ _ _ _ _ _ _ _ Hsel _ _ Hn0) as (n1 & Hn1 & Hv1 & _).
  destruct (select_expand_shape _ _ _ _ _ _ _ _ _ Hsel) as (Hgrow & _).
  destruct (Hgrow _ _ Hn0) as (n1' & Hn1' & Hst1 & _).
  rewrite Hn1 in Hn1'. injection Hn1' as <-.
  destruct (Hback _ _ Hn1) as (n' & Hn' & (Hst' & _) & _ & Hin).
  exists n'. split; [done|]. split; [congruence|].
  destruct Hin as (r & _ & Hv & _).
  { rewrite Hpre. apply elem_of_app. right. left. }
  by rewrite Hv, Hpre, occurrences_last, Hv1.
Qed.

(** For a game that keeps its contract the iteration count is exact in
    the tree: a search of [iter_max] iterations adds [iter_max] to the
    visits of the root, so that a root found new has [iter_max + 1]
    visits afterwards. *)
Theorem root_visits_count fuel (root_state : State) iter_max search_tree rng :
  (∀ s0, search_tree = Some s0 → tree_ok valid s0) →
  valid root_state → 0 ≤ iter_max → (rank root_state ≤ fuel)%nat →
  ∃ root s rng' n0 n,
    uct_search explore fuel root_state iter_max search_tree rng = Ok (root, s, rng') ∧
    heap (get_node (default (SearchTree_init CommonSearchTree) search_tree)
                   root_state).1 !! tree_node root = Some n0 ∧
    heap s !! tree_node root = Some n ∧
    state n = root_state ∧
    (visits n == visits n0 + inject_Z iter_max)%Q.
Proof using contract.
  intros Htree Hvalid Hiter Hrank. unfold uct_search.
  set (tree := default _ search_tree).
  assert (tree_ok valid tree) as [Hh Hp].
  { unfold tree. destruct search_tree as [s0|]; [by apply Htree|].
    split; [apply Forall_nil_2 | by intros k a ?%elem_of_nil]. }
  destruct (get_node_ok valid rank contract tree root_state Hh Hp Hvalid)
    as (Hh0 & Hp0 & _ & n0 & Hn0 & Hst0).
  destruct (get_node tree root_state) as [s0 a0]. simpl in *.
  assert (∀ count s1 n1 rng1, tree_ok valid s1 → heap s1 !! a0 = Some n1 →
    state n1 = root_state →
    ∃ s' rng' n',
      iterations explore fuel count (SearchNode_init None None a0) s1 rng1 = Ok (s', rng') ∧
      heap s' !! a0 = Some n' ∧ state n' = root_state ∧
      (visits n' == visits n1 + inject_Z (Z.of_nat count))%Q) as Hcount.
  { induction count as [|count IH]; intros s1 n1 rng1 Hok1 Hn1 Hst1.
    - exists s1, rng1, n1. split; [done|]. split; [done|]. split; [done|].
      simpl. ring.
    - destruct Hok1 as [Hh1 Hp1].
      destruct (iteration_defined explore valid rank contract fuel a0 n1 s1 rng1 Hh1 Hp1 Hn1)
        as (s2 & rng2 & Hit & Hh2 & Hp2 & _); [by rewrite Hst1|].
      destruct (iteration_root_visit _ _ _ _ _ _ _ (conj Hh1 Hp1) Hn1 Hit)
        as (n2 & Hn2 & Hst2 & Hv2).
      destruct (IH s2 n2 rng2) as (s' & rng' & n' & Hits & Hn' & Hst' & Hv');
        [done | done | congruence |].
      exists s', rng', n'. simpl. rewrite Hit. simpl. split; [done|].
      split; [done|]. split; [done|].
      rewrite Hv', Hv2, Nat2Z.inj_succ, <- Z.add_1_l, inject_Z_plus. ring. }
  destruct (Hcount (Z.to_nat iter_max) s0 n0 rng) as (s' & rng' & n' & -> & Hn' & Hst' & Hv);
    [done..|].
  simpl. exists (SearchNode_init None None a0), s', rng', n0, n'.
  split; [done|]. split; [done|]. split; [done|]. split; [done|].
  by rewrite Hv, Z2Nat.id.
Qed.

End RootCount.

(** ** More on the leaf-parallel search *)

Lemma sum_range (rs : list Q) :
  Forall (λ r, (0 <= r)%Q ∧ (r <= 1)%Q) rs →
  (0 <= foldr Qplus 0 rs)%Q ∧ (foldr Qplus 0 rs <= inject_Z (Z.of_nat (length rs)))%Q.
Proof.
  induction 1 as [|r rs [Hr0 Hr1] _ [IH0 IH1]]; simpl length; simpl foldr.
  - split; apply Qle_refl.
  - rewrite Nat2Z.inj_succ, <- Z.add_1_l, inject_Z_plus.
    change (inject_Z 1) with 1%Q. set (k := inject_Z _) in *.
    set (t := foldr Qplus 0%Q rs) in *. split; lra.
Qed.

Lemma mean_range (rs : list Q) :
  rs ≠ [] → Forall (λ r, (0 <= r)%Q ∧ (r <= 1)%Q) rs →
  (0 <= mean rs)%Q ∧ (mean rs <= 1)%Q.
Proof.
  intros Hne Hall. destruct (sum_range rs Hall) as [H0 H1]. unfold mean.
  apply value_bounds; [done | done |].
  change 1%Q with (inject_Z 1). rewrite <- Zle_Qle. destruct rs; [done | simpl; lia].
Qed.

Section LeafInvariant.
Context `{G : Game}.
Variable explore : Q → Q → Q.
Hypothesis get_result_range :
  ∀ st p r, get_result st p = Ok r → (0 <= r)%Q ∧ (r <= 1)%Q.
Hypothesis get_moves_NoDup : ∀ st, NoDup (get_moves st).

Lemma thread_results_range (threads : list State) p rs :
  thread_results threads p = Ok rs → Forall (λ r, (0 <= r)%Q ∧ (r <= 1)%Q) rs.
Proof using get_result_range.
  revert rs. induction threads as [|t ts IH]; intros rs Hrun; simpl in Hrun.
  - simplify_eq. constructor.
  - inv_bind Hrun as r Hr. inv_bind Hrun as rs' Hrs. simplify_eq.
    constructor; [by eapply get_result_range | by apply IH].
Qed.

Lemma leaf_result_range (threads : list State) parallel_count p r :
  1 ≤ parallel_count → length threads = Z.to_nat parallel_count →
  leaf_result threads parallel_count p = Ok r → (0 <= r)%Q ∧ (r <= 1)%Q.
Proof using get_result_range.
  intros Hpos Hlen Hrun.
  destruct (leaf_result_mean _ _ _ _ Hpos Hlen Hrun) as (rs & Hrs & Hlen' & Hmean).
  rewrite Hmean. apply mean_range; [|by eapply thread_results_range].
  intros ->. simpl in Hlen'. lia.
Qed.

Lemma node_sound_update n r :
  node_sound n → (0 <= r)%Q → (r <= 1)%Q → node_sound (update n r).
Proof. intros (Hs & Hn & Hp) H0 H1. split; [by apply stats_bounded_update | done]. Qed.

Lemma leaf_backpropagate_sound (threads : list State) parallel_count node :
  1 ≤ parallel_count → length threads = Z.to_nat parallel_count →
  ∀ h h', Forall node_sound h →
    leaf_backpropagate h node threads parallel_count = Ok h' → Forall node_sound h'.
Proof using get_result_range.
  intros Hpos Hlen.
  induction node as [m d a | m p d a IH] using SearchNode_ind; intros h h' Hh Hrun;
    simpl in Hrun; inv_bind Hrun as n Hn; inv_bind Hrun as r Hr;
    apply of_option_Ok in Hn;
    destruct (leaf_result_range _ _ _ _ Hpos Hlen Hr) as [Hr0 Hr1];
    assert (Forall node_sound (<[a := update n r]> h)) as Hh1
      by (apply Forall_insert; [done|]; apply node_sound_update; [|done..];
          by eapply Forall_lookup_1).
  - by simplify_eq.
  - by eapply IH.
Qed.

(** The leaf-parallel search keeps the tree sound: if in every node of
    the caller's tree the statistics are bounded and the moves split,
    they are so after [leaf_uct], for [PARALLEL_COUNT >= 1], results in
    [0, 1] and moves listed once. *)
Theorem leaf_uct_keeps_sound fuel parallel_count (root_state : State) iter_max
    (s : Store) rng trngs m s' rng' :
  1 ≤ parallel_count → Forall node_sound (heap s) →
  leaf_uct explore fuel parallel_count root_state iter_max s rng trngs
    = Ok (m, s', rng') →
  Forall node_sound (heap s').
Proof using get_result_range get_moves_NoDup.
  intros Hpos Hs Hrun. unfold leaf_uct in Hrun.
  assert (∀ st, node_sound (TreeNode_init st)) as Hinit.
  { intros st. split; [apply stats_bounded_intro; simpl; lra|].
    by apply partitioned_init. }
  assert (∀ n mv c, node_sound n → mv ∈ untried_moves n → node_sound (add_child n mv c))
    as Hadd.
  { intros n mv c ((Hv & Hw & Hwv & _) & Hn & Hp) Hmv.
    split; [by apply stats_bounded_intro|]. by apply partitioned_add_child. }
  pose proof (get_node_Forall node_sound Hinit s root_state Hs) as Hs0.
  destruct (get_node s root_state) as [s0 a0]. simpl in Hs0.
  inv_bind Hrun as [s1 rng1] Hits. inv_bind Hrun as selected Hsel.
  inv_bind Hrun as s2 Hclean. simplify_eq.
  apply clean_sub_tree_heap in Hclean as [-> _].
  clear Hsel. revert s0 rng trngs Hs0 Hits.
  induction (Z.to_nat iter_max) as [|count IH]; intros s0 rng trngs Hs0 Hits;
    simpl in Hits; [by simplify_eq|].
  inv_bind Hits as [s2 rng2] Hit. eapply IH; [|done].
  unfold leaf_iteration in Hit.
  inv_bind Hit as [[[s3 node] st] rng3] Hexp. inv_bind Hit as threads Hthreads.
  inv_bind Hit as h Hback. simplify_eq. simpl.
  apply run_threads_spec in Hthreads as [Hlen _].
  eapply leaf_backpropagate_sound; [done | done | | done].
  by eapply (select_expand_Forall explore node_sound Hinit Hadd).
Qed.

(** With [PARALLEL_COUNT = 0] the leaf-parallel search has no rollout to
    average: the division raises [ZeroDivisionError], and no iteration
    returns. *)
Theorem leaf_zero_threads fuel root_node (s : Store) rng trng :
  (∀ threads p rs, thread_results threads p = Ok rs →
     leaf_result threads 0 p = Err ZeroDivisionError) ∧
  ∀ r, leaf_iteration explore fuel 0 root_node s rng trng ≠ Ok r.
Proof.
  split.
  - intros threads p rs Hrs. unfold leaf_result. by rewrite Hrs.
  - intros r Hrun. unfold leaf_iteration in Hrun.
    inv_bind Hrun as [[[s1 node] st] rng1] Hexp. inv_bind Hrun as threads Hthreads.
    inv_bind Hrun as h Hback. destruct node as [m parent d a]. simpl in Hback.
    inv_bind Hback as n Hn. inv_bind Hback as r0 Hr0.
    unfold leaf_result in Hr0. inv_bind Hr0 as rs Hrs. by inv_bind Hr0 as u Hu.
Qed.

End LeafInvariant.

(** ** More on the root-parallel search *)

Section DictKeys.
Context `{G : Game}.

Lemma dict_set_keys {V} (d : list (Move * V)) k v k' :
  k' ∈ (dict_set d k v).*1 ↔ k' = k ∨ k' ∈ d.*1.
Proof.
  induction d as [|[k0 v0] d IH]; csimpl.
  - rewrite list_elem_of_singleton, elem_of_nil. naive_solver.
  - destruct (decide (k = k0)) as [-> | Hne]; csimpl.
    + rewrite !elem_of_cons. naive_solver.
    + rewrite !elem_of_cons, IH. naive_solver.
Qed.

Lemma dict_of_list_keys {V} (l : list (Move * V)) k :
  k ∈ (dict_of_list l).*1 ↔ k ∈ l.*1.
Proof.
  unfold dict_of_list.
  assert (∀ acc, k ∈ (fold_left (λ d kv, dict_set d kv.1 kv.2) l acc).*1
                 ↔ k ∈ acc.*1 ∨ k ∈ l.*1) as Hgen.
  { induction l as [|[k0 v0] l IH]; intros acc; csimpl.
    - rewrite elem_of_nil. naive_solver.
    - rewrite IH, dict_set_keys, elem_of_cons. naive_solver. }
  rewrite Hgen. csimpl. rewrite elem_of_nil. naive_solver.
Qed.

Lemma add_values_keys (r d : list (Move * Q)) k :
  k ∈ (add_values d r).*1 ↔ k ∈ d.*1 ∨ k ∈ r.*1.
Proof.
  unfold add_values. revert d. induction r as [|[k0 v0] r IH]; intros d; csimpl.
  - rewrite elem_of_nil. naive_solver.
  - rewrite IH, dict_add_keys, elem_of_cons.
    destruct (decide (k0 ∈ d.*1)); [naive_solver|].
    rewrite elem_of_app, list_elem_of_singleton. naive_solver.
Qed.

Lemma sum_values_keys (results : list (list (Move * Q) * nat)) k :
  k ∈ (sum_values results).*1 ↔ ∃ r, r ∈ results ∧ k ∈ r.1.*1.
Proof.
  unfold sum_values.
  assert (∀ d, k ∈ (fold_left (λ d r, add_values d r.1) results d).*1
               ↔ k ∈ d.*1 ∨ ∃ r, r ∈ results ∧ k ∈ r.1.*1) as Hgen.
  { induction results as [|r results IH]; intros d; simpl.
    - split; [by left | intros [? | (r & ?%elem_of_nil & _)]; done].
    - rewrite IH, add_values_keys. setoid_rewrite elem_of_cons. naive_solver. }
  rewrite Hgen. csimpl. rewrite elem_of_nil. naive_solver.
Qed.

End DictKeys.

Section RootEdges.
Context `{G : Game}.
Variable explore : Q → Q → Q.

Lemma uct_without_iterations fuel (root_state : State) iter_max c rng :
  iter_max ≤ 0 →
  uct explore fuel root_state iter_max (Some (SearchTree_init c)) rng
    = Err AssertionError_children.
Proof.
  intros Hle. unfold uct, uct_search. simpl.
  replace (Z.to_nat iter_max) with O by lia. simpl.
  by destruct (get_moves root_state).
Qed.

(** The root-parallel search needs a worker and an iteration for each
    worker: with [PARALLEL_COUNT <= 0] there is no value to take the
    maximum of ([ValueError]), and with [iter_max < PARALLEL_COUNT]
    every worker searches zero iterations and fails the assertion of
    [uct_select_child] in its [run], so that no move is returned. *)
Theorem root_uct_needs_work fuel parallel_count (root_state : State) iter_max rngs :
  (parallel_count ≤ 0 →
     root_uct explore fuel parallel_count root_state iter_max rngs = Err ValueError) ∧
  (1 ≤ parallel_count → iter_max < parallel_count →
     (∀ rng, SearchWorker_run explore fuel root_state (iter_max `div` parallel_count) rng
               = Err AssertionError_children) ∧
     ∀ m, root_uct explore fuel parallel_count root_state iter_max rngs ≠ Ok m).
Proof.
  split.
  - intros Hle. unfold root_uct. by replace (Z.to_nat parallel_count) with O by lia.
  - intros Hpos Hlt.
    assert (∀ rng, SearchWorker_run explore fuel root_state
                     (iter_max `div` parallel_count) rng
                   = Err AssertionError_children) as Hworker.
    { intros rng. unfold SearchWorker_run. rewrite uct_without_iterations; [done|].
      assert (iter_max `div` parallel_count < 1); [|lia].
      apply Z.div_lt_upper_bound; lia. }
    split; [done|]. intros m. unfold root_uct.
    destruct (Z.to_nat parallel_count) as [|count] eqn:Hcount; [lia|]. simpl.
    by rewrite Hworker.
Qed.

End RootEdges.

Section RootTotal.
Context `{G : Game}.
Variable explore : Q → Q → Q.
Variable valid : State → Prop.
Variable rank : State → nat.
Hypothesis contract : Contract valid rank.

Lemma child_values_defined (h : list TreeNode) (items : list (Move * nat)) :
  (∀ m c, (m, c) ∈ items → is_Some (h !! c)) →
  ∃ vs, child_values h items = Ok vs.
Proof.
  induction items as [|[m c] items IH]; intros Hvalid; simpl; [by eexists|].
  destruct (Hvalid m c) as [n Hn]; [left|]. unfold deref. rewrite Hn. simpl.
  destruct IH as [vs ->]; [|by eexists]. intros m' c' Hin. apply (Hvalid m'). by right.
Qed.

(** The search up to the end of the loop returns, with the root in the
    pool under the key of the root state and with a child. *)
Lemma uct_search_defined fuel (root_state : State) iter_max search_tree rng :
  (∀ s0, search_tree = Some s0 → tree_ok valid s0) →
  valid root_state → get_moves root_state ≠ [] → 1 ≤ iter_max →
  (rank root_state ≤ fuel)%nat →
  ∃ a s rng' n,
    uct_search explore fuel root_state iter_max search_tree rng
      = Ok (SearchNode_init None None a, s, rng') ∧
    tree_ok valid s ∧ dict_get (pool s) (repr root_state) = Some a ∧
    heap s !! a = Some n ∧ state n = root_state ∧ child_nodes n ≠ [] ∧
    tree_class s = tree_class (default (SearchTree_init CommonSearchTree) search_tree).
Proof using contract.
  intros Htree Hvalid Hmoves Hiter Hrank. unfold uct_search.
  set (tree := default _ search_tree).
  assert (tree_ok valid tree) as [Hh Hp].
  { unfold tree. destruct search_tree as [s0|]; [by apply Htree|].
    split; [apply Forall_nil_2 | by intros k a ?%elem_of_nil]. }
  destruct (get_node_ok valid rank contract tree root_state Hh Hp Hvalid)
    as (Hh0 & Hp0 & _ & n0 & Hn0 & Hst0).
  pose proof (get_node_lookup tree root_state) as Hkey.
  assert (tree_class (get_node tree root_state).1 = tree_class tree) as Hclass.
  { unfold get_node. simpl. by destruct (dict_get (pool tree) (repr root_state)). }
  destruct (get_node tree root_state) as [s0 a0]. simpl in *.
  destruct (iterations_ok explore valid rank contract fuel a0 (Z.to_nat iter_max) n0 s0 rng)
    as (s & rng' & Hits & Hok & Hle & Hroot); [done | done | by rewrite Hst0 |].
  rewrite Hits. simpl.
  destruct Hroot as (root & Hrootn & Hchildren); [lia | by rewrite Hst0 |].
  destruct (Hle _ _ Hn0) as (root' & Hroot' & Hstate & _).
  rewrite Hrootn in Hroot'. injection Hroot' as <-.
  destruct (iterations_shape _ _ _ _ _ _ _ _ Hits) as (_ & Hclass' & Hpool & _).
  exists a0, s, rng', root. split; [done|]. split; [done|]. split; [by apply Hpool|].
  split; [done|]. split; [congruence|]. split; [done | congruence].
Qed.

(** A worker reports a value for at least one move, and only for legal
    moves of the root state. *)
Lemma SearchWorker_run_defined fuel (root_state : State) iter_max rng :
  valid root_state → get_moves root_state ≠ [] → 1 ≤ iter_max →
  (rank root_state ≤ fuel)%nat →
  ∃ vals sz,
    SearchWorker_run explore fuel root_state iter_max rng = Ok (vals, sz) ∧
    vals ≠ [] ∧ ∀ k, k ∈ vals.*1 → k ∈ get_moves root_state.
Proof using contract.
  intros Hvalid Hmoves Hiter Hrank. unfold SearchWorker_run, uct.
  destruct (uct_search_defined fuel root_state iter_max
              (Some (SearchTree_init NoCleanSearchTree)) rng)
    as (a & s & rng' & n & -> & [Hh Hp] & Hkey & Hn & Hst & Hchildren & Hclass);
    [|done..|].
  { intros s0 [= <-]. split; [apply Forall_nil_2 | by intros k a ?%elem_of_nil]. }
  simpl.
  assert (path_valid (heap s) (SearchNode_init None None a)) as Hpath.
  { intros b ->%list_elem_of_singleton. by eexists. }
  destruct (uct_select_child_spec explore valid (heap s) (SearchNode_init None None a)
              n 0 Hh Hpath Hn Hchildren) as (m & c & nc & -> & _).
  simpl. unfold clean_sub_tree. rewrite Hclass. simpl.
  unfold get_node. rewrite Hkey. unfold deref. rewrite Hn. simpl.
  destruct (Forall_lookup_1 _ _ _ _ Hh Hn) as (_ & _ & Hpart & Hch).
  destruct (child_values_defined (heap s) (child_nodes n)) as [vs Hvs].
  { intros m' c' Hin. destruct (Hch _ _ Hin) as (nc' & -> & _). by eexists. }
  rewrite Hvs. simpl. destruct (child_values_spec _ _ _ Hvs) as [Hkeys _].
  eexists _, _. split; [done|]. split.
  - destruct (child_nodes n) as [|[m0 c0] items] eqn:Hitems; [done|].
    intros Hnil. assert (m0 ∈ (dict_of_list vs).*1) as Hin.
    { apply dict_of_list_keys. rewrite Hkeys. left. }
    rewrite Hnil in Hin. by apply elem_of_nil in Hin.
  - intros k Hk. apply (proj1 (dict_of_list_keys _ _)) in Hk. rewrite Hkeys in Hk. rewrite <- Hst.
    apply Hpart. by right.
Qed.

Lemma run_workers_defined fuel count (root_state : State) iter_max : ∀ rngs,
  valid root_state → get_moves root_state ≠ [] → 1 ≤ iter_max →
  (rank root_state ≤ fuel)%nat →
  ∃ results,
    run_workers explore fuel count root_state iter_max rngs = Ok results ∧
    length results = count ∧
    Forall (λ r, r.1 ≠ [] ∧ ∀ k, k ∈ r.1.*1 → k ∈ get_moves root_state) results.
Proof using contract.
  induction count as [|count IH]; intros rngs Hvalid Hmoves Hiter Hrank; simpl.
  - by exists [].
  - destruct (SearchWorker_run_defined fuel root_state iter_max (rngs O))
      as (vals & sz & -> & Hne & Hlegal); [done..|]. simpl.
    destruct (IH (λ i, rngs (S i))) as (results & -> & Hlen & Hall); [done..|].
    simpl. eexists. split; [done|]. split; [by rewrite <- Hlen|]. by constructor.
Qed.

(** For a game that keeps its contract, with at least one worker and at
    least one iteration for each, the root-parallel search returns, and
    the move it returns is a legal move of the root state. *)
Theorem root_uct_defined fuel parallel_count (root_state : State) iter_max rngs :
  valid root_state → get_moves root_state ≠ [] →
  1 ≤ parallel_count → parallel_count ≤ iter_max →
  (rank root_state ≤ fuel)%nat →
  ∃ m, root_uct explore fuel parallel_count root_state iter_max rngs = Ok m ∧
       m ∈ get_moves root_state.
Proof using contract.
  intros Hvalid Hmoves Hpos Hiter Hrank. unfold root_uct.
  destruct (run_workers_defined fuel (Z.to_nat parallel_count) root_state
              (iter_max `div` parallel_count) rngs)
    as (results & -> & Hlen & Hall); [done | done | | done |].
  { apply Z.div_le_lower_bound; lia. }
  simpl.
  destruct (py_max_defined (λ kv : Move * Q, Ok kv.2) (sum_values results))
    as [[k v] Hmax].
  - destruct results as [|[vals sz] results]; [simpl in Hlen; lia|].
    apply Forall_cons in Hall as [[Hne _] _]. simpl in Hne.
    destruct vals as [|[k0 v0] vals]; [done|].
    intros Hnil. assert (k0 ∈ (sum_values ((((k0, v0) :: vals), sz) :: results)).*1) as Hin.
    { apply sum_values_keys. eexists. split; [left|]. simpl. left. }
    rewrite Hnil in Hin. by apply elem_of_nil in Hin.
  - intros y _. by eexists.
  - rewrite Hmax. simpl. exists k. split; [done|].
    apply py_max_spec in Hmax as [Hin _].
    assert (k ∈ (sum_values results).*1) as Hk.
    { apply list_elem_of_fmap. by exists (k, v). }
    apply sum_values_keys in Hk as (r & Hr & Hkr).
    rewrite Forall_forall in Hall. by apply (Hall r Hr).
Qed.

End RootTotal.

(** ** Trees that are never pruned *)

Section NoClean.
Context `{G : Game}.
Variable explore : Q → Q → Q.

Lemma uct_search_shape fuel (root_state : State) iter_max tree rng root s' rng' :
  uct_search explore fuel root_state iter_max (Some tree) rng = Ok (root, s', rng') →
  heap_grows (heap tree) (heap s') ∧ tree_class s' = tree_class tree ∧
  (size tree ≤ size s')%nat ∧
  ∀ k a, dict_get (pool tree) k = Some a → dict_get (pool s') k = Some a.
Proof.
  intros Hrun. unfold uct_search in Hrun. simpl in Hrun.
  pose proof (get_node_pool_mono tree root_state) as Hmono.
  pose proof (get_node_heap tree root_state) as Hheap.
  assert (tree_class (get_node tree root_state).1 = tree_class tree
          ∧ (size tree ≤ size (get_node tree root_state).1)%nat) as [Hclass0 Hsize0].
  { unfold get_node, size. simpl.
    destruct (dict_get (pool tree) (repr root_state)); simpl; [done|].
    rewrite length_app. split; [done | lia]. }
  destruct (get_node tree root_state) as [s0 a0]. simpl in *.
  inv_bind Hrun as [s1 rng1] Hit. injection Hrun as <- <- <-.
  destruct (iterations_shape _ _ _ _ _ _ _ _ Hit) as (Hgrow & Hclass & Hpool & Hsize & _).
  split; [|split; [congruence | split; [lia | by auto]]].
  eapply heap_grows_trans; [|done].
  destruct Hheap as [-> | ->]; [apply heap_grows_refl | apply heap_grows_app].
Qed.

Lemma uct_no_clean fuel (root_state : State) iter_max s rng m s' rng' :
  tree_class s = NoCleanSearchTree →
  uct explore fuel root_state iter_max (Some s) rng = Ok (m, s', rng') →
  heap_grows (heap s) (heap s') ∧ tree_class s' = NoCleanSearchTree ∧
  (size s ≤ size s')%nat ∧
  ∀ k a, dict_get (pool s) k = Some a → dict_get (pool s') k = Some a.
Proof.
  intros Hclass Hrun. unfold uct in Hrun.
  inv_bind Hrun as [[root s1] rng1] Hsearch.
  inv_bind Hrun as selected Hsel. simpl in Hrun.
  destruct (uct_search_shape _ _ _ _ _ _ _ _ Hsearch) as (Hgrow & Hclass1 & Hsize & Hpool).
  unfold clean_sub_tree in Hrun. rewrite Hclass1, Hclass in Hrun.
  simpl in Hrun. injection Hrun as <- <- <-.
  split; [done|]. split; [congruence | done].
Qed.

Lemma play_loop_no_clean plies fuel iter_max : ∀ (st : State) s rng final ms tree rng',
  tree_class s = NoCleanSearchTree →
  play_loop explore plies fuel st iter_max (Some s) rng = Ok (final, ms, tree, rng') →
  ∃ s', tree = Some s' ∧ heap_grows (heap s) (heap s') ∧
        tree_class s' = NoCleanSearchTree ∧ (size s ≤ size s')%nat ∧
        ∀ k a, dict_get (pool s) k = Some a → dict_get (pool s') k = Some a.
Proof.
  induction plies as [|plies IH]; intros st s rng final ms tree rng' Hclass Hrun;
    simpl in Hrun; destruct (get_moves st) as [|m0 ms0];
    try discriminate;
    try (injection Hrun as <- <- <- <-; exists s; split; [done|];
         split; [apply heap_grows_refl | by split]).
  inv_bind Hrun as [[best s1] rng1] Hsearch.
  inv_bind Hrun as m Hm. inv_bind Hrun as st' Hmove.
  inv_bind Hrun as [[[final' ms'] tree'] rng2] Hrest. injection Hrun as <- <- <- <-.
  destruct (uct_no_clean _ _ _ _ _ _ _ _ Hclass Hsearch)
    as (Hgrow1 & Hclass1 & Hsize1 & Hpool1).
  destruct (IH _ _ _ _ _ _ _ Hclass1 Hrest) as (s' & -> & Hgrow & Hclass' & Hsize & Hpool).
  exists s'. split; [done|]. split; [by eapply heap_grows_trans|].
  split; [done|]. split; [lia | by auto].
Qed.

(** A tree whose [clean_sub_tree] does nothing (the pickling tree and the
    tree of a root-parallel worker) is never cut back: through a whole
    game played on it the tree handed back is that tree, no smaller,
    where every key keeps its node and every node its address and
    state. *)
Theorem no_clean_game_keeps_tree fuel (st : State) iter_max s rng final ms tree rng'
    winner :
  tree_class s = NoCleanSearchTree →
  uct_play_game explore fuel st iter_max (Some s) rng
    = Ok (final, ms, tree, rng', winner) →
  ∃ s', tree = Some s' ∧ heap_grows (heap s) (heap s') ∧
        (size s ≤ size s')%nat ∧
        ∀ k a, dict_get (pool s) k = Some a → dict_get (pool s') k = Some a.
Proof.
  intros Hclass Hrun. unfold uct_play_game in Hrun.
  inv_bind Hrun as [[[final' ms'] tree'] rng1] Hloop.
  inv_bind Hrun as winner' Hwin. injection Hrun as <- <- <- <- <-.
  destruct (play_loop_no_clean _ _ _ _ _ _ _ _ _ _ Hclass Hloop)
    as (s' & -> & Hgrow & _ & Hsize & Hpool).
  by exists s'.
Qed.

End NoClean.

(** ** Nim, played to the end *)

(** However Nim is played from a heap that is not negative, the play
    ends on the empty heap: the moves add up to the heap, the player to
    have moved last is scored 1 and the other 0, and [uct_play_game]
    announces the player to have moved last as the winner. *)
Theorem Nim_play_ends (ms : list Z) : ∀ (st final : Nim.NimState),
  0 ≤ Nim.chips st → plays (G:=Nim.game) st ms final → Nim.get_moves final = [] →
  Nim.chips final = 0 ∧ foldr Z.add 0 ms = Nim.chips st ∧
  Z.of_nat (length ms) ≤ Nim.chips st ≤ 3 * Z.of_nat (length ms) ∧
  Nim.pjm final = (if Nat.even (length ms) then Nim.pjm st else 3 - Nim.pjm st) ∧
  Nim.get_result final (Nim.pjm final) = Ok 1%Q ∧
  Nim.get_result final (3 - Nim.pjm final) = Ok 0%Q ∧
  announce (G:=Nim.game) final = Ok (Some (Nim.pjm final)).
Proof.
  induction ms as [|m ms IH]; intros st final Hchips Hplays Hend.
  - simpl in Hplays. subst final. apply Nim_get_moves_nil in Hend.
    assert (Nim.chips st = 0) as Hzero by lia.
    unfold announce. simpl. unfold Nim.get_result. rewrite Hzero. simpl.
    rewrite Z.eqb_refl. replace (Nim.pjm st =? 3 - Nim.pjm st) with false by lia.
    simpl. repeat split; lia.
  - destruct Hplays as (Hm & st' & Hmove & Hplays).
    apply Nim_get_moves_elem in Hm. simpl in Hmove. unfold Nim.do_move in Hmove.
    replace (1 <=? m) with true in Hmove by lia. rewrite Z.eqb_refl in Hmove.
    simpl in Hmove. injection Hmove as <-.
    pose proof (λ H, IH _ final H Hplays Hend) as IH'. simpl in IH'.
    destruct IH' as (Hzero & Hsum & Hlen & Hpjm & Hrest); [lia|].
    split; [done|]. split; [simpl; lia|].
    split; [simpl length; lia|]. split; [|done].
    rewrite Hpjm. simpl length. rewrite Nat.even_succ, <- Nat.negb_even.
    destruct (Nat.even (length ms)); simpl; lia.
Qed.

(** The key Nim gives a state tells the state: two different states
    have different [repr], so the pool never takes one position for
    another. *)
Theorem Nim_key_tells_state (st st' : Nim.NimState) :
  st ≠ st' → Nim.repr st ≠ Nim.repr st'.
Proof.
  intros Hne Heq. by apply Hne, Nim_repr_inj.
Qed.

(** ** Gobang *)

Lemma Gobang_on_board st x y :
  Gobang.is_on_board st x y = true ↔
  (0 ≤ x ∧ x < Gobang.size st) ∧ 0 ≤ y ∧ y < Gobang.size st.
Proof. unfold Gobang.is_on_board. rewrite !andb_true_iff. lia. Qed.

Lemma Gobang_cell_defined st x y :
  Gobang_wf st → Gobang.is_on_board st x y = true →
  ∃ c, Gobang.cell (Gobang.board st) x y = Ok c.
Proof.
  intros (Hsz & Hlen & Hrows) [Hx Hy]%Gobang_on_board.
  destruct (lookup_lt_is_Some_2 (Gobang.board st) (Z.to_nat x)) as [row Hrow]; [lia|].
  pose proof (Forall_lookup_1 _ _ _ _ Hrows Hrow) as Hrowlen. simpl in Hrowlen.
  destruct (lookup_lt_is_Some_2 row (Z.to_nat y)) as [c Hc]; [lia|].
  exists c. unfold Gobang.cell. rewrite Hrow. simpl. by rewrite Hc.
Qed.

(** The loop of [count_stones_in_direction] leaves the board before the
    fuel is spent, whenever the steps left to the edge of the board are
    within the fuel. *)
Lemma count_loop_defined st dx dy (μ : Z → Z → Z) :
  Gobang_wf st →
  (∀ x y, Gobang.is_on_board st x y = true → 0 < μ x y) →
  (∀ x y, μ (x + dx) (y + dy) = μ x y - 1) →
  ∀ fuel x y ret, μ x y ≤ Z.of_nat fuel →
  ∃ r, Gobang.count_loop fuel st x y dx dy ret = Ok r ∧
       ret ≤ r ∧ r - ret ≤ Z.max 0 (μ x y).
Proof.
  intros Hwf Hpos Hstep.
  induction fuel as [|fuel IH]; intros x y ret Hfuel; simpl;
    (destruct (Gobang.is_on_board st x y) eqn:Hon; [|exists ret; split; [done | lia]]);
    destruct (Gobang_cell_defined st x y Hwf Hon) as [c ->]; simpl;
    (destruct (c =? Gobang.pjm st); [|exists ret; split; [done | lia]]);
    specialize (Hpos _ _ Hon).
  - lia.
  - destruct (IH (x + dx) (y + dy) (ret + 1)) as (r & -> & Hle & Hsteps).
    { rewrite Hstep. lia. }
    rewrite Hstep in Hsteps. exists r. split; [done | lia].
Qed.

Lemma count_pair st x y dx dy :
  Gobang_wf st → Gobang.is_on_board st x y = true →
  (dx, dy) ∈ [(0, 1); (1, 1); (1, 0); (1, -1)] →
  ∃ a b, Gobang.count_stones_in_direction st x y dx dy = Ok a ∧
         Gobang.count_stones_in_direction st x y (- dx) (- dy) = Ok b ∧
         0 ≤ a ∧ 0 ≤ b ∧ a + b + 1 ≤ Gobang.size st.
Proof.
  intros Hwf Hon Hdir. pose proof Hon as [Hx Hy]%Gobang_on_board.
  unfold Gobang.count_stones_in_direction.
  assert (dx = 0 ∧ dy = 1 ∨ dx = 1) as [[-> ->] | ->].
  { rewrite !elem_of_cons, elem_of_nil in Hdir. naive_solver. }
  - destruct (count_loop_defined st 0 1 (λ _ y, Gobang.size st - y) Hwf)
      with (fuel := Z.to_nat (Gobang.size st)) (x := x + 0) (y := y + 1) (ret := 0)
      as (a & Ha & Ha0 & Ha1);
      [by intros x' y' [_ ?]%Gobang_on_board; lia | intros; lia | lia |].
    destruct (count_loop_defined st (- 0) (- 1) (λ _ y, y + 1) Hwf)
      with (fuel := Z.to_nat (Gobang.size st)) (x := x + - 0) (y := y + - 1) (ret := 0)
      as (b & Hb & Hb0 & Hb1);
      [by intros x' y' [_ ?]%Gobang_on_board; lia | intros; lia | lia |].
    exists a, b. split; [exact Ha|]. split; [exact Hb|]. lia.
  - destruct (count_loop_defined st 1 dy (λ x _, Gobang.size st - x) Hwf)
      with (fuel := Z.to_nat (Gobang.size st)) (x := x + 1) (y := y + dy) (ret := 0)
      as (a & Ha & Ha0 & Ha1);
      [by intros x' y' [? _]%Gobang_on_board; lia | intros; lia | lia |].
    destruct (count_loop_defined st (- 1) (- dy) (λ x _, x + 1) Hwf)
      with (fuel := Z.to_nat (Gobang.size st)) (x := x + - 1) (y := y + - dy) (ret := 0)
      as (b & Hb & Hb0 & Hb1);
      [by intros x' y' [? _]%Gobang_on_board; lia | intros; lia | lia |].
    exists a, b. split; [exact Ha|]. split; [exact Hb|]. lia.
Qed.

Lemma check_directions_defined st x y dirs :
  Gobang_wf st → Gobang.is_on_board st x y = true →
  (∀ d, d ∈ dirs → d ∈ [(0, 1); (1, 1); (1, 0); (1, -1)]) →
  ∃ t, Gobang.check_directions st x y dirs = Ok t ∧
       (Gobang.size st < Gobang.inrow st → t = false) ∧
       (Gobang.inrow st ≤ 1 → dirs ≠ [] → t = true).
Proof.
  intros Hwf Hon. induction dirs as [|[dx dy] dirs IH]; intros Hdirs; simpl.
  - by exists false.
  - destruct (count_pair st x y dx dy Hwf Hon) as (a & b & -> & -> & Ha & Hb & Hab).
    { apply Hdirs. left. }
    simpl. destruct (Gobang.inrow st <=? a + b + 1) eqn:Hrow.
    + exists true. split; [done|]. split; [lia | done].
    + destruct IH as (t & -> & Hfar & _).
      { intros d Hd. apply Hdirs. by right. }
      exists t. split; [done|]. split; [done | lia].
Qed.

Lemma set_cell_spec (b : list (list Z)) x y v (n : nat) :
  0 ≤ x → 0 ≤ y → length b = n → Forall (λ row, length row = n) b →
  (Z.to_nat x < n)%nat → (Z.to_nat y < n)%nat →
  ∃ b', Gobang.set_cell b x y v = Ok b' ∧ length b' = n ∧
        Forall (λ row, length row = n) b' ∧
        Gobang.cell b' x y = Ok v ∧
        ∀ x' y', 0 ≤ x' → 0 ≤ y' → (x', y') ≠ (x, y) →
                 Gobang.cell b' x' y' = Gobang.cell b x' y'.
Proof.
  intros Hx Hy Hlen Hrows Hxn Hyn.
  destruct (lookup_lt_is_Some_2 b (Z.to_nat x)) as [row Hrow]; [lia|].
  pose proof (Forall_lookup_1 _ _ _ _ Hrows Hrow) as Hrowlen. simpl in Hrowlen.
  unfold Gobang.set_cell. rewrite Hrow. simpl.
  replace (Z.to_nat y <? length row)%nat with true by (symmetry; apply Nat.ltb_lt; lia).
  simpl. eexists. split; [done|]. split; [by rewrite length_insert|].
  split; [apply Forall_insert; [done | by rewrite length_insert]|].
  unfold Gobang.cell. split.
  - rewrite list_lookup_insert_eq by lia. simpl.
    by rewrite list_lookup_insert_eq by lia.
  - intros x' y' Hx' Hy' Hne.
    destruct (decide (Z.to_nat x = Z.to_nat x')) as [Heq | Hnex].
    + rewrite <- Heq, list_lookup_insert_eq, Hrow by lia. simpl.
      rewrite list_lookup_insert_ne; [done|].
      intros Heqy. apply Hne. f_equal; lia.
    + by rewrite list_lookup_insert_ne.
Qed.

Lemma do_move_spec st x y :
  Gobang_wf st → Gobang.is_on_board st x y = true →
  Gobang.cell (Gobang.board st) x y = Ok 0 →
  ∃ st', Gobang.do_move st (x, y) = Ok st' ∧ Gobang_wf st' ∧
    Gobang.pjm st' = 3 - Gobang.pjm st ∧
    Gobang.size st' = Gobang.size st ∧ Gobang.inrow st' = Gobang.inrow st ∧
    Gobang.cell (Gobang.board st') x y = Ok (3 - Gobang.pjm st) ∧
    (∀ x' y', 0 ≤ x' → 0 ≤ y' → (x', y') ≠ (x, y) →
       Gobang.cell (Gobang.board st') x' y' = Gobang.cell (Gobang.board st) x' y') ∧
    (Gobang.size st < Gobang.inrow st → Gobang.terminated st' = false) ∧
    (Gobang.inrow st ≤ 1 → Gobang.terminated st' = true).
Proof.
  intros Hwf Hon Hcell. pose proof Hwf as (Hsz & Hlen & Hrows).
  pose proof Hon as [Hx Hy]%Gobang_on_board.
  unfold Gobang.do_move. rewrite Hon, Hcell. simpl.
  destruct (set_cell_spec (Gobang.board st) x y (3 - Gobang.pjm st)
              (Z.to_nat (Gobang.size st)))
    as (b' & -> & Hlen' & Hrows' & Hnew & Hold); [lia..|done|done|lia|lia|].
  simpl. unfold Gobang.check_termination. simpl. rewrite Hnew. simpl.
  rewrite Z.eqb_refl. simpl.
  set (st1 := {| Gobang.pjm := 3 - Gobang.pjm st; Gobang.board := b';
                 Gobang.size := Gobang.size st; Gobang.inrow := Gobang.inrow st;
                 Gobang.terminated := Gobang.terminated st |}).
  assert (Gobang_wf st1) as Hwf1 by done.
  destruct (check_directions_defined st1 x y [(0, 1); (1, 1); (1, 0); (1, -1)] Hwf1)
    as (t & Ht & Hfar & Hnear); [by apply Gobang_on_board | done |].
  simpl in Ht. rewrite Ht. simpl. eexists. split; [done|]. simpl.
  split; [done|]. repeat split; try done.
  intros Hone. by apply Hnear.
Qed.

(** On a board in order [do_move] accepts every empty square of the
    board: the loops that count the stones stay on the board and end, the
    square takes the stone of the player to move and no other square
    changes.  A row longer than the board is never completed, and a row
    of one is completed by any stone. *)
Theorem Gobang_do_move_defined st x y :
  Gobang_wf st → Gobang.is_on_board st x y = true →
  Gobang.cell (Gobang.board st) x y = Ok 0 →
  ∃ st', Gobang.do_move st (x, y) = Ok st' ∧ Gobang_wf st' ∧
    Gobang.pjm st' = 3 - Gobang.pjm st ∧
    Gobang.size st' = Gobang.size st ∧ Gobang.inrow st' = Gobang.inrow st ∧
    Gobang.cell (Gobang.board st') x y = Ok (3 - Gobang.pjm st) ∧
    (∀ x' y', 0 ≤ x' → 0 ≤ y' → (x', y') ≠ (x, y) →
       Gobang.cell (Gobang.board st') x' y' = Gobang.cell (Gobang.board st) x' y') ∧
    (Gobang.size st < Gobang.inrow st → Gobang.terminated st' = false) ∧
    (Gobang.inrow st ≤ 1 → Gobang.terminated st' = true).
Proof. apply do_move_spec. Qed.

Lemma positions_elem s x y :
  (x, y) ∈ Gobang.positions s ↔ (0 ≤ x ∧ x < s) ∧ 0 ≤ y ∧ y < s.
Proof.
  unfold Gobang.positions, range. split.
  - intros (x0 & (y0 & Hin & Hy0)%list_elem_of_bind & Hx0)%list_elem_of_bind.
    apply list_elem_of_singleton in Hin. injection Hin as -> ->.
    apply elem_of_seqZ in Hx0, Hy0. lia.
  - intros [Hx Hy]. apply list_elem_of_bind. exists x.
    split; [|apply elem_of_seqZ; lia].
    apply list_elem_of_bind. exists y.
    split; [by apply list_elem_of_singleton | apply elem_of_seqZ; lia].
Qed.

Lemma positions_NoDup s : NoDup (Gobang.positions s).
Proof.
  unfold Gobang.positions. apply NoDup_bind; [| |apply NoDup_seqZ].
  - intros x1 x2 [x y] _ _ (y1 & H1 & _)%list_elem_of_bind (y2 & H2 & _)%list_elem_of_bind.
    apply list_elem_of_singleton in H1, H2. congruence.
  - intros x _. apply NoDup_bind; [| |apply NoDup_seqZ].
    + intros y1 y2 p _ _ H1%list_elem_of_singleton H2%list_elem_of_singleton. congruence.
    + intros y _. apply NoDup_singleton.
Qed.

Lemma positions_length s : length (Gobang.positions s) = (Z.to_nat s * Z.to_nat s)%nat.
Proof.
  unfold Gobang.positions, range.
  assert (∀ (l : list Z) (f : Z → list (Z * Z)) k,
            (∀ x, length (f x) = k) → length (l ≫= f) = (length l * k)%nat) as Hbind.
  { intros l f k Hf. induction l as [|x l IH]; csimpl; [done|].
    by rewrite length_app, Hf, IH. }
  rewrite (Hbind _ _ (Z.to_nat s)).
  - rewrite length_seqZ. f_equal. lia.
  - intros x. rewrite (Hbind _ _ 1%nat); [|done]. rewrite length_seqZ. lia.
Qed.

Lemma empty_cells_spec (b : list (list Z)) (ps : list (Z * Z)) :
  (∀ x y, (x, y) ∈ ps → ∃ c, Gobang.cell b x y = Ok c) →
  ∃ ms, Gobang.empty_cells b ps = Ok ms ∧ ms `sublist_of` ps ∧
        ∀ x y, (x, y) ∈ ms ↔ (x, y) ∈ ps ∧ Gobang.cell b x y = Ok 0.
Proof.
  induction ps as [|[x0 y0] ps IH]; intros Hcells; simpl.
  - exists []. split; [done|]. split; [done|]. intros x y. rewrite elem_of_nil. naive_solver.
  - destruct (Hcells x0 y0) as [c Hc]; [left|]. rewrite Hc. simpl.
    destruct IH as (ms & -> & Hsub & Hms).
    { intros x y Hin. apply Hcells. by right. }
    simpl. eexists. split; [done|].
    destruct (c =? 0) eqn:Hzero.
    + apply Z.eqb_eq in Hzero as ->. split; [by constructor|].
      intros x y. rewrite !elem_of_cons, Hms. naive_solver.
    + apply Z.eqb_neq in Hzero. split; [by constructor|].
      intros x y. rewrite elem_of_cons, Hms. split; [tauto|].
      intros [[[= -> ->] | Hin] Hempty]; [|done]. congruence.
Qed.

Lemma get_moves_spec st :
  Gobang_wf st → Gobang.size st < 32 →
  ∃ ms, Gobang.get_moves st = Ok ms ∧ NoDup ms ∧
        ∀ x y, (x, y) ∈ ms ↔
               Gobang.terminated st = false ∧ Gobang.is_on_board st x y = true ∧
               Gobang.cell (Gobang.board st) x y = Ok 0.
Proof.
  intros Hwf _. unfold Gobang.get_moves.
  destruct (Gobang.terminated st); simpl.
  - exists []. split; [done|]. split; [constructor|].
    intros x y. rewrite elem_of_nil. naive_solver.
  - destruct (empty_cells_spec (Gobang.board st) (Gobang.positions (Gobang.size st)))
      as (ms & -> & Hsub & Hms).
    { intros x y Hin. apply positions_elem in Hin.
      by apply Gobang_cell_defined, Gobang_on_board. }
    exists ms. split; [done|].
    split; [eapply sublist_NoDup; [apply positions_NoDup | exact Hsub]|].
    intros x y. rewrite Hms, positions_elem, Gobang_on_board. naive_solver.
Qed.

(** On a board in order and below the 32 sizes the class prepares,
    [get_moves] is defined: it lists, once each, the empty squares of the
    board while the game is not terminated, and nothing once it is. *)
Theorem Gobang_get_moves_spec st :
  Gobang_wf st → Gobang.size st < 32 →
  ∃ ms, Gobang.get_moves st = Ok ms ∧ NoDup ms ∧
        ∀ x y, (x, y) ∈ ms ↔
               Gobang.terminated st = false ∧ Gobang.is_on_board st x y = true ∧
               Gobang.cell (Gobang.board st) x y = Ok 0.
Proof. apply get_moves_spec. Qed.

Lemma empty_cells_all (b : list (list Z)) (ps : list (Z * Z)) :
  (∀ x y, (x, y) ∈ ps → Gobang.cell b x y = Ok 0) → Gobang.empty_cells b ps = Ok ps.
Proof.
  induction ps as [|[x0 y0] ps IH]; intros Hcells; simpl; [done|].
  rewrite (Hcells x0 y0) by left. simpl. rewrite IH; [done|].
  intros x y Hin. apply Hcells. by right.
Qed.

(** The board the constructor builds is in order, and every square of it
    is a move: [size * size] of them. *)
Theorem Gobang_opening sz inr :
  0 ≤ sz → sz < 32 →
  Gobang_wf (Gobang.init sz inr) ∧
  Gobang.get_moves (Gobang.init sz inr) = Ok (Gobang.positions sz) ∧
  length (Gobang.positions sz) = Z.to_nat (sz * sz).
Proof.
  intros Hsz _. split; [|split].
  - split; [done|]. simpl. split; [by rewrite length_replicate|].
    apply Forall_replicate. by rewrite length_replicate.
  - unfold Gobang.get_moves. simpl. apply empty_cells_all.
    intros x y [Hx Hy]%positions_elem. unfold Gobang.cell.
    rewrite lookup_replicate_2 by lia. simpl. by rewrite lookup_replicate_2 by lia.
  - rewrite positions_length. lia.
Qed.

(** Every move [get_moves] offers is accepted by [do_move], and the
    state it leads to offers strictly fewer moves, all of them offered
    before: a game of Gobang ends. *)
Theorem Gobang_move_accepted st ms x y :
  Gobang_wf st → Gobang.size st < 32 →
  Gobang.pjm st = 1 ∨ Gobang.pjm st = 2 →
  Gobang.get_moves st = Ok ms → (x, y) ∈ ms →
  ∃ st' ms',
    Gobang.do_move st (x, y) = Ok st' ∧ Gobang_wf st' ∧
    (Gobang.pjm st' = 1 ∨ Gobang.pjm st' = 2) ∧
    Gobang.get_moves st' = Ok ms' ∧ ((x, y) ∉ ms') ∧
    (∀ p, p ∈ ms' → p ∈ ms) ∧ (length ms' < length ms)%nat.
Proof.
  intros Hwf Hsize Hpjm Hmoves Hin.
  destruct (get_moves_spec st Hwf Hsize) as (ms0 & Hms0 & Hnodup & Hspec).
  rewrite Hmoves in Hms0. injection Hms0 as <-.
  pose proof (proj1 (Hspec x y) Hin) as (Hterm & Hon & Hcell).
  destruct (do_move_spec st x y Hwf Hon Hcell)
    as (st' & Hmove & Hwf' & Hpjm' & Hsize' & _ & Hnew & Hold & _).
  destruct (get_moves_spec st' Hwf') as (ms' & Hms' & Hnodup' & Hspec'); [lia|].
  exists st', ms'. split; [done|]. split; [done|]. split; [lia|]. split; [done|].
  assert ((x, y) ∉ ms') as Hout.
  { intros (_ & _ & Hzero)%Hspec'. rewrite Hnew in Hzero. injection Hzero as Hzero. lia. }
  assert (∀ p, p ∈ ms' → p ∈ ms) as Hsub.
  { intros [x' y'] Hin'. pose proof Hin' as (_ & Hon' & Hzero)%Hspec'.
    apply Hspec. split; [done|].
    pose proof Hon' as [Hx' Hy']%Gobang_on_board.
    split; [apply Gobang_on_board; lia|].
    rewrite <- Hold; [done | lia | lia |]. intros Heq. by rewrite Heq in Hin'. }
  split; [done|]. split; [done|].
  assert ((x, y) :: ms' ⊆+ ms) as Hlen%submseteq_length; [|simpl in Hlen; lia].
  apply NoDup_submseteq; [by constructor|].
  intros p [-> | Hp]%elem_of_cons; [done | by apply Hsub].
Qed.

(** ** The properties on runs of Nim and on a small board *)

Lemma NimRun_tree_ok : tree_ok (G:=Nim.game) Nim_valid NimRun.store.
Proof.
  destruct (uct_search_defined (G:=Nim.game) rough_explore Nim_valid Nim_rank Nim_contract
              4 (Nim.init 4) 6 None NimRun.rng)
    as (a & s & rng' & n & Hrun & Hok & _).
  - intros s0 [=].
  - unfold Nim_valid. simpl. lia.
  - by vm_compute.
  - lia.
  - unfold Nim_rank. simpl. lia.
  - destruct NimRun_searched as (root & rng'' & Hrun'). unfold NimRun.searched in Hrun'.
    rewrite Hrun in Hrun'. by injection Hrun' as _ <- _.
Qed.

Lemma get_node_again_witness :
  heap (get_node (G:=Nim.game) (SearchTree_init CommonSearchTree) (Nim.init 4)).1
    !! (get_node (G:=Nim.game) (SearchTree_init CommonSearchTree) (Nim.init 4)).2
    = Some (TreeNode_init (G:=Nim.game) (Nim.init 4)) ∧
  dict_get (pool (get_node (G:=Nim.game) NimRun.store (Nim.mkNim 1 0)).1)
           (Nim.repr (Nim.init 4)) = Some 0%nat.
Proof.
  split.
  - destruct (get_node_again (G:=Nim.game) (SearchTree_init CommonSearchTree) (Nim.init 4))
      as (_ & _ & Hnew & _).
    apply Hnew. reflexivity.
  - destruct (get_node_again (G:=Nim.game) NimRun.store (Nim.mkNim 1 0))
      as (_ & _ & _ & Hkeep).
    apply Hkeep. by vm_compute.
Defined.

Lemma search_only_adds_witness :
  ∃ root s' rng',
    uct_search (G:=Nim.game) rough_explore 4 (Nim.mkNim 1 3) 5 (Some NimRun.store)
      NimRun.rng = Ok (root, s', rng') ∧
    heap_grows (heap NimRun.store) (heap s') ∧
    ∀ k a, dict_get (pool NimRun.store) k = Some a → dict_get (pool s') k = Some a.
Proof.
  destruct (uct_search (G:=Nim.game) rough_explore 4 (Nim.mkNim 1 3) 5 (Some NimRun.store)
              NimRun.rng) as [[[root s'] rng']|e] eqn:Hrun; [|by vm_compute in Hrun].
  exists root, s', rng'. split; [done|].
  apply (search_only_adds (G:=Nim.game) rough_explore 4 (Nim.mkNim 1 3) 5
           (Some NimRun.store) NimRun.rng root s' rng' Hrun).
Defined.

Lemma search_adds_at_most_witness :
  ∃ root s' rng',
    uct_search (G:=Nim.game) rough_explore 4 (Nim.mkNim 1 3) 5 (Some NimRun.store)
      NimRun.rng = Ok (root, s', rng') ∧
    (size NimRun.store ≤ size s' ≤ size NimRun.store + 1 + 5)%nat.
Proof.
  destruct (uct_search (G:=Nim.game) rough_explore 4 (Nim.mkNim 1 3) 5 (Some NimRun.store)
              NimRun.rng) as [[[root s'] rng']|e] eqn:Hrun; [|by vm_compute in Hrun].
  exists root, s', rng'. split; [done|].
  apply (search_adds_at_most (G:=Nim.game) rough_explore 4 (Nim.mkNim 1 3) 5
           (Some NimRun.store) NimRun.rng root s' rng' Hrun).
Defined.

Lemma pool_keys_nodes_witness :
  Quiescent (G:=Nim.game) rough_explore NimRun.store ∧
  NoDup (pool NimRun.store).*1 ∧ NoDup (pool NimRun.store).*2 ∧
  pool_ok (heap NimRun.store) (pool NimRun.store).
Proof.
  split; [apply NimRun_Quiescent|].
  apply (pool_keys_nodes (G:=Nim.game) rough_explore NimRun.store NimRun_Quiescent).
Defined.

Lemma pruning_keeps_children_witness :
  ∃ s', common_clean_sub_tree (G:=Nim.game) 6 NimRun.store 0 1 = Ok s' ∧
    heap s' = heap NimRun.store ∧
    (∀ k a, (k, a) ∈ pool s' → (k, a) ∈ pool NimRun.store) ∧
    (∀ k, (k, 1%nat) ∈ pool NimRun.store → (k, 1%nat) ∈ pool s') ∧
    (∀ k a c k', (k, a) ∈ pool s' → child_of (heap NimRun.store) a c →
       (k', c) ∈ pool NimRun.store → (k', c) ∈ pool s').
Proof.
  destruct (common_clean_sub_tree (G:=Nim.game) 6 NimRun.store 0 1)
    as [s'|e] eqn:Hrun; [|by vm_compute in Hrun].
  exists s'. split; [done|].
  apply (pruning_keeps_children (G:=Nim.game) 6 NimRun.store 0 1 s' Hrun).
Defined.

Lemma pruning_idempotent_witness :
  ∃ s', common_clean_sub_tree (G:=Nim.game) 6 NimRun.store 0 1 = Ok s' ∧
        common_clean_sub_tree (G:=Nim.game) 6 s' 0 1 = Ok s'.
Proof.
  destruct (common_clean_sub_tree (G:=Nim.game) 6 NimRun.store 0 1)
    as [s'|e] eqn:Hrun; [|by vm_compute in Hrun].
  exists s'. split; [done|].
  apply (pruning_idempotent (G:=Nim.game) 6 NimRun.store 0 0 1 s' Hrun).
Defined.

Lemma uct_defined_witness :
  ∃ m s' rng',
    uct (G:=Nim.game) rough_explore 4 (Nim.init 4) 6 (Some NimRun.store) NimRun.rng
      = Ok (Some m, s', rng') ∧
    m ∈ Nim.get_moves (Nim.init 4) ∧ tree_ok (G:=Nim.game) Nim_valid s'.
Proof.
  apply (uct_defined (G:=Nim.game) rough_explore Nim_valid Nim_rank Nim_contract
           4 (Nim.init 4) 6 (Some NimRun.store) NimRun.rng).
  - intros s0 [= <-]. apply NimRun_tree_ok.
  - unfold Nim_valid. simpl. lia.
  - by vm_compute.
  - lia.
  - unfold Nim_rank. simpl. lia.
Defined.

Lemma uct_play_game_ends_witness :
  ∃ final ms tree rng' winner,
    uct_play_game (G:=Nim.game) rough_explore 4 (Nim.init 4) 6 (Some NimRun.store)
      NimRun.rng = Ok (final, ms, tree, rng', winner) ∧
    plays (G:=Nim.game) (Nim.init 4) ms final ∧ Nim.get_moves final = [] ∧
    (length ms ≤ Nim_rank (Nim.init 4))%nat ∧
    announce (G:=Nim.game) final = Ok winner.
Proof.
  apply (uct_play_game_ends (G:=Nim.game) rough_explore Nim_valid Nim_rank Nim_contract
           4 (Nim.init 4) 6 (Some NimRun.store) NimRun.rng).
  - intros s0 [= <-]. apply NimRun_tree_ok.
  - unfold Nim_valid. simpl. lia.
  - lia.
  - unfold Nim_rank. simpl. lia.
Defined.

Lemma iteration_backpropagates_witness :
  ∃ s' rng',
    iteration (G:=Nim.game) rough_explore 4 ParallelRun.root_node ParallelRun.start
      ParallelRun.rng = Ok (s', rng') ∧
    ∃ s1 node st rng1 t,
      select_expand (G:=Nim.game) rough_explore 4 ParallelRun.root_node
        ParallelRun.start ParallelRun.rng = Ok (s1, node, st, rng1) ∧
      rollout 4 rng1 st = Ok (t, rng') ∧ Nim.get_moves t = [] ∧
      pool s' = pool s1 ∧
      ∀ a n, heap s1 !! a = Some n →
        ∃ n', heap s' !! a = Some n' ∧ same_position n' n ∧
          (a ∉ path node → n' = n) ∧
          (a ∈ path node → ∃ r,
             Nim.get_result t (Nim.pjm (state n)) = Ok r ∧
             (visits n' == visits n + occurrences a (path node))%Q ∧
             (wins n' == wins n + occurrences a (path node) * r)%Q).
Proof.
  destruct (iteration (G:=Nim.game) rough_explore 4 ParallelRun.root_node
              ParallelRun.start ParallelRun.rng)
    as [[s' rng']|e] eqn:Hrun; [|by vm_compute in Hrun].
  exists s', rng'. split; [done|].
  apply (iteration_backpropagates (G:=Nim.game) rough_explore 4 ParallelRun.root_node
           ParallelRun.start ParallelRun.rng s' rng' Hrun).
Defined.

Lemma root_visits_count_witness :
  ∃ root s rng' n0 n,
    uct_search (G:=Nim.game) rough_explore 4 (Nim.init 4) 6 (Some NimRun.store)
      NimRun.rng = Ok (root, s, rng') ∧
    heap (get_node (G:=Nim.game) NimRun.store (Nim.init 4)).1 !! tree_node root
      = Some n0 ∧
    heap s !! tree_node root = Some n ∧
    state n = Nim.init 4 ∧
    (visits n == visits n0 + inject_Z 6)%Q.
Proof.
  apply (root_visits_count (G:=Nim.game) rough_explore Nim_valid Nim_rank Nim_contract
           4 (Nim.init 4) 6 (Some NimRun.store) NimRun.rng).
  - intros s0 [= <-]. apply NimRun_tree_ok.
  - unfold Nim_valid. simpl. lia.
  - lia.
  - unfold Nim_rank. simpl. lia.
Defined.

Lemma leaf_uct_keeps_sound_witness :
  ∃ m s' rng',
    leaf_uct (G:=Nim.game) rough_explore 4 2 (Nim.init 4) 3
      (SearchTree_init CommonSearchTree) ParallelRun.rng (λ _, ParallelRun.rngs)
      = Ok (m, s', rng') ∧
    Forall (node_sound (G:=Nim.game)) (heap s').
Proof.
  destruct (leaf_uct (G:=Nim.game) rough_explore 4 2 (Nim.init 4) 3
              (SearchTree_init CommonSearchTree) ParallelRun.rng (λ _, ParallelRun.rngs))
    as [[[m s'] rng']|e] eqn:Hrun; [|by vm_compute in Hrun].
  exists m, s', rng'. split; [done|].
  apply (leaf_uct_keeps_sound (G:=Nim.game) rough_explore Nim_get_result_range
           Nim_get_moves_NoDup 4 2 (Nim.init 4) 3 (SearchTree_init CommonSearchTree)
           ParallelRun.rng (λ _, ParallelRun.rngs) m s' rng'); [lia | | done].
  apply Forall_nil_2.
Defined.

Lemma leaf_zero_threads_witness :
  leaf_result (G:=Nim.game) [] 0 1 = Err ZeroDivisionError ∧
  ∀ r, leaf_iteration (G:=Nim.game) rough_explore 4 0 ParallelRun.root_node
         ParallelRun.start ParallelRun.rng ParallelRun.rngs ≠ Ok r.
Proof.
  destruct (leaf_zero_threads (G:=Nim.game) rough_explore 4 ParallelRun.root_node
              ParallelRun.start ParallelRun.rng ParallelRun.rngs) as [Hzero Hnever].
  split; [|exact Hnever].
  apply (Hzero [] 1 []). reflexivity.
Defined.

Lemma root_uct_needs_work_witness :
  root_uct (G:=Nim.game) rough_explore 4 0 (Nim.init 4) 6 ParallelRun.rngs
    = Err ValueError ∧
  (∀ rng, SearchWorker_run (G:=Nim.game) rough_explore 4 (Nim.init 4) (1 `div` 2) rng
            = Err AssertionError_children) ∧
  ∀ m, root_uct (G:=Nim.game) rough_explore 4 2 (Nim.init 4) 1 ParallelRun.rngs ≠ Ok m.
Proof.
  split.
  - destruct (root_uct_needs_work (G:=Nim.game) rough_explore 4 0 (Nim.init 4) 6
                ParallelRun.rngs) as [Hnone _].
    apply Hnone. lia.
  - destruct (root_uct_needs_work (G:=Nim.game) rough_explore 4 2 (Nim.init 4) 1
                ParallelRun.rngs) as [_ Hfew].
    apply Hfew; lia.
Defined.

Lemma root_uct_defined_witness :
  ∃ m, root_uct (G:=Nim.game) rough_explore 4 2 (Nim.init 4) 6 ParallelRun.rngs = Ok m ∧
       m ∈ Nim.get_moves (Nim.init 4).
Proof.
  apply (root_uct_defined (G:=Nim.game) rough_explore Nim_valid Nim_rank Nim_contract
           4 2 (Nim.init 4) 6 ParallelRun.rngs).
  - unfold Nim_valid. simpl. lia.
  - by vm_compute.
  - lia.
  - lia.
  - unfold Nim_rank. simpl. lia.
Defined.

Lemma no_clean_game_keeps_tree_witness :
  ∃ final ms tree rng' winner,
    uct_play_game (G:=Nim.game) rough_explore 4 (Nim.init 4) 3 (Some KeptRun.store)
      NimRun.rng = Ok (final, ms, tree, rng', winner) ∧
    ∃ s', tree = Some s' ∧ heap_grows (heap KeptRun.store) (heap s') ∧
          (size KeptRun.store ≤ size s')%nat ∧
          ∀ k a, dict_get (pool KeptRun.store) k = Some a →
                 dict_get (pool s') k = Some a.
Proof.
  destruct (uct_play_game (G:=Nim.game) rough_explore 4 (Nim.init 4) 3
              (Some KeptRun.store) NimRun.rng)
    as [[[[[final ms] tree] rng'] winner]|e] eqn:Hrun; [|by vm_compute in Hrun].
  exists final, ms, tree, rng', winner. split; [done|].
  apply (no_clean_game_keeps_tree (G:=Nim.game) rough_explore 4 (Nim.init 4) 3
           KeptRun.store NimRun.rng final ms tree rng' winner); [reflexivity | done].
Defined.

Lemma Nim_play_ends_witness :
  Nim.chips (Nim.mkNim 2 0) = 0 ∧ foldr Z.add 0 [3; 1] = Nim.chips (Nim.init 4) ∧
  Z.of_nat (length [3; 1]) ≤ Nim.chips (Nim.init 4) ≤ 3 * Z.of_nat (length [3; 1]) ∧
  Nim.pjm (Nim.mkNim 2 0) = 2 ∧
  Nim.get_result (Nim.mkNim 2 0) 2 = Ok 1%Q ∧
  Nim.get_result (Nim.mkNim 2 0) (3 - 2) = Ok 0%Q ∧
  announce (G:=Nim.game) (Nim.mkNim 2 0) = Ok (Some 2).
Proof.
  apply (Nim_play_ends [3; 1] (Nim.init 4) (Nim.mkNim 2 0)).
  - simpl. lia.
  - simpl. split; [apply Nim_get_moves_elem; simpl; lia|].
    eexists. split; [reflexivity|].
    split; [apply Nim_get_moves_elem; simpl; lia|].
    eexists. split; reflexivity.
  - reflexivity.
Defined.

Lemma Nim_key_tells_state_witness :
  Nim.repr (Nim.init 3) ≠ Nim.repr (Nim.init 4).
Proof.
  apply (Nim_key_tells_state (Nim.init 3) (Nim.init 4)). discriminate.
Defined.

Lemma Gobang_init_wf sz inr : 0 ≤ sz → Gobang_wf (Gobang.init sz inr).
Proof.
  intros Hsz. split; [done|]. simpl. split; [by rewrite length_replicate|].
  apply Forall_replicate. by rewrite length_replicate.
Qed.

Lemma Gobang_do_move_defined_witness :
  ∃ st', Gobang.do_move (Gobang.init 3 3) (1, 1) = Ok st' ∧ Gobang_wf st' ∧
    Gobang.pjm st' = 3 - 2 ∧ Gobang.size st' = 3 ∧ Gobang.inrow st' = 3 ∧
    Gobang.cell (Gobang.board st') 1 1 = Ok (3 - 2) ∧
    (∀ x' y', 0 ≤ x' → 0 ≤ y' → (x', y') ≠ (1, 1) →
       Gobang.cell (Gobang.board st') x' y'
         = Gobang.cell (Gobang.board (Gobang.init 3 3)) x' y') ∧
    (3 < 3 → Gobang.terminated st' = false) ∧
    (3 ≤ 1 → Gobang.terminated st' = true).
Proof.
  apply (Gobang_do_move_defined (Gobang.init 3 3) 1 1).
  - apply Gobang_init_wf. lia.
  - reflexivity.
  - reflexivity.
Defined.

Lemma Gobang_get_moves_spec_witness :
  ∃ ms, Gobang.get_moves (Gobang.init 3 3) = Ok ms ∧ NoDup ms ∧
        ∀ x y, (x, y) ∈ ms ↔
               Gobang.terminated (Gobang.init 3 3) = false ∧
               Gobang.is_on_board (Gobang.init 3 3) x y = true ∧
               Gobang.cell (Gobang.board (Gobang.init 3 3)) x y = Ok 0.
Proof.
  apply (Gobang_get_moves_spec (Gobang.init 3 3)).
  - apply Gobang_init_wf. lia.
  - simpl. lia.
Defined.

Lemma Gobang_opening_witness :
  Gobang_wf (Gobang.init 3 3) ∧
  Gobang.get_moves (Gobang.init 3 3) = Ok (Gobang.positions 3) ∧
  length (Gobang.positions 3) = Z.to_nat (3 * 3).
Proof.
  apply (Gobang_opening 3 3); lia.
Defined.

Lemma Gobang_move_accepted_witness :
  ∃ st' ms',
    Gobang.do_move (Gobang.init 3 3) (1, 1) = Ok st' ∧ Gobang_wf st' ∧
    (Gobang.pjm st' = 1 ∨ Gobang.pjm st' = 2) ∧
    Gobang.get_moves st' = Ok ms' ∧ ((1, 1) ∉ ms') ∧
    (∀ p, p ∈ ms' → p ∈ Gobang.positions 3) ∧
    (length ms' < length (Gobang.positions 3))%nat.
Proof.
  apply (Gobang_move_accepted (Gobang.init 3 3) (Gobang.positions 3) 1 1).
  - apply Gobang_init_wf. lia.
  - simpl. lia.
  - right. reflexivity.
  - reflexivity.
  - apply positions_elem. lia.
Defined.

(** ** Rollouts *)

Section RolloutPlays.
Context `{G : Game}.

Lemma rollout_plays fuel : ∀ rng (st t : State) rng',
  rollout fuel rng st = Ok (t, rng') →
  ∃ ms, plays st ms t ∧ get_moves t = [] ∧ (length ms ≤ fuel)%nat ∧
        rng' = Nat.iter (length ms) rng_next rng.
Proof.
  induction fuel as [|fuel IH]; intros rng st t rng' Hrun;
    rewrite rollout_unfold in Hrun;
    destruct (get_moves st) as [|m0 ms0] eqn:Hmoves; try discriminate;
    try (injection Hrun as <- <-; exists []; split; [done|]; split; [done|];
         split; [simpl; lia | done]).
  inv_bind Hrun as [m rng1] Hm. inv_bind Hrun as st1 Hst1.
  apply choice_elem in Hm as [Hin ->]. rewrite <- Hmoves in Hin.
  destruct (IH _ _ _ _ Hrun) as (ms & Hplays & Hend & Hlen & ->).
  exists (m :: ms). split; [split; [done | by exists st1]|].
  split; [done|]. split; [simpl; lia|].
  change (length (m :: ms)) with (S (length ms)). by rewrite Nat.iter_succ_r.
Qed.

(** A rollout, of the sequential search or of a simulation thread, only
    plays moves the state offers where it stands; it stops on a state
    without moves, and it draws from the random stream once for each move
    it plays. *)
Theorem rollouts_play_legally fuel count (st : State) rng t rng' trng threads :
  rollout fuel rng st = Ok (t, rng') →
  run_threads fuel count st trng = Ok threads →
  (∃ ms, plays st ms t ∧ get_moves t = [] ∧ rng' = Nat.iter (length ms) rng_next rng) ∧
  length threads = count ∧
  Forall (λ t', ∃ ms, plays st ms t' ∧ get_moves t' = []) threads.
Proof.
  intros Hrun Hthreads. split; [|split].
  - destruct (rollout_plays _ _ _ _ _ Hrun) as (ms & Hplays & Hend & _ & Hrng).
    by exists ms.
  - by apply run_threads_spec in Hthreads as [Hlen _].
  - apply run_threads_spec in Hthreads as [_ Hall].
    eapply Forall_impl; [exact Hall|]. simpl.
    intros t' (_ & rng0 & rng0' & Hrun').
    destruct (rollout_plays _ _ _ _ _ Hrun') as (ms & Hplays & Hend & _).
    by exists ms.
Qed.

End RolloutPlays.

Lemma rollouts_play_legally_witness :
  ∃ t rng' threads,
    rollout (G:=Nim.game) 4 NimRun.rng (Nim.init 4) = Ok (t, rng') ∧
    run_threads (G:=Nim.game) 4 2 (Nim.init 4) ParallelRun.rngs = Ok threads ∧
    (∃ ms, plays (G:=Nim.game) (Nim.init 4) ms t ∧ Nim.get_moves t = [] ∧
           rng' = Nat.iter (length ms) rng_next NimRun.rng) ∧
    length threads = 2%nat ∧
    Forall (λ t', ∃ ms, plays (G:=Nim.game) (Nim.init 4) ms t' ∧ Nim.get_moves t' = [])
           threads.
Proof.
  destruct (rollout (G:=Nim.game) 4 NimRun.rng (Nim.init 4))
    as [[t rng']|e] eqn:Hrun; [|by vm_compute in Hrun].
  destruct (run_threads (G:=Nim.game) 4 2 (Nim.init 4) ParallelRun.rngs)
    as [threads|e] eqn:Hthreads; [|by vm_compute in Hthreads].
  exists t, rng', threads. split; [done|]. split; [done|].
  apply (rollouts_play_legally (G:=Nim.game) 4 2 (Nim.init 4) NimRun.rng t rng'
           ParallelRun.rngs threads Hrun Hthreads).
Defined.

(** ** The best child and the leaf-parallel iteration on Nim *)



